(** * RLCP (reduce-lcp): conversion state tracker and reference rewriter

    A shallow embedding of [src/index.ts].  The program converts the images
    found under an input directory, moves the originals to a backup
    directory, records every conversion in a lock file and rewrites the
    references to the old file names in the text files of a working
    directory.

    Strings are Rocq strings of 8-bit characters; the file system is a
    finite set of absolute paths plus the contents of the few files the
    program reads; the external collaborators (fast-glob, sharp, prompts,
    failing I/O) are fields of an environment record. *)

From Stdlib Require Import Ascii String List Arith Bool Lia Permutation Sorted.
From stdpp Require Import base decidable option list sets gmap strings.
Import ListNotations.

#[local] Set Warnings "-clear-no-such-hyp".

(* ================================================================== *)
(** * Strings *)
(* ================================================================== *)

Module Str.

(** The characters of a string, and back. *)
Fixpoint chars (s : string) : list ascii :=
  match s with
  | EmptyString => []
  | String c s' => c :: chars s'
  end.

Fixpoint of_chars (l : list ascii) : string :=
  match l with
  | [] => EmptyString
  | c :: l' => String c (of_chars l')
  end.

(** [starts_with p s]: [p] is a prefix of [s]. *)
Fixpoint starts_with (p s : string) : bool :=
  match p, s with
  | EmptyString, _ => true
  | String a p', String b s' => Ascii.eqb a b && starts_with p' s'
  | String _ _, EmptyString => false
  end.

(** [s.endsWith(p)] *)
Definition ends_with (p s : string) : bool :=
  starts_with (of_chars (rev (chars p))) (of_chars (rev (chars s))).

(** [s.slice(n)] *)
Fixpoint drop (n : nat) (s : string) : string :=
  match n, s with
  | 0, _ => s
  | S n', String _ s' => drop n' s'
  | S _, EmptyString => EmptyString
  end.

(** [s.slice(0, n)] *)
Fixpoint take (n : nat) (s : string) : string :=
  match n, s with
  | 0, _ => EmptyString
  | S n', String c s' => String c (take n' s')
  | S _, EmptyString => EmptyString
  end.

(** [s.split(sep)] for a one-character separator: never empty, the
    pieces between the separators in order. *)
Fixpoint split (sep : ascii) (s : string) : list string :=
  match s with
  | EmptyString => [EmptyString]
  | String c s' =>
      if Ascii.eqb c sep then EmptyString :: split sep s'
      else match split sep s' with
           | [] => [String c EmptyString]
           | x :: xs => String c x :: xs
           end
  end.

(** [l.join(sep)] *)
Fixpoint join (sep : string) (l : list string) : string :=
  match l with
  | [] => EmptyString
  | [x] => x
  | x :: xs => x +:+ sep +:+ join sep xs
  end.

(** JavaScript truthiness of an optional string: [undefined] and the
    empty string are falsy. *)
Definition truthy (o : option string) : bool :=
  match o with
  | Some (String _ _) => true
  | _ => false
  end.

End Str.

(* ================================================================== *)
(** * Path matcher: [escapeRegExp] and the boundary-aware pattern *)
(* ================================================================== *)

Module Regex.

(** [\w] of a regular expression without the unicode flag. *)
Definition is_word_char (c : ascii) : bool :=
  let n := nat_of_ascii c in
  (((48 <=? n) && (n <=? 57)) || ((65 <=? n) && (n <=? 90))
   || ((97 <=? n) && (n <=? 122)) || (n =? 95))%nat.

(** The class [[\w\-.]] of both look-behinds. *)
Definition boundary_class (c : ascii) : bool :=
  is_word_char c || Ascii.eqb c "-" || Ascii.eqb c ".".

Definition is_slash (c : ascii) : bool := Ascii.eqb c "/".

(** The characters of the class [[.*+?^${}()|[\]\\]] that
    [escapeRegExp] escapes; they are the syntax characters of a
    pattern. *)
Definition syntax_chars : list ascii :=
  [ "."; "*"; "+"; "?"; "^"; "$"; "{"; "}"; "("; ")"; "|"; "["; "]";
    "\" ]%char.

Definition is_syntax_char (c : ascii) : bool :=
  existsb (Ascii.eqb c) syntax_chars.

(** [string.replace(/[.*+?^${}()|[\]\\]/g, "\\$&")]: every syntax
    character gets a backslash in front. *)
Fixpoint escapeRegExp (s : string) : string :=
  match s with
  | EmptyString => EmptyString
  | String c s' =>
      if is_syntax_char c then String "\" (String c (escapeRegExp s'))
      else String c (escapeRegExp s')
  end.

(** The patterns the program builds: a list of negative look-behinds,
    each a sequence of character classes, followed by literal
    characters. *)
Record pattern := {
  lookbehinds : list (list (ascii -> bool));
  literal : list ascii
}.

(** Reading the source text of a sequence of literal characters: a
    backslash followed by a syntax character is that character, any other
    character stands for itself.  A bare syntax character or a dangling
    backslash is not a literal ([new RegExp] would give it another
    meaning or throw). *)
Fixpoint parse_literal (src : string) : option (list ascii) :=
  match src with
  | EmptyString => Some []
  | String "\" EmptyString => None
  | String "\" (String c r) =>
      if is_syntax_char c then option_map (cons c) (parse_literal r)
      else None
  | String c r =>
      if is_syntax_char c then None
      else option_map (cons c) (parse_literal r)
  end.

(** [new RegExp(`(?<![\\w\\-.])(?<![\\w\\-.]\\/)${escapedOld}`, "g")] *)
Definition boundary_regexp (escapedOld : string) : option pattern :=
  option_map
    (fun lit => {| lookbehinds := [ [boundary_class];
                                    [boundary_class; is_slash] ];
                   literal := lit |})
    (parse_literal escapedOld).

(** [behind rcls before]: the characters before the current position
    ([before], nearest first) end with a match of the classes ([rcls],
    last class first). *)
Fixpoint behind (rcls : list (ascii -> bool)) (before : list ascii) : bool :=
  match rcls, before with
  | [], _ => true
  | p :: ps, c :: cs => p c && behind ps cs
  | _ :: _, [] => false
  end.

(** The pattern matches at the current position: no look-behind
    matches the text before it, and the text from it on starts with the
    literal. *)
Definition match_here (re : pattern) (before : list ascii) (rest : string)
  : bool :=
  forallb (fun cls => negb (behind (rev cls) before)) (lookbehinds re)
  && Str.starts_with (Str.of_chars (literal re)) rest.

(** One piece of the result of a global replace: a character that is
    copied, or a match at a position, which is substituted. *)
Inductive piece :=
| Kept (c : ascii)
| Replaced (pos : nat).

(** The matches of a global pattern, left to right from [lastIndex = 0]:
    at each position the pattern either matches or the character is
    copied; after a match the scan resumes behind it ([skip] counts the
    characters of the match still to pass), and one character further
    after an empty match. *)
Fixpoint scan (re : pattern) (before : list ascii) (pos skip : nat)
    (rest : string) : list piece :=
  match rest with
  | EmptyString =>
      if (skip =? 0)%nat && match_here re before rest then [Replaced pos]
      else []
  | String c r =>
      match skip with
      | S k => scan re (c :: before) (S pos) k r
      | 0 =>
          if match_here re before rest then
            Replaced pos ::
              match length (literal re) with
              | 0 => Kept c :: scan re (c :: before) (S pos) 0 r
              | S k => scan re (c :: before) (S pos) k r
              end
          else Kept c :: scan re (c :: before) (S pos) 0 r
      end
  end.

Definition pieces (re : pattern) (s : string) : list piece :=
  scan re [] 0 0 s.

(** The positions at which the global pattern matches. *)
Definition match_positions (re : pattern) (s : string) : list nat :=
  flat_map (fun p => match p with Replaced i => [i] | Kept _ => [] end)
           (pieces re s).

(** [regex.test(content)] on a fresh pattern. *)
Definition test (re : pattern) (s : string) : bool :=
  match match_positions re s with
  | [] => false
  | _ :: _ => true
  end.

(** [GetSubstitution] for a pattern without capture groups: [$$] is a
    dollar, [$&] the match, [$`] the text before it, [$'] the text
    after it; every other character, a lone dollar included, is
    copied. *)
Fixpoint getSubstitution (matched before after replacement : string)
  : string :=
  match replacement with
  | EmptyString => EmptyString
  | String "$" (String "$" r) =>
      String "$" (getSubstitution matched before after r)
  | String "$" (String "&" r) =>
      matched +:+ getSubstitution matched before after r
  | String "$" (String "`" r) =>
      before +:+ getSubstitution matched before after r
  | String "$" (String "'" r) =>
      after +:+ getSubstitution matched before after r
  | String c r => String c (getSubstitution matched before after r)
  end.

Definition render (re : pattern) (s replacement : string) (p : piece)
  : string :=
  match p with
  | Kept c => String c EmptyString
  | Replaced i =>
      let n := length (literal re) in
      getSubstitution (Str.take n (Str.drop i s)) (Str.take i s)
                      (Str.drop (i + n) s) replacement
  end.

(** The pieces put together, each match substituted. *)
Definition rendered (re : pattern) (s replacement : string)
    (l : list piece) : string :=
  fold_right (fun p acc => render re s replacement p +:+ acc) EmptyString l.

(** [content.replace(regex, newRel)] with the global flag. *)
Definition replace (re : pattern) (s replacement : string) : string :=
  rendered re s replacement (pieces re s).

End Regex.

(* ================================================================== *)
(** * Reference rewriter: [updateReferences] *)
(* ================================================================== *)

(** [{ oldRel: string; newRel: string }] *)
Record Replacement := { oldRel : string; newRel : string }.

Module Rewriter.

(** [replacements.sort((a, b) => b.oldRel.length - a.oldRel.length)]:
    longest old path first; the sort is stable, rules of equal length keep
    their order. *)
Fixpoint insert_by_length (r : Replacement) (l : list Replacement)
  : list Replacement :=
  match l with
  | [] => [r]
  | x :: l' =>
      if (String.length (oldRel r) <? String.length (oldRel x))%nat
      then x :: insert_by_length r l'
      else r :: l
  end.

Definition sort_replacements (l : list Replacement) : list Replacement :=
  fold_right insert_by_length [] l.

(** The body of the loop over the rules (lines 155-169): [None] when
    [new RegExp] throws. *)
Definition apply_replacement (content : string) (r : Replacement)
  : option (string * bool) :=
  match Regex.boundary_regexp (Regex.escapeRegExp (oldRel r)) with
  | None => None
  | Some regex =>
      if Regex.test regex content
      then Some (Regex.replace regex content (newRel r), true)
      else Some (content, false)
  end.

(** The loop over the rules for one file: the content and [hasChanges]. *)
Fixpoint rewrite_content (rules : list Replacement) (content : string)
    (hasChanges : bool) : option (string * bool) :=
  match rules with
  | [] => Some (content, hasChanges)
  | r :: rules' =>
      match apply_replacement content r with
      | None => None
      | Some (content', changed) =>
          rewrite_content rules' content' (hasChanges || changed)
      end
  end.

(** One iteration of the loop over the files, with its [try]/[catch]:
    the file afterwards and whether it counts as updated. *)
Definition update_file (read_ok write_ok : string -> bool)
    (rules : list Replacement) (f : string * string)
  : (string * string) * bool :=
  if negb (read_ok (fst f)) then (f, false)
  else match rewrite_content rules (snd f) false with
       | Some (content', true) =>
           if write_ok (fst f) then ((fst f, content'), true) else (f, false)
       | _ => (f, false)
       end.

(** [updateReferences]: the text files afterwards and
    [updatedFilesCount]. *)
Definition updateReferences (read_ok write_ok : string -> bool)
    (replacements : list Replacement) (texts : list (string * string))
  : list (string * string) * nat :=
  let sorted := sort_replacements replacements in
  let results := map (update_file read_ok write_ok sorted) texts in
  (map fst results, length (List.filter (fun r => snd r) results)).

End Rewriter.

(* ================================================================== *)
(** * [node:path] (POSIX) *)
(* ================================================================== *)

Module path.

Local Open Scope string_scope.

Definition isAbsolute (p : string) : bool := Str.starts_with "/" p.

(** [normalizeString]: empty and [.] segments vanish, [..] removes the
    segment before it; above the start it is kept only when
    [allowAboveRoot].  [acc] is the result so far, last segment first. *)
Fixpoint normalize_segments (allowAboveRoot : bool) (acc segs : list string)
  : list string :=
  match segs with
  | [] => rev acc
  | seg :: rest =>
      if String.eqb seg "" || String.eqb seg "." then
        normalize_segments allowAboveRoot acc rest
      else if String.eqb seg ".." then
        match acc with
        | top :: acc' =>
            if String.eqb top ".." then
              normalize_segments allowAboveRoot
                (if allowAboveRoot then ".." :: acc else acc) rest
            else normalize_segments allowAboveRoot acc' rest
        | [] =>
            normalize_segments allowAboveRoot
              (if allowAboveRoot then [".."] else []) rest
        end
      else normalize_segments allowAboveRoot (seg :: acc) rest
  end.

(** The segments of a path, normalized. *)
Definition segments (allowAboveRoot : bool) (p : string) : list string :=
  normalize_segments allowAboveRoot [] (Str.split "/" p).

(** [path.resolve(...paths)] in the working directory [cwd]: the last
    absolute argument and what follows it, or [cwd] and all arguments. *)
Definition resolve (cwd : string) (paths : list string) : string :=
  let raw :=
    fold_left (fun acc p =>
                 if String.eqb p "" then acc
                 else if isAbsolute p then p
                 else acc +:+ "/" +:+ p) paths cwd in
  "/" +:+ Str.join "/" (segments false raw).

(** [path.normalize(p)] *)
Definition normalize (p : string) : string :=
  if String.eqb p "" then "."
  else
    let body := Str.join "/" (segments (negb (isAbsolute p)) p) in
    let trailing := Str.ends_with "/" p in
    if String.eqb body "" then
      (if isAbsolute p then "/" else if trailing then "./" else ".")
    else
      (if isAbsolute p then "/" else "") +:+ body
      +:+ (if trailing then "/" else "").

(** [path.join(...paths)] *)
Definition join (paths : list string) : string :=
  match List.filter (fun p => negb (String.eqb p "")) paths with
  | [] => "."
  | ps => normalize (Str.join "/" ps)
  end.

Fixpoint drop_common (a b : list string) : list string * list string :=
  match a, b with
  | x :: a', y :: b' => if String.eqb x y then drop_common a' b' else (a, b)
  | _, _ => (a, b)
  end.

(** [path.relative(from, to)] *)
Definition relative (cwd from to : string) : string :=
  let '(up, down) :=
    drop_common (segments false (resolve cwd [from]))
                (segments false (resolve cwd [to])) in
  Str.join "/" (map (fun _ => "..") up ++ down).

Fixpoint drop_while (f : ascii -> bool) (l : list ascii) : list ascii :=
  match l with
  | c :: l' => if f c then drop_while f l' else l
  | [] => []
  end.

Fixpoint take_while (f : ascii -> bool) (l : list ascii) : list ascii :=
  match l with
  | c :: l' => if f c then c :: take_while f l' else []
  | [] => []
  end.

Definition is_sep (c : ascii) : bool := Ascii.eqb c "/".
Definition is_dot (c : ascii) : bool := Ascii.eqb c ".".

(** [path.dirname(p)] *)
Definition dirname (p : string) : string :=
  match Str.chars p with
  | [] => "."
  | c0 :: tl =>
      let name_on := drop_while is_sep (rev tl) in
      match drop_while (fun c => negb (is_sep c)) name_on with
      | [] => if is_sep c0 then "/" else "."
      | _ :: before =>
          if is_sep c0 && (length before =? 0)%nat then "//"
          else Str.of_chars (c0 :: rev before)
      end
  end.

(** The last segment of a path, trailing separators ignored, reversed. *)
Definition rev_base (p : string) : list ascii :=
  take_while (fun c => negb (is_sep c))
             (drop_while is_sep (rev (Str.chars p))).

(** [path.extname(p)]: from the last dot of the last segment on; empty
    when there is no dot, when the segment starts with its only dot and
    for [..]. *)
Definition extname (p : string) : string :=
  let b := rev_base p in
  let ext := take_while (fun c => negb (is_dot c)) b in
  match drop_while (fun c => negb (is_dot c)) b with
  | [] => ""
  | _ :: [] => ""
  | _ :: [d] => if is_dot d && (length ext =? 0)%nat then ""
               else Str.of_chars (rev (ext ++ ["."%char]))
  | _ :: _ => Str.of_chars (rev (ext ++ ["."%char]))
  end.

(** [path.basename(p, ext)] *)
Definition basename (p ext : string) : string :=
  let base := Str.of_chars (rev (rev_base p)) in
  if negb (String.eqb ext "") && Str.ends_with ext base
     && negb (String.eqb ext base)
  then Str.take (String.length base - String.length ext) base
  else base.

(** The directories above an absolute path, which a recursive [mkdir]
    creates. *)
Definition ancestors (p : string) : list string :=
  let segs := segments false p in
  map (fun n => "/" +:+ Str.join "/" (firstn n segs)) (seq 0 (length segs)).

End path.

(* ================================================================== *)
(** * Lock store *)
(* ================================================================== *)

(** [LockData.conversions : Record<string, string>]: from the original
    path to the converted path, in the order the keys were first written
    (the order of [Object.entries] and [Object.values]). *)
Definition LockData := list (string * string).

Module Lock.

(** [conversions[k]] *)
Fixpoint get (l : LockData) (k : string) : option string :=
  match l with
  | [] => None
  | (k', v) :: l' => if String.eqb k' k then Some v else get l' k
  end.

(** [conversions[k] = v]: an existing key keeps its place. *)
Fixpoint set (l : LockData) (k v : string) : LockData :=
  match l with
  | [] => [(k, v)]
  | (k', v') :: l' =>
      if String.eqb k' k then (k, v) :: l' else (k', v') :: set l' k v
  end.

(** [Object.values(conversions)] *)
Definition values (l : LockData) : list string := map snd l.

(** [Object.keys(conversions)] *)
Definition keys (l : LockData) : list string := map fst l.

(** [new Set(Object.values(conversions)).has(k)] *)
Definition has_value (vs : list string) (k : string) : bool :=
  existsb (String.eqb k) vs.

(** The entry of [k] passes [if (lockData.conversions[file])]. *)
Definition valid_entry (l : LockData) (k t : string) : Prop :=
  get l k = Some t /\ t <> EmptyString.

End Lock.

(* ================================================================== *)
(** * The world the program runs in *)
(* ================================================================== *)

Inductive Format := png | jpeg | jpg | webp.

Inductive FileSize := small | smallest.

(** [interface Config], as read from JSON: an absent field is [None]. *)
Record Config := {
  input : option string;
  output : option string;
  blacklists : option (list string);
  file_size : option string;
  preferred_type : option string;
  working_directory : option string
}.

(** [rlcp.config.json] on disk. *)
Inductive ConfigFile :=
| ConfigMissing
| ConfigUnreadable
| ConfigJson (c : Config).

(** [rlcp.lock] on disk. *)
Inductive LockFile :=
| LockMissing
| LockUnreadable
| LockJson (l : LockData).

(** What the program can see and change: the paths that exist, the
    configuration and lock files, [.gitignore], and the text files that the
    glob of [updateReferences] lists under the working directory, with
    their contents.  [rlcp.config.json] is one of these text files when the
    working directory holds it; [config_file] is what [fs.readJSON] gives
    for it. *)
Record World := {
  paths : gset string;
  config_file : ConfigFile;
  lock_file : LockFile;
  gitignore : option string;
  texts : list (string * string)
}.

(** The answers of [prompts]: [None] is a question left unanswered. *)
Record Answers := {
  format : option Format;
  quality : option FileSize;
  answer_working_directory : option string
}.

(** The collaborators: the working directory of the process, fast-glob,
    the answers of the user, what [fs.readJSON] makes of the text of a
    configuration file ([None] when it throws), and which calls of sharp
    and of the file system succeed. *)
Record Env := {
  cwd : string;
  glob : gset string -> string -> list string -> list string;
  answers : Answers;
  readJSON : string -> option Config;
  sharp_ok : string -> Format -> nat -> bool;
  move_ok : string -> string -> bool;
  lock_write_ok : bool;
  gitignore_read_ok : bool;
  gitignore_write_ok : bool;
  text_read_ok : string -> bool;
  text_write_ok : string -> bool
}.

Section Program.

Local Open Scope string_scope.

Variable env : Env.

(** [fs.pathExists(p)]: relative paths are taken from the working
    directory. *)
Definition pathExists (fs : gset string) (p : string) : bool :=
  bool_decide (path.resolve (cwd env) [p] ∈ fs).

(** [loadLockFile] *)
Definition loadLockFile (w : World) : LockData :=
  match lock_file w with
  | LockJson l => l
  | LockMissing | LockUnreadable => []
  end.

(** [saveLockFile] *)
Definition saveLockFile (data : LockData) (w : World) : World :=
  if lock_write_ok env then
    {| paths := paths w; config_file := config_file w;
       lock_file := LockJson data; gitignore := gitignore w;
       texts := texts w |}
  else w.

Definition parse_format (s : string) : option Format :=
  if String.eqb s "png" then Some png
  else if String.eqb s "jpeg" then Some jpeg
  else if String.eqb s "jpg" then Some jpg
  else if String.eqb s "webp" then Some webp
  else None.

Definition parse_file_size (s : string) : option FileSize :=
  if String.eqb s "small" then Some small
  else if String.eqb s "smallest" then Some smallest
  else None.

Definition format_name (f : Format) : string :=
  match f with
  | png => "png" | jpeg => "jpeg" | jpg => "jpg" | webp => "webp"
  end.

Definition is_Some_and_parses {A} (parse : string -> option A)
    (o : option string) : bool :=
  match o with
  | Some s => match parse s with Some _ => true | None => false end
  | None => false
  end.

(** [loadConfig]: [None] is [process.exit(1)]. *)
Definition loadConfig (w : World) : option Config :=
  match config_file w with
  | ConfigMissing => None
  | ConfigUnreadable => None
  | ConfigJson config =>
      if negb (Str.truthy (input config))
         || negb (Str.truthy (output config)) then None
      else if Str.truthy (file_size config)
              && negb (is_Some_and_parses parse_file_size (file_size config))
      then None
      else if Str.truthy (preferred_type config)
              && negb (is_Some_and_parses parse_format (preferred_type config))
      then None
      else Some config
  end.

(** [String.prototype.trim] on strings of 8-bit characters, each the code
    unit of its number: of the white space and line terminators that
    [trim] strips, those below 256 are the characters 9 to 13, the space
    and the no-break space (160). *)
Definition is_space (c : ascii) : bool :=
  let n := nat_of_ascii c in
  ((n =? 32) || ((9 <=? n) && (n <=? 13)) || (n =? 160))%nat.

Definition trim (s : string) : string :=
  Str.of_chars
    (rev (path.drop_while is_space
            (rev (path.drop_while is_space (Str.chars s))))).

Definition newline : string := String "010"%char EmptyString.

Definition with_gitignore (w : World) (content : string) : World :=
  {| paths := paths w; config_file := config_file w;
     lock_file := lock_file w; gitignore := Some content;
     texts := texts w |}.

(** [ensureGitIgnore]: a read or write that throws is caught and
    logged. *)
Definition ensureGitIgnore (outputDir : string) (w : World) : World :=
  let read :=
    match gitignore w with
    | None => Some ""
    | Some content => if gitignore_read_ok env then Some content else None
    end in
  match read with
  | None => w
  | Some content =>
      let lines := map trim (Str.split "010"%char content) in
      let isIgnored :=
        existsb (fun line =>
                   String.eqb line outputDir
                   || String.eqb line ("/" +:+ outputDir)
                   || String.eqb line (outputDir +:+ "/")
                   || String.eqb line ("/" +:+ outputDir +:+ "/")) lines in
      if isIgnored then w
      else
        let newContent :=
          if Str.ends_with newline content || String.eqb content ""
          then content +:+ outputDir +:+ newline
          else content +:+ newline +:+ outputDir +:+ newline in
        if gitignore_write_ok env then with_gitignore w newContent else w
  end.

(** The settings of a run, from the configuration or the prompts. *)
Record Settings := {
  targetFormat : Format;
  qualitySetting : FileSize;
  workingDir : string
}.

(** Lines 232-292: [None] is "Operation cancelled." *)
Definition determine_settings (config : Config) : option Settings :=
  let targetFormat :=
    if Str.truthy (preferred_type config)
    then preferred_type config ≫= parse_format else None in
  let qualitySetting :=
    if Str.truthy (file_size config)
    then file_size config ≫= parse_file_size else None in
  let workingDir :=
    if Str.truthy (working_directory config)
    then working_directory config else None in
  let response := answers env in
  match from_option Some (format response) targetFormat,
        from_option Some (quality response) qualitySetting,
        from_option Some (answer_working_directory response) workingDir with
  | Some f, Some q, Some d =>
      Some {| targetFormat := f; qualitySetting := q; workingDir := d |}
  | _, _, _ => None
  end.

Definition qualityValue (q : FileSize) : nat :=
  match q with
  | small => 80
  | smallest => 60
  end.

(** [addReplacement], returning the array after its pushes. *)
Definition addReplacement (replacements : list Replacement)
    (originalFile targetFile inputDir : string) : list Replacement :=
  let oldRel := path.relative (cwd env) inputDir originalFile in
  let newRel :=
    path.relative (cwd env) (path.resolve (cwd env) [cwd env; inputDir])
                  targetFile in
  let replacements :=
    (replacements ++ [ {| oldRel := oldRel; newRel := newRel |} ])%list in
  if negb (String.eqb originalFile oldRel) then
    (replacements
       ++ [ {| oldRel := originalFile;
               newRel := path.relative (cwd env) (cwd env) targetFile |} ])%list
  else replacements.

(** The three steps of a conversion. *)
Inductive ExecutorStep := Encode | MoveOriginal | RenameTemp.

(** What the loop prints for a candidate. *)
Inductive Event :=
| AlreadyConverted
| GeneratedFile
| BackupExists
| Processed
| Failed (step : ExecutorStep).

(** The dispositions of the specification. *)
Inductive Disposition :=
| ConvertNow
| SkipAlreadyConverted
| SkipGeneratedArtifact
| SkipBackupExists.

Definition disposition (e : Event) : Disposition :=
  match e with
  | AlreadyConverted => SkipAlreadyConverted
  | GeneratedFile => SkipGeneratedArtifact
  | BackupExists => SkipBackupExists
  | Processed | Failed _ => ConvertNow
  end.

(** The variables of [main] that the loop over the candidates changes. *)
Record RunState := {
  st_fs : gset string;
  st_lockData : LockData;
  st_replacements : list Replacement;
  st_successCount : nat;
  st_failCount : nat;
  st_log : list (string * Event)
}.

(** [sharp(src).<format>({ quality }).toFile(dest)]: the source must
    exist. *)
Definition sharp_toFile (fs : gset string) (src : string) (f : Format)
    (q : nat) (dest : string) : option (gset string) :=
  if bool_decide (path.resolve (cwd env) [src] ∈ fs) && sharp_ok env src f q
  then Some (fs ∪ {[ path.resolve (cwd env) [dest] ]}) else None.

(** [fs.move(src, dest, { overwrite: true })]: the source must exist and
    differ from the destination, whose directories are created. *)
Definition fs_move (fs : gset string) (src dest : string)
  : option (gset string) :=
  let s := path.resolve (cwd env) [src] in
  let d := path.resolve (cwd env) [dest] in
  if bool_decide (s ∈ fs) && negb (String.eqb s d) && move_ok env s d
  then Some (fs ∖ {[ s ]} ∪ {[ d ]} ∪ list_to_set (path.ancestors d))
  else None.

(** Lines 383-406: the file system afterwards, and the step that threw,
    if any. *)
Definition convert (fs : gset string) (f : Format) (q : nat)
    (absoluteFilePath originalFileDest finalNewPath : string)
  : gset string * option ExecutorStep :=
  match sharp_toFile fs absoluteFilePath f q (absoluteFilePath +:+ ".temp")
  with
  | None => (fs, Some Encode)
  | Some fs1 =>
      match fs_move fs1 absoluteFilePath originalFileDest with
      | None => (fs1, Some MoveOriginal)
      | Some fs2 =>
          match fs_move fs2 (absoluteFilePath +:+ ".temp") finalNewPath with
          | None => (fs2, Some RenameTemp)
          | Some fs3 => (fs3, None)
          end
      end
  end.

Section Loop.

Variables (inputDir outputDir : string) (fmt : Format) (q : nat).

(** The set of lock values taken once, before the loop (line 197). *)
Variable lockValues : list string.

Definition absoluteFilePath (file : string) : string :=
  path.resolve (cwd env) [cwd env; file].

(** [originalFileDest] (lines 340-341): where the original goes. *)
Definition originalFileDest (file : string) : string :=
  path.join [outputDir; path.relative (cwd env) inputDir file].

(** [finalNewPath] (lines 343-349): where the converted image goes. *)
Definition finalNewPath (file : string) : string :=
  path.resolve (cwd env)
    [cwd env; path.dirname file;
     path.basename file (path.extname file) +:+ "." +:+ format_name fmt].

(** [lockedTargetAbs] when the candidate has a lock entry whose target
    exists (lines 352-356). *)
Definition locked_target (st : RunState) (file : string) : option string :=
  match Lock.get (st_lockData st) file with
  | Some lockedTargetRel =>
      if Str.truthy (Some lockedTargetRel) then
        let lockedTargetAbs :=
          path.resolve (cwd env) [cwd env; lockedTargetRel] in
        if pathExists (st_fs st) lockedTargetAbs then Some lockedTargetAbs
        else None
      else None
  | None => None
  end.

Definition logged (st : RunState) (file : string) (e : Event)
  : list (string * Event) :=
  (st_log st ++ [(file, e)])%list.

(** Lines 363-416: what happens to a candidate that has no lock entry
    with an existing target. *)
Definition process_unlocked (st : RunState) (file : string) : RunState :=
  if Lock.has_value lockValues file then
    {| st_fs := st_fs st; st_lockData := st_lockData st;
       st_replacements := st_replacements st;
       st_successCount := st_successCount st;
       st_failCount := st_failCount st;
       st_log := logged st file GeneratedFile |}
  else if pathExists (st_fs st) (originalFileDest file)
          && pathExists (st_fs st) (finalNewPath file) then
    {| st_fs := st_fs st;
       st_lockData :=
         Lock.set (st_lockData st) file
           (path.relative (cwd env) (cwd env) (finalNewPath file));
       st_replacements :=
         addReplacement (st_replacements st) file (finalNewPath file)
                        inputDir;
       st_successCount := st_successCount st;
       st_failCount := st_failCount st;
       st_log := logged st file BackupExists |}
  else
    match convert (st_fs st) fmt q (absoluteFilePath file)
                  (originalFileDest file) (finalNewPath file) with
    | (fs', None) =>
        {| st_fs := fs';
           st_lockData :=
             Lock.set (st_lockData st) file
               (path.relative (cwd env) (cwd env) (finalNewPath file));
           st_replacements :=
             addReplacement (st_replacements st) file (finalNewPath file)
                            inputDir;
           st_successCount := S (st_successCount st);
           st_failCount := st_failCount st;
           st_log := logged st file Processed |}
    | (fs', Some step) =>
        {| st_fs := fs'; st_lockData := st_lockData st;
           st_replacements := st_replacements st;
           st_successCount := st_successCount st;
           st_failCount := S (st_failCount st);
           st_log := logged st file (Failed step) |}
    end.

(** The body of the loop over the candidates (lines 330-417). *)
Definition process (st : RunState) (file : string) : RunState :=
  match locked_target st file with
  | Some lockedTargetAbs =>
      {| st_fs := st_fs st; st_lockData := st_lockData st;
         st_replacements :=
           addReplacement (st_replacements st) file lockedTargetAbs
                          inputDir;
         st_successCount := st_successCount st;
         st_failCount := st_failCount st;
         st_log := logged st file AlreadyConverted |}
  | None => process_unlocked st file
  end.

(** [for (const file of files) { ... }] *)
Definition process_all (st : RunState) (files : list string) : RunState :=
  fold_left process files st.

End Loop.

(** Lines 425-435: the table of replacements, emptied and built again
    from the lock data. *)
Definition rebuild_replacements (inputDir : string) (l : LockData)
  : list Replacement :=
  fold_left
    (fun replacements '(originalRelPath, targetRelPath) =>
       addReplacement replacements originalRelPath
         (path.resolve (cwd env) [cwd env; targetRelPath]) inputDir)
    l [].

(** How [main] ends. *)
Inductive Outcome :=
| Exit1
| NoImagesFound
| Cancelled
| Done (st : RunState) (table : list Replacement) (updatedFiles : option nat).

Definition with_files (w : World) (fs : gset string) : World :=
  {| paths := fs; config_file := config_file w; lock_file := lock_file w;
     gitignore := gitignore w; texts := texts w |}.

(** [CONFIG_FILE_NAME] and the [configPath] of [loadConfig]. *)
Definition CONFIG_FILE_NAME : string := "rlcp.config.json".

Definition configPath : string := path.join [cwd env; CONFIG_FILE_NAME].

(** The content of the text file [p], if it is one of the files. *)
Fixpoint text_of (p : string) (files : list (string * string))
  : option string :=
  match files with
  | [] => None
  | (p', content) :: files' =>
      if String.eqb p' p then Some content else text_of p files'
  end.

(** The configuration file once [updateReferences] has turned the text
    files [before] into [after]: when [rlcp.config.json] is one of them and
    its text has been rewritten, the configuration is what [fs.readJSON]
    gives for the new text. *)
Definition config_after (c : ConfigFile)
    (before after : list (string * string)) : ConfigFile :=
  match text_of configPath before, text_of configPath after with
  | Some old, Some new =>
      if String.eqb old new then c
      else match readJSON env new with
           | Some config => ConfigJson config
           | None => ConfigUnreadable
           end
  | _, _ => c
  end.

Definition with_texts (w : World) (t : list (string * string)) : World :=
  {| paths := paths w;
     config_file := config_after (config_file w) (texts w) t;
     lock_file := lock_file w; gitignore := gitignore w; texts := t |}.

Definition image_pattern : string := "**/*.{png,jpg,jpeg,webp}".

(** [main] *)
Definition main (w : World) : Outcome * World :=
  match loadConfig w with
  | None => (Exit1, w)
  | Some config =>
      let lockData := loadLockFile w in
      let lockValues := Lock.values lockData in
      let inputDir := default "" (input config) in
      let outputDir := default "" (output config) in
      let blacklists := default [] (blacklists config) in
      let w := ensureGitIgnore outputDir w in
      if negb (pathExists (paths w) inputDir) then (Exit1, w)
      else
        let files :=
          glob env (paths w) (path.join [inputDir; image_pattern])
               blacklists in
        match files with
        | [] => (NoImagesFound, w)
        | _ :: _ =>
            match determine_settings config with
            | None => (Cancelled, w)
            | Some settings =>
                let st :=
                  process_all inputDir outputDir (targetFormat settings)
                    (qualityValue (qualitySetting settings)) lockValues
                    {| st_fs := paths w; st_lockData := lockData;
                       st_replacements := []; st_successCount := 0;
                       st_failCount := 0; st_log := [] |}
                    files in
                let table := rebuild_replacements inputDir (st_lockData st) in
                let w :=
                  saveLockFile (st_lockData st) (with_files w (st_fs st)) in
                if negb (String.eqb (workingDir settings) "")
                   && negb (length table =? 0)%nat then
                  if pathExists (paths w) (workingDir settings) then
                    let '(texts', n) :=
                      Rewriter.updateReferences (text_read_ok env)
                        (text_write_ok env) table (texts w) in
                    (Done st table (Some n), with_texts w texts')
                  else (Done st table None, w)
                else (Done st table None, w)
            end
        end
  end.

End Program.

(* ================================================================== *)
(** * Notions of the specification *)
(* ================================================================== *)

Section Notions.

Local Open Scope string_scope.

Variable env : Env.

(** The candidate [file] has the lock entry [t], and the target of the
    entry exists on disk. *)
Definition valid_lock_entry (st : RunState) (file t : string) : Prop :=
  Lock.valid_entry (st_lockData st) file t
  /\ pathExists env (st_fs st) (path.resolve (cwd env) [cwd env; t]) = true.

(** The candidate is classified [ConvertNow]: the three skip tests of the
    loop fail. *)
Definition classified_ConvertNow (inputDir outputDir : string) (fmt : Format)
    (lockValues : list string) (st : RunState) (file : string) : Prop :=
  (forall t, ~ valid_lock_entry st file t)
  /\ ~ In file lockValues
  /\ ~ (pathExists env (st_fs st) (originalFileDest env inputDir outputDir file)
          = true
        /\ pathExists env (st_fs st) (finalNewPath env fmt file) = true).

(** The rules that [addReplacement] pushes for one pair. *)
Definition rules_of (inputDir originalFile targetFile : string)
  : list Replacement :=
  addReplacement env [] originalFile targetFile inputDir.

End Notions.

(** The candidates that a run logs, and how many it converts. *)
Definition run_log (o : Outcome) : list (string * Event) :=
  match o with
  | Done st _ _ => st_log st
  | Exit1 | NoImagesFound | Cancelled => []
  end.

Definition run_conversions (o : Outcome) : nat :=
  match o with
  | Done st _ _ => st_successCount st
  | Exit1 | NoImagesFound | Cancelled => 0
  end.

Section TwoRuns.

Local Open Scope string_scope.

Variable env : Env.
Variables (inputDir outputDir : string) (fmt : Format).

(** The path under which the calls of the file system reach the candidate
    or the lock target [x]. *)
Definition disk_path (x : string) : string :=
  path.resolve (cwd env) [path.resolve (cwd env) [cwd env; x]].

(** The paths that the conversion of the candidate [k] touches: the
    temporary file, the backup, the converted image. *)
Definition temp_path (k : string) : string :=
  path.resolve (cwd env) [absoluteFilePath env k +:+ ".temp"].

Definition backup_path (k : string) : string :=
  path.resolve (cwd env) [originalFileDest env inputDir outputDir k].

Definition final_path (k : string) : string :=
  path.resolve (cwd env) [finalNewPath env fmt k].

(** The directories that the two moves of the conversion create. *)
Definition made_dirs (k : string) : list string :=
  (path.ancestors (backup_path k) ++ path.ancestors (final_path k))%list.

(** The lock value that the conversion of [k] records. *)
Definition lock_value (k : string) : string :=
  path.relative (cwd env) (cwd env) (finalNewPath env fmt k).

(** What is taken for granted about names in two runs in a row, the first
    on the files [fs0] with the lock data [lock0] and the candidates [D1],
    the second on the files [fs1] with the candidates [D2]: the glob lists
    each existing image once, under one name, and lists a file of the first
    run again; the lock values and the recorded final paths name files the
    way the glob does; a final path is the final path of itself; no
    temporary file is a lock target or a final path. *)
Record sane_names (lock0 : LockData) (fs0 fs1 : gset string)
    (D1 D2 : list string) : Prop := {
  d1_nodup : List.NoDup D1;
  d1_exist : forall k, In k D1 -> disk_path k ∈ fs0;
  d1_nonempty : forall k, In k D1 -> k <> "";
  lock_nodup : List.NoDup (Lock.keys lock0);
  lock_named :
    forall t k, In t (Lock.values lock0) -> In k D1 ->
                disk_path t = disk_path k -> t = k;
  value_nonempty : forall k, In k D1 -> lock_value k <> "";
  value_target : forall k, In k D1 -> disk_path (lock_value k) = final_path k;
  final_fixed :
    forall k k', In k D1 -> In k' D1 ->
                 final_path k' = disk_path k -> final_path k = disk_path k;
  temp_fresh_lock :
    forall k t, In k D1 -> In t (Lock.values lock0) ->
                disk_path t <> temp_path k;
  temp_fresh_final :
    forall k k', In k D1 -> In k' D1 -> final_path k' <> temp_path k;
  d2_exist : forall c, In c D2 -> disk_path c ∈ fs1;
  d2_old : forall c, In c D2 -> disk_path c ∈ fs0 -> In c D1;
  d2_named :
    forall c k, In c D2 -> In k D1 ->
                disk_path c = final_path k -> c = lock_value k
}.

(** What the log says about a candidate holds in the state [st]. *)
Definition entry_ok (lock0 : LockData) (st : RunState) (c : string)
    (e : Event) : Prop :=
  match e with
  | GeneratedFile => In c (Lock.values lock0)
  | Failed _ => False
  | AlreadyConverted | BackupExists => exists t, valid_lock_entry env st c t
  | Processed => valid_lock_entry env st c (lock_value c)
  end.

(** A path on which a lock entry may rely: the target of a value of the
    lock file, or the final path of a candidate. *)
Definition relied_on (lock0 : LockData) (D1 : list string) (p : string)
  : Prop :=
  (exists t, In t (Lock.values lock0) /\ p = disk_path t)
  \/ (exists k, In k D1 /\ p = final_path k).

(** The invariant of the loop of a run without failures that starts on
    the files [fs0] with the lock data [lock0] and has the candidates
    [D1]. *)
Record run_inv (lock0 : LockData) (fs0 : gset string) (D1 : list string)
    (st : RunState) : Prop := {
  inv_nodup : List.NoDup (Lock.keys (st_lockData st));
  inv_values :
    forall k t, In (k, t) (st_lockData st) ->
                In t (Lock.values lock0)
                \/ exists k', In k' D1 /\ t = lock_value k';
  inv_kept :
    forall k c, In (k, c) lock0 -> In c D1 -> In (k, c) (st_lockData st);
  inv_generated :
    forall c, In c (Lock.values lock0) -> In c D1 -> disk_path c ∈ st_fs st;
  inv_log : forall c e, In (c, e) (st_log st) -> entry_ok lock0 st c e;
  inv_files :
    forall p, p ∈ st_fs st ->
              p ∈ fs0
              \/ (exists k, In (k, Processed) (st_log st) /\ p = final_path k)
              \/ (exists k, In k D1
                            /\ (p = backup_path k \/ In p (made_dirs k)))
}.

(** No candidate of the second run is a backup of the first run or a
    directory that the first run made. *)
Definition backups_not_rediscovered (D1 D2 : list string) : Prop :=
  forall c k, In c D2 -> In k D1 ->
              disk_path c <> backup_path k /\ ~ In (disk_path c) (made_dirs k).

End TwoRuns.

Section StepResults.

Variable env : Env.
Variables (inputDir outputDir : string) (fmt : Format).
Variable lockValues : list string.

(** What one iteration of the loop does to the state. *)
Inductive step_result (st : RunState) (c : string) (st' : RunState) : Prop :=
| step_already (t : string) :
    valid_lock_entry env st c t ->
    st_fs st' = st_fs st -> st_lockData st' = st_lockData st ->
    st_log st' = st_log st ++ [(c, AlreadyConverted)] ->
    st_successCount st' = st_successCount st ->
    st_failCount st' = st_failCount st ->
    step_result st c st'
| step_generated :
    (forall t, ~ valid_lock_entry env st c t) -> In c lockValues ->
    st_fs st' = st_fs st -> st_lockData st' = st_lockData st ->
    st_log st' = st_log st ++ [(c, GeneratedFile)] ->
    st_successCount st' = st_successCount st ->
    st_failCount st' = st_failCount st ->
    step_result st c st'
| step_backup :
    (forall t, ~ valid_lock_entry env st c t) -> ~ In c lockValues ->
    backup_path env inputDir outputDir c ∈ st_fs st ->
    final_path env fmt c ∈ st_fs st ->
    st_fs st' = st_fs st ->
    st_lockData st' = Lock.set (st_lockData st) c (lock_value env fmt c) ->
    st_log st' = st_log st ++ [(c, BackupExists)] ->
    st_successCount st' = st_successCount st ->
    st_failCount st' = st_failCount st ->
    step_result st c st'
| step_processed :
    (forall t, ~ valid_lock_entry env st c t) -> ~ In c lockValues ->
    st_fs st'
    = ((st_fs st ∪ {[ temp_path env c ]}) ∖ {[ disk_path env c ]}
       ∪ {[ backup_path env inputDir outputDir c ]}
       ∪ list_to_set (path.ancestors (backup_path env inputDir outputDir c)))
      ∖ {[ temp_path env c ]} ∪ {[ final_path env fmt c ]}
      ∪ list_to_set (path.ancestors (final_path env fmt c)) ->
    st_lockData st' = Lock.set (st_lockData st) c (lock_value env fmt c) ->
    st_log st' = st_log st ++ [(c, Processed)] ->
    st_successCount st' = S (st_successCount st) ->
    st_failCount st' = st_failCount st ->
    step_result st c st'
| step_failed (step : ExecutorStep) :
    (forall t, ~ valid_lock_entry env st c t) -> ~ In c lockValues ->
    st_log st' = st_log st ++ [(c, Failed step)] ->
    st_failCount st' = S (st_failCount st) ->
    step_result st c st'.

End StepResults.

(** A setup error of the configuration: the file is missing or cannot be
    read, a required field is missing (or empty), or an optional field has
    a value that is not accepted. *)
Definition config_setup_error (w : World) : Prop :=
  match config_file w with
  | ConfigMissing | ConfigUnreadable => True
  | ConfigJson c =>
      Str.truthy (input c) = false
      \/ Str.truthy (output c) = false
      \/ (exists s, file_size c = Some s /\ s <> EmptyString
                    /\ ~ In s ["small"; "smallest"])
      \/ (exists s, preferred_type c = Some s /\ s <> EmptyString
                    /\ ~ In s ["png"; "jpeg"; "jpg"; "webp"])
  end.

(** The pattern that [updateReferences] builds for the old path [old]. *)
Definition boundary_pattern (old : string) : Regex.pattern :=
  {| Regex.lookbehinds :=
       [ [Regex.boundary_class]; [Regex.boundary_class; Regex.is_slash] ];
     Regex.literal := Str.chars old |}.

(** The text before position [i] of [s], nearest character first. *)
Definition text_before (s : string) (i : nat) : list ascii :=
  rev (Str.chars (Str.take i s)).

(** The text of a file after one rule has been applied to it. *)
Definition after_rule (s : string) (r : Replacement) : string :=
  match Rewriter.apply_replacement s r with
  | Some (s', _) => s'
  | None => s
  end.

(** The order of the sorted table: the old path of [a] is at least as long
    as that of [b]. *)
Definition longer_first (a b : Replacement) : Prop :=
  String.length (oldRel b) <= String.length (oldRel a).

(** [old] occurs in [s] at position [i]. *)
Definition occurs_at (old s : string) (i : nat) : Prop :=
  i <= String.length s /\ Str.starts_with old (Str.drop i s) = true.

(** The character just before position [i], if any. *)
Definition char_before (s : string) (i : nat) : option ascii :=
  match i with
  | 0 => None
  | S j => String.get j s
  end.

(** The boundary rule: position [i] is not immediately preceded by a word
    character, a hyphen or a period, and not by a path separator that is
    itself preceded by one of these. *)
Definition standalone (s : string) (i : nat) : Prop :=
  (forall c, char_before s i = Some c -> Regex.boundary_class c = false)
  /\ (forall c, char_before s i = Some "/"%char ->
                char_before s (i - 1) = Some c ->
                Regex.boundary_class c = false).

(** The replacement text has no dollar sign, so that it is inserted as it
    is. *)
Definition no_dollar (s : string) : Prop := ~ In "$"%char (Str.chars s).

(** The occurrence at [i] is replaced by the rule for [old]: the global
    replace of its pattern matches at [i]. *)
Definition replaced_at (old s : string) (i : nat) : Prop :=
  exists re, Regex.boundary_regexp (Regex.escapeRegExp old) = Some re
             /\ In i (Regex.match_positions re s).

(** The matches of the rule for [old] in [s] leave the characters from
    position [a] up to position [b] alone: each match ends at or before
    [a], or begins at or after [b]. *)
Definition untouched (old s : string) (a b : nat) : Prop :=
  forall j, replaced_at old s j -> j + String.length old <= a \/ b <= j.

(** Two strings agree as far as both reach. *)
Fixpoint agree (a b : string) : bool :=
  match a, b with
  | String x a', String y b' => Ascii.eqb x y && agree a' b'
  | _, _ => true
  end.

(** An occurrence of [b] may begin [k] characters into an occurrence of
    [a]. *)
Definition overlap_at (a b : string) (k : nat) : bool :=
  agree (Str.drop k a) b.

(** In some text an occurrence of [old] may share a character with an
    occurrence of [new], or begin inside it. *)
Definition can_overlap (new old : string) : bool :=
  existsb (overlap_at new old) (seq 0 (String.length new))
  || existsb (overlap_at old new) (seq 1 (String.length old - 1)).

(* ================================================================== *)
(** * Scenarios *)
(* ================================================================== *)

Module Scenario.

Local Open Scope string_scope.

(** A glob over a known list of image paths: those that exist and that
    the ignore list does not name, in the order of the list. *)
Definition glob_among (cwd : string) (known : list string)
    (fs : gset string) (pattern : string) (ignore : list string)
  : list string :=
  List.filter (fun c => bool_decide (path.resolve cwd [c] ∈ fs)
                        && negb (existsb (String.eqb c) ignore)) known.

Definition no_answers : Answers :=
  {| format := None; quality := None; answer_working_directory := None |}.

Definition config (inputDir outputDir : string) : Config :=
  {| input := Some inputDir; output := Some outputDir; blacklists := None;
     file_size := Some "small"; preferred_type := Some "webp";
     working_directory := Some "./" |}.

(** A configuration that sets no format. *)
Definition config_asking : Config :=
  {| input := Some "assets"; output := Some "backup"; blacklists := None;
     file_size := Some "small"; preferred_type := None;
     working_directory := Some "./" |}.

(** A configuration with a blacklist. *)
Definition config_blacklisting (blacklist : list string) : Config :=
  {| input := Some "public"; output := Some "backup";
     blacklists := Some blacklist;
     file_size := Some "small"; preferred_type := Some "webp";
     working_directory := Some "./" |}.

(** The text of a configuration file, as [JSON.stringify] writes the
    configuration. *)
Definition json_string (s : string) : string :=
  String "034"%char (s +:+ String "034"%char "").

Definition json_field (name : string) (value : option string)
  : list string :=
  match value with
  | Some v => [json_string name +:+ ":" +:+ v]
  | None => []
  end.

Definition json_of_config (c : Config) : string :=
  "{"
  +:+ Str.join ","
        (json_field "input" (option_map json_string (input c))
         ++ json_field "output" (option_map json_string (output c))
         ++ json_field "blacklists"
              (option_map
                 (fun l => "[" +:+ Str.join "," (map json_string l) +:+ "]")
                 (blacklists c))
         ++ json_field "file_size" (option_map json_string (file_size c))
         ++ json_field "preferred_type"
              (option_map json_string (preferred_type c))
         ++ json_field "working_directory"
              (option_map json_string (working_directory c)))%list
  +:+ "}".

(** The configurations of the scenarios; [fs.readJSON] reads the text of
    each of them back. *)
Definition known_configs : list Config :=
  [ config "assets" "backup"; config "public" "backup";
    config "public" "public/backup"; config "/w/public" "backup";
    config_asking;
    config_blacklisting ["public/old.png"];
    config_blacklisting ["public/old.webp"] ].

Definition readJSON_known (text : string) : option Config :=
  List.find (fun c => String.eqb (json_of_config c) text) known_configs.

(** [rlcp.config.json] as a text file of the working directory. *)
Definition config_entry (c : Config) : string * string :=
  ("/w/rlcp.config.json", json_of_config c).

(** An environment in which every call succeeds. *)
Definition env_ok (known : list string) : Env :=
  {| cwd := "/w"; glob := glob_among "/w" known; answers := no_answers;
     readJSON := readJSON_known;
     sharp_ok := fun _ _ _ => true; move_ok := fun _ _ => true;
     lock_write_ok := true; gitignore_read_ok := true;
     gitignore_write_ok := true;
     text_read_ok := fun _ => true; text_write_ok := fun _ => true |}.

(** An environment in which sharp cannot encode [bad]. *)
Definition env_bad_image (known : list string) (bad : string) : Env :=
  {| cwd := "/w"; glob := glob_among "/w" known; answers := no_answers;
     readJSON := readJSON_known;
     sharp_ok := fun src _ _ => negb (String.eqb src bad);
     move_ok := fun _ _ => true;
     lock_write_ok := true; gitignore_read_ok := true;
     gitignore_write_ok := true;
     text_read_ok := fun _ => true; text_write_ok := fun _ => true |}.

Definition state (fs : gset string) (l : LockData) : RunState :=
  {| st_fs := fs; st_lockData := l; st_replacements := [];
     st_successCount := 0; st_failCount := 0; st_log := [] |}.

(** The scenario of the specification: one image [assets/icons/logo.png],
    backup root [backup], format webp. *)
Definition logo_known : list string :=
  [ "assets/icons/logo.png"; "assets/icons/logo.webp" ].

Definition logo_fs : gset string :=
  {[ "/w"; "/w/assets"; "/w/assets/icons"; "/w/assets/icons/logo.png" ]}.

Definition logo_world : World :=
  {| paths := logo_fs; config_file := ConfigJson (config "assets" "backup");
     lock_file := LockMissing; gitignore := None;
     texts := [ ("/w/index.html", "<img src='icons/logo.png'>");
                config_entry (config "assets" "backup") ] |}.

(** The same tree after a run: the original in the backup, the converted
    image in its place. *)
Definition logo_fs_done : gset string :=
  {[ "/w"; "/w/assets"; "/w/assets/icons"; "/w/assets/icons/logo.webp";
     "/w/backup"; "/w/backup/icons"; "/w/backup/icons/logo.png" ]}.

Definition logo_lock : LockData :=
  [ ("assets/icons/logo.png", "assets/icons/logo.webp") ].

(** The converted tree with the original put back in place. *)
Definition logo_fs_both : gset string :=
  logo_fs_done ∪ {[ "/w/assets/icons/logo.png" ]}.

Definition logo_env : Env := env_ok logo_known.

(** The run of [main] on [logo_world], unfolded. *)
Definition logo_st : RunState :=
  process_all logo_env "assets" "backup" webp 80 []
    (state logo_fs []) [ "assets/icons/logo.png" ].

Definition logo_table : list Replacement :=
  [ {| oldRel := "icons/logo.png"; newRel := "icons/logo.webp" |};
    {| oldRel := "assets/icons/logo.png";
       newRel := "assets/icons/logo.webp" |} ].

Definition logo_world_done : World :=
  {| paths := st_fs logo_st;
     config_file := ConfigJson (config "assets" "backup");
     lock_file := LockJson logo_lock;
     gitignore := Some ("backup" +:+ newline);
     texts := [ ("/w/index.html", "<img src='icons/logo.webp'>");
                config_entry (config "assets" "backup") ] |}.

(** A directory with [a.png] and [a.webp] side by side, no lock file. *)
Definition twin_known : list string := [ "public/a.png"; "public/a.webp" ].

Definition twin_env : Env := env_ok twin_known.

Definition twin_fs : gset string :=
  {[ "/w"; "/w/public"; "/w/public/a.png"; "/w/public/a.webp" ]}.

Definition twin_world : World :=
  {| paths := twin_fs; config_file := ConfigJson (config "public" "backup");
     lock_file := LockMissing; gitignore := None;
     texts := [ config_entry (config "public" "backup") ] |}.

(** A project whose input directory does not exist. *)
Definition no_input_world : World :=
  {| paths := {[ "/w" ]};
     config_file := ConfigJson (config "assets" "backup");
     lock_file := LockMissing; gitignore := None;
     texts := [ config_entry (config "assets" "backup") ] |}.

(** A project whose images are gone but whose lock file is not. *)
Definition no_images_world : World :=
  {| paths := {[ "/w"; "/w/assets" ]};
     config_file := ConfigJson (config "assets" "backup");
     lock_file := LockJson logo_lock; gitignore := None;
     texts := [ ("/w/index.html", "<img src='icons/logo.png'>");
                config_entry (config "assets" "backup") ] |}.

(** A file whose name starts over inside itself. *)
Definition twice : string := "a.png a.png".
Definition thrice : string := "a.png a.png a.png".

(** Two rules; the old path of the short one begins the old and the new
    path of the long one. *)
Definition long_rule : Replacement :=
  {| oldRel := "b.png b.jpg"; newRel := "b.png b.webp" |}.
Definition short_rule : Replacement :=
  {| oldRel := "b.png"; newRel := "b.webp" |}.

(** The rules of the specification's example. *)
Definition nested_rule : Replacement :=
  {| oldRel := "a/b.png"; newRel := "a/b.webp" |}.

(** A backup directory inside the input directory. *)
Definition nested_known : list string :=
  [ "public/a.png"; "public/a.webp";
    "public/backup/a.png"; "public/backup/a.webp" ].

Definition nested_env : Env := env_ok nested_known.

Definition nested_world : World :=
  {| paths := {[ "/w"; "/w/public"; "/w/public/a.png" ]};
     config_file := ConfigJson (config "public" "public/backup");
     lock_file := LockMissing; gitignore := None;
     texts := [ config_entry (config "public" "public/backup") ] |}.

(** The first run on [nested_world], unfolded, and the world it leaves. *)
Definition nested_st : RunState :=
  process_all nested_env "public" "public/backup" webp 80 []
    (state (paths nested_world) []) [ "public/a.png" ].

Definition nested_world_done : World :=
  {| paths := st_fs nested_st;
     config_file := ConfigJson (config "public" "public/backup");
     lock_file := LockJson (st_lockData nested_st);
     gitignore := Some ("public/backup" +:+ newline);
     texts := [ config_entry (config "public" "public/backup") ] |}.

(** The first run on [twin_world], unfolded, and the world it leaves. *)
Definition twin_st : RunState :=
  process_all twin_env "public" "backup" webp 80 []
    (state twin_fs []) twin_known.

Definition twin_world_done : World :=
  {| paths := st_fs twin_st;
     config_file := ConfigJson (config "public" "backup");
     lock_file := LockJson (st_lockData twin_st);
     gitignore := Some ("backup" +:+ newline);
     texts := [ config_entry (config "public" "backup") ] |}.

Definition settings_webp : Settings :=
  {| targetFormat := webp; qualitySetting := small; workingDir := "./" |}.

(** An absolute input directory: the glob lists the images by their
    absolute paths. *)
Definition absolute_known : list string :=
  [ "/w/public/a.png"; "/w/public/a.webp" ].

Definition absolute_env : Env := env_ok absolute_known.

Definition absolute_world : World :=
  {| paths := {[ "/w"; "/w/public"; "/w/public/a.png" ]};
     config_file := ConfigJson (config "/w/public" "backup");
     lock_file := LockMissing; gitignore := None;
     texts := [ config_entry (config "/w/public" "backup") ] |}.

Definition absolute_st : RunState :=
  process_all absolute_env "/w/public" "backup" webp 80 []
    (state (paths absolute_world) []) [ "/w/public/a.png" ].

Definition absolute_world_done : World :=
  {| paths := st_fs absolute_st;
     config_file := ConfigJson (config "/w/public" "backup");
     lock_file := LockJson (st_lockData absolute_st);
     gitignore := Some ("backup" +:+ newline);
     texts := [ config_entry (config "/w/public" "backup") ] |}.

(** A blacklisted image with a lock entry left from an earlier run, whose
    converted image is gone; the configuration file is one of the text
    files of the working directory. *)
Definition listed_known : list string :=
  [ "public/new.png"; "public/new.webp"; "public/old.png";
    "public/old.webp" ].

Definition listed_env : Env := env_ok listed_known.

Definition listed_lock : LockData := [ ("public/old.png", "public/old.webp") ].

Definition listed_world : World :=
  {| paths := {[ "/w"; "/w/public"; "/w/public/new.png";
                 "/w/public/old.png" ]};
     config_file := ConfigJson (config_blacklisting ["public/old.png"]);
     lock_file := LockJson listed_lock; gitignore := None;
     texts := [ config_entry (config_blacklisting ["public/old.png"]) ] |}.

Definition listed_st : RunState :=
  process_all listed_env "public" "backup" webp 80 (Lock.values listed_lock)
    (state (paths listed_world) listed_lock) [ "public/new.png" ].

Definition listed_world_done : World :=
  {| paths := st_fs listed_st;
     config_file := ConfigJson (config_blacklisting ["public/old.webp"]);
     lock_file := LockJson (st_lockData listed_st);
     gitignore := Some ("backup" +:+ newline);
     texts := [ config_entry (config_blacklisting ["public/old.webp"]) ] |}.

(** An image converted by an earlier run, whose original is in the backup
    and no longer under the input directory, next to the image of the
    specification; one page refers to both. *)
Definition stale_known : list string :=
  [ "assets/icons/logo.png"; "assets/icons/logo.webp"; "assets/old.png";
    "assets/old.webp" ].

Definition stale_env : Env := env_ok stale_known.

Definition stale_lock : LockData := [ ("assets/old.png", "assets/old.webp") ].

Definition stale_world : World :=
  {| paths := logo_fs ∪ {[ "/w/assets/old.webp"; "/w/backup";
                           "/w/backup/old.png" ]};
     config_file := ConfigJson (config "assets" "backup");
     lock_file := LockJson stale_lock;
     gitignore := Some ("backup" +:+ newline);
     texts := [ ("/w/index.html",
                 "<img src='old.png'> <img src='icons/logo.png'>");
                config_entry (config "assets" "backup") ] |}.

Definition stale_st : RunState :=
  process_all stale_env "assets" "backup" webp 80 (Lock.values stale_lock)
    (state (paths stale_world) stale_lock)
    [ "assets/icons/logo.png"; "assets/old.webp" ].

Definition stale_table : list Replacement :=
  [ {| oldRel := "old.png"; newRel := "old.webp" |};
    {| oldRel := "assets/old.png"; newRel := "assets/old.webp" |};
    {| oldRel := "icons/logo.png"; newRel := "icons/logo.webp" |};
    {| oldRel := "assets/icons/logo.png";
       newRel := "assets/icons/logo.webp" |} ].

Definition stale_world_done : World :=
  {| paths := st_fs stale_st;
     config_file := ConfigJson (config "assets" "backup");
     lock_file := LockJson (st_lockData stale_st);
     gitignore := Some ("backup" +:+ newline);
     texts := [ ("/w/index.html",
                 "<img src='old.webp'> <img src='icons/logo.webp'>");
                config_entry (config "assets" "backup") ] |}.

End Scenario.

(* ================================================================== *)
(** * Further notions *)
(* ================================================================== *)

(** The entries of the log that count as converted, and as failed. *)
Definition is_Processed (e : Event) : bool :=
  match e with
  | Processed => true
  | _ => false
  end.

Definition is_Failed (e : Event) : bool :=
  match e with
  | Failed _ => true
  | _ => false
  end.

Definition count_events (f : Event -> bool) (log : list (string * Event))
  : nat :=
  length (List.filter (fun ce => f (snd ce)) log).

(** The four spellings under which a line of [.gitignore] names the
    directory. *)
Definition ignore_spellings (outputDir : string) : list string :=
  [ outputDir; ("/" +:+ outputDir)%string; (outputDir +:+ "/")%string;
    ("/" +:+ outputDir +:+ "/")%string ].

(** [.gitignore] lists the directory: one of its lines, trimmed, is one of
    the four spellings. *)
Definition lists_directory (content outputDir : string) : Prop :=
  exists line, In line (Str.split "010"%char content)
               /\ In (trim line) (ignore_spellings outputDir).

(** What [ensureGitIgnore] appends to the content when it writes: the
    directory on a line of its own. *)
Definition gitignore_entry (content outputDir : string) : string :=
  ((if Str.ends_with newline content || String.eqb content ""
    then "" else newline) +:+ outputDir +:+ newline)%string.

(** A name that fits on a line of [.gitignore] as it is: no line feed in
    it, no white space around it. *)
Definition plain_name (s : string) : Prop :=
  ~ In "010"%char (Str.chars s) /\ trim s = s.

(** A settings field of the configuration is set. *)
Definition configured (field : option string) : Prop :=
  Str.truthy field = true.

(** Membership in the sets of paths that the moves build. *)
Ltac paths_solver :=
  repeat (progress (rewrite ?elem_of_union, ?elem_of_difference,
                      ?elem_of_singleton, ?elem_of_list_to_set,
                      ?list_elem_of_In in *));
  intuition congruence.

(** A segment of a normalized path: not empty, not [.] or [..], and
    without separator. *)
Definition no_slash (s : string) : Prop := ~ In "/"%char (Str.chars s).

Definition normal_segment (s : string) : Prop :=
  s <> EmptyString /\ s <> "."%string /\ s <> ".."%string /\ no_slash s.

(** The file name of the converted image. *)
Definition converted_name (fmt : Format) (file : string) : string :=
  (path.basename file (path.extname file) +:+ "." +:+ format_name fmt)%string.

(** An environment in which no file can be moved to [bad]. *)
Definition env_bad_move (known : list string) (bad : string) : Env :=
  {| cwd := "/w"; glob := Scenario.glob_among "/w" known;
     answers := Scenario.no_answers;
     readJSON := Scenario.readJSON_known;
     sharp_ok := fun _ _ _ => true;
     move_ok := fun _ dest => negb (String.eqb dest bad);
     lock_write_ok := true; gitignore_read_ok := true;
     gitignore_write_ok := true;
     text_read_ok := fun _ => true; text_write_ok := fun _ => true |}.

(** The project of the specification with a configuration that sets no
    format, so that the run has to ask for it. *)
Definition asking_world : World :=
  {| paths := Scenario.logo_fs;
     config_file := ConfigJson Scenario.config_asking;
     lock_file := LockMissing; gitignore := None;
     texts := [ Scenario.config_entry Scenario.config_asking ] |}.

(** A text that names the image only inside a longer name. *)
Definition other_text : string := "x-icons/logo.png"%string.

(** Membership in a list that computes to known candidates, case by
    case. *)
Ltac known_candidate H :=
  vm_compute in H;
  repeat (destruct H as [H|H]; [subst|]); try destruct H.

(* ================================================================== *)
(** * The lock store *)
(* ================================================================== *)

Section LockFacts.

Lemma get_set_same (l : LockData) (k v : string) :
  Lock.get (Lock.set l k v) k = Some v.
Proof.
  induction l as [|[k' v'] l IH]; simpl.
  - now rewrite String.eqb_refl.
  - destruct (String.eqb k' k) eqn:E; simpl.
    + now rewrite String.eqb_refl.
    + now rewrite E.
Qed.

Lemma get_set_other (l : LockData) (k v k0 : string) :
  k0 <> k -> Lock.get (Lock.set l k v) k0 = Lock.get l k0.
Proof.
  intros Hne. induction l as [|[k' v'] l IH]; simpl.
  - destruct (String.eqb_spec k k0); congruence.
  - destruct (String.eqb_spec k' k) as [->|Hk]; simpl.
    + destruct (String.eqb_spec k k0); congruence.
    + now rewrite IH.
Qed.

(** An entry under another key stays where it is. *)
Lemma In_set_other (l : LockData) (k v k0 v0 : string) :
  k0 <> k -> In (k0, v0) l -> In (k0, v0) (Lock.set l k v).
Proof.
  intros Hne. induction l as [|[k' v'] l IH]; simpl; [tauto|].
  intros [Heq|Hin].
  - inversion Heq; subst.
    destruct (String.eqb_spec k0 k); [congruence | now left].
  - destruct (String.eqb k' k); simpl; auto.
Qed.

Lemma get_In (l : LockData) (k v : string) :
  Lock.get l k = Some v -> In (k, v) l.
Proof.
  induction l as [|[k' v'] l IH]; simpl; [discriminate|].
  destruct (String.eqb_spec k' k) as [->|Hne].
  - intros H. inversion H. now left.
  - intros H. right. now apply IH.
Qed.

Lemma In_get (l : LockData) (k v : string) :
  List.NoDup (Lock.keys l) -> In (k, v) l -> Lock.get l k = Some v.
Proof.
  induction l as [|[k' v'] l IH]; simpl; [tauto|].
  intros Hnd [Heq|Hin].
  - inversion Heq; subst. now rewrite String.eqb_refl.
  - inversion Hnd as [|? ? Hnotin Hnd']; subst.
    destruct (String.eqb_spec k' k) as [->|Hne]; [|now apply IH].
    exfalso. apply Hnotin. apply (in_map fst) in Hin. exact Hin.
Qed.

Lemma In_set_inv (l : LockData) (k v k0 v0 : string) :
  In (k0, v0) (Lock.set l k v) -> (k0 = k /\ v0 = v) \/ In (k0, v0) l.
Proof.
  induction l as [|[k' v'] l IH]; simpl.
  - intros [H|[]]. inversion H. now left.
  - destruct (String.eqb_spec k' k) as [->|Hne]; simpl.
    + intros [H|H]; [inversion H; now left | right; now right].
    + intros [H|H]; [right; now left|].
      destruct (IH H) as [?|?]; [now left | right; now right].
Qed.

Lemma keys_set_In (l : LockData) (k v k0 : string) :
  In k0 (Lock.keys (Lock.set l k v)) -> k0 = k \/ In k0 (Lock.keys l).
Proof.
  unfold Lock.keys. rewrite in_map_iff. intros ([k1 v1] & Hk & Hin).
  simpl in Hk. subst k1. apply In_set_inv in Hin as [[-> _]|Hin];
    [now left | right].
  apply (in_map fst) in Hin. exact Hin.
Qed.

Lemma NoDup_keys_set (l : LockData) (k v : string) :
  List.NoDup (Lock.keys l) -> List.NoDup (Lock.keys (Lock.set l k v)).
Proof.
  induction l as [|[k' v'] l IH]; simpl; intros Hnd.
  - constructor; [intros []|constructor].
  - inversion Hnd as [|? ? Hnotin Hnd']; subst.
    destruct (String.eqb_spec k' k) as [->|Hne]; simpl.
    + now constructor.
    + constructor; [|now apply IH].
      intros Hin. apply keys_set_In in Hin as [->|Hin]; tauto.
Qed.

Lemma has_value_In (vs : list string) (k : string) :
  Lock.has_value vs k = true <-> In k vs.
Proof.
  unfold Lock.has_value. rewrite existsb_exists. split.
  - intros (x & Hin & Heq). apply String.eqb_eq in Heq. now subst.
  - intros Hin. exists k. split; [assumption | apply String.eqb_refl].
Qed.

Lemma has_value_not_In (vs : list string) (k : string) :
  ~ In k vs -> Lock.has_value vs k = false.
Proof.
  intros Hn. destruct (Lock.has_value vs k) eqn:E; [|reflexivity].
  apply has_value_In in E. contradiction.
Qed.

Lemma truthy_nonempty (t : string) :
  Str.truthy (Some t) = true <-> t <> EmptyString.
Proof. destruct t; simpl; split; congruence. Qed.

End LockFacts.

(* ================================================================== *)
(** * The conversion decision, one candidate at a time *)
(* ================================================================== *)

Section Decision.

Variable env : Env.
Variables (inputDir outputDir : string) (fmt : Format) (q : nat).
Variable lockValues : list string.

Abbreviation body := (process env inputDir outputDir fmt q lockValues).
Abbreviation body_unlocked :=
  (process_unlocked env inputDir outputDir fmt q lockValues).

Lemma addReplacement_app (rs : list Replacement) (o t i : string) :
  addReplacement env rs o t i = rs ++ rules_of env i o t.
Proof.
  unfold rules_of, addReplacement.
  destruct (negb _); simpl; [|reflexivity].
  now rewrite <- app_assoc.
Qed.

Lemma locked_target_valid (st : RunState) (file t : string) :
  valid_lock_entry env st file t ->
  locked_target env st file
  = Some (path.resolve (cwd env) [cwd env; t]).
Proof.
  intros [[Hget Hne] Hex]. unfold locked_target. rewrite Hget.
  apply truthy_nonempty in Hne. rewrite Hne. now rewrite Hex.
Qed.

Lemma locked_target_none (st : RunState) (file : string) :
  (forall t, ~ valid_lock_entry env st file t) ->
  locked_target env st file = None.
Proof.
  intros Hno. unfold locked_target.
  destruct (Lock.get (st_lockData st) file) as [t|] eqn:Hget; [|reflexivity].
  destruct (Str.truthy (Some t)) eqn:Ht; [|reflexivity].
  destruct (pathExists env (st_fs st) _) eqn:Hex; [|reflexivity].
  exfalso. apply (Hno t). split; [split|]; try assumption.
  now apply truthy_nonempty.
Qed.

Lemma locked_target_missing (st : RunState) (file t : string) :
  Lock.get (st_lockData st) file = Some t ->
  pathExists env (st_fs st) (path.resolve (cwd env) [cwd env; t]) = false ->
  locked_target env st file = None.
Proof.
  intros Hget Hex. unfold locked_target. rewrite Hget, Hex.
  now destruct (Str.truthy (Some t)).
Qed.

(** The rules that [addReplacement] pushes: the rule with both paths
    relative to the input directory, then, when the original differs from
    its path relative to the input directory, the rule with the original
    as it is and the target relative to the working directory. *)
Lemma addReplacement_rules (rs : list Replacement) (o t i : string) :
  addReplacement env rs o t i
  = rs ++ {| oldRel := path.relative (cwd env) i o;
             newRel := path.relative (cwd env)
                         (path.resolve (cwd env) [cwd env; i]) t |}
       :: (if String.eqb o (path.relative (cwd env) i o) then []
           else [ {| oldRel := o;
                     newRel := path.relative (cwd env) (cwd env) t |} ]).
Proof.
  unfold addReplacement.
  destruct (String.eqb o _); cbn [negb]; [reflexivity|].
  now rewrite <- app_assoc.
Qed.

(** C2, as the program has it.  A candidate with a non-empty lock entry
    whose target, resolved from the working directory, exists on disk is
    logged as already converted; the rules for the pair (candidate,
    target) are pushed, that is the rule with both paths relative to the
    input directory and, when the candidate differs from its path relative
    to the input directory, the rule with the candidate as it is and the
    target relative to the working directory; and neither the lock data
    nor the file system nor the counters change.  When the target is
    missing, or when the entry is the empty string, which
    [if (lockData.conversions[file])] takes for no entry, the candidate
    goes through the checks for a generated file, an existing backup and
    the conversion, exactly as a candidate without a lock entry does. *)
Theorem C2_lock_entry_decides (st : RunState) (file t : string) :
  Lock.get (st_lockData st) file = Some t ->
  let target := path.resolve (cwd env) [cwd env; t] in
  (t <> EmptyString -> pathExists env (st_fs st) target = true ->
     st_log (body st file) = st_log st ++ [(file, AlreadyConverted)]
     /\ st_replacements (body st file)
        = st_replacements st
          ++ {| oldRel := path.relative (cwd env) inputDir file;
                newRel := path.relative (cwd env)
                            (path.resolve (cwd env) [cwd env; inputDir])
                            target |}
             :: (if String.eqb file (path.relative (cwd env) inputDir file)
                 then []
                 else [ {| oldRel := file;
                           newRel := path.relative (cwd env) (cwd env)
                                       target |} ])
     /\ st_lockData (body st file) = st_lockData st
     /\ st_fs (body st file) = st_fs st
     /\ st_successCount (body st file) = st_successCount st
     /\ st_failCount (body st file) = st_failCount st)
  /\ (t = EmptyString \/ pathExists env (st_fs st) target = false ->
        body st file = body_unlocked st file)
  /\ (forall st0, Lock.get (st_lockData st0) file = None ->
        body st0 file = body_unlocked st0 file).
Proof.
  intros Hget target. split; [|split].
  - intros Hne Hex. unfold process.
    rewrite (locked_target_valid st file t (conj (conj Hget Hne) Hex)).
    cbn [st_log st_replacements st_lockData st_fs st_successCount
         st_failCount].
    repeat split; auto using addReplacement_rules.
  - intros [->|Hex]; unfold process.
    + unfold locked_target. now rewrite Hget.
    + now rewrite (locked_target_missing st file t Hget Hex).
  - intros st0 Hnone. unfold process, locked_target.
    now rewrite Hnone.
Qed.

(** C3. A candidate without a valid lock entry that is not among the lock
    values taken at the start, and whose backup path (the output
    directory followed by the path of the candidate relative to the input
    directory) and final path (the directory of the candidate with the
    name of the candidate, its extension replaced by the target format)
    both exist, is logged as "backup exists": the rules for (candidate,
    final path) are pushed, the file system and the counters are as before
    (no encoding takes place), and the lock data get the entry candidate
    -> final path, relative to the working directory. *)
Theorem C3_backup_exists_repairs_lock (st : RunState) (file : string) :
  (forall t, ~ valid_lock_entry env st file t) ->
  ~ In file lockValues ->
  let backupPath :=
    path.join [outputDir; path.relative (cwd env) inputDir file] in
  let finalPath :=
    path.resolve (cwd env)
      [cwd env; path.dirname file;
       (path.basename file (path.extname file) +:+ "." +:+ format_name fmt)
         %string] in
  pathExists env (st_fs st) backupPath = true ->
  pathExists env (st_fs st) finalPath = true ->
  st_log (body st file) = st_log st ++ [(file, BackupExists)]
  /\ st_replacements (body st file)
     = st_replacements st
       ++ {| oldRel := path.relative (cwd env) inputDir file;
             newRel := path.relative (cwd env)
                         (path.resolve (cwd env) [cwd env; inputDir])
                         finalPath |}
          :: (if String.eqb file (path.relative (cwd env) inputDir file)
              then []
              else [ {| oldRel := file;
                        newRel := path.relative (cwd env) (cwd env)
                                    finalPath |} ])
  /\ st_fs (body st file) = st_fs st
  /\ st_successCount (body st file) = st_successCount st
  /\ st_failCount (body st file) = st_failCount st
  /\ st_lockData (body st file)
     = Lock.set (st_lockData st) file
         (path.relative (cwd env) (cwd env) finalPath)
  /\ Lock.get (st_lockData (body st file)) file
     = Some (path.relative (cwd env) (cwd env) finalPath).
Proof.
  intros Hno Hgen backupPath finalPath Hbackup Hfinal.
  unfold process, process_unlocked.
  rewrite (locked_target_none st file Hno), (has_value_not_In _ _ Hgen).
  change (originalFileDest env inputDir outputDir file) with backupPath.
  change (finalNewPath env fmt file) with finalPath.
  rewrite Hbackup, Hfinal.
  cbn [andb st_log st_replacements st_lockData st_fs st_successCount
       st_failCount].
  repeat split; auto using addReplacement_rules, get_set_same.
Qed.

(** C4, as the program has it.  A candidate without a valid lock entry
    that is among the values the lock data had when they were loaded (the
    set [lockValues] of line 197) is logged as a generated file; no rule
    is pushed, nothing is converted, and the lock data stay as they
    are. *)
Theorem C4_generated_file_skipped (st : RunState) (file : string) :
  (forall t, ~ valid_lock_entry env st file t) ->
  In file lockValues ->
  st_log (body st file) = st_log st ++ [(file, GeneratedFile)]
  /\ st_replacements (body st file) = st_replacements st
  /\ st_fs (body st file) = st_fs st
  /\ st_successCount (body st file) = st_successCount st
  /\ st_failCount (body st file) = st_failCount st
  /\ st_lockData (body st file) = st_lockData st.
Proof.
  intros Hno Hgen. apply has_value_In in Hgen.
  unfold process, process_unlocked.
  rewrite (locked_target_none st file Hno), Hgen. simpl. tauto.
Qed.

(** C5. When one of the three steps of the conversion of a candidate
    classified [ConvertNow] throws, the candidate is logged as failed with
    that step, the failure counter goes up by one and the success counter
    stays, the lock data and the rules are as before, and the loop goes on
    with the remaining candidates. *)
Theorem C5_failed_step_is_contained (st : RunState) (file : string)
    (rest : list string) (step : ExecutorStep) :
  classified_ConvertNow env inputDir outputDir fmt lockValues st file ->
  snd (convert env (st_fs st) fmt q (absoluteFilePath env file)
         (originalFileDest env inputDir outputDir file)
         (finalNewPath env fmt file)) = Some step ->
  st_log (body st file) = st_log st ++ [(file, Failed step)]
  /\ st_failCount (body st file) = S (st_failCount st)
  /\ st_successCount (body st file) = st_successCount st
  /\ st_lockData (body st file) = st_lockData st
  /\ st_replacements (body st file) = st_replacements st
  /\ process_all env inputDir outputDir fmt q lockValues st (file :: rest)
     = process_all env inputDir outputDir fmt q lockValues
         (body st file) rest.
Proof.
  intros (Hno & Hgen & Hskip) Hstep.
  cut (body st file
       = {| st_fs := st_fs (body st file); st_lockData := st_lockData st;
            st_replacements := st_replacements st;
            st_successCount := st_successCount st;
            st_failCount := S (st_failCount st);
            st_log := st_log st ++ [(file, Failed step)] |}).
  { intros Heq. repeat split; try reflexivity; now rewrite Heq. }
  unfold process, process_unlocked.
  rewrite (locked_target_none st file Hno), (has_value_not_In _ _ Hgen).
  destruct (pathExists env (st_fs st) (originalFileDest _ _ _ _)) eqn:Hb;
    destruct (pathExists env (st_fs st) (finalNewPath _ _ _)) eqn:Hf;
    simpl; try (exfalso; apply Hskip; now split).
  all: destruct (convert _ _ _ _ _ _ _) as [fs' [s|]]; simpl in Hstep;
    try discriminate; inversion Hstep; subst; reflexivity.
Qed.

End Decision.

(* ================================================================== *)
(** * Whole runs *)
(* ================================================================== *)

Section Runs.

Variable env : Env.

Lemma ensureGitIgnore_frame (outputDir : string) (w : World) :
  paths (ensureGitIgnore env outputDir w) = paths w
  /\ config_file (ensureGitIgnore env outputDir w) = config_file w
  /\ lock_file (ensureGitIgnore env outputDir w) = lock_file w
  /\ texts (ensureGitIgnore env outputDir w) = texts w.
Proof.
  unfold ensureGitIgnore.
  destruct (gitignore w); [destruct (gitignore_read_ok env)|];
    try (destruct (existsb _ _)); try (destruct (gitignore_write_ok env));
    simpl; tauto.
Qed.

Lemma rebuild_replacements_acc (inputDir : string) (l : LockData)
    (acc : list Replacement) :
  fold_left
    (fun replacements '(originalRelPath, targetRelPath) =>
       addReplacement env replacements originalRelPath
         (path.resolve (cwd env) [cwd env; targetRelPath]) inputDir)
    l acc
  = acc ++ flat_map
             (fun e => rules_of env inputDir (fst e)
                         (path.resolve (cwd env) [cwd env; snd e])) l.
Proof.
  revert acc. induction l as [|[o t] l IH]; intros acc; simpl.
  - now rewrite app_nil_r.
  - rewrite IH, addReplacement_app. now rewrite <- app_assoc.
Qed.

Lemma rebuild_replacements_flat_map (inputDir : string) (l : LockData) :
  rebuild_replacements env inputDir l
  = flat_map (fun e => rules_of env inputDir (fst e)
                         (path.resolve (cwd env) [cwd env; snd e])) l.
Proof. unfold rebuild_replacements. now rewrite rebuild_replacements_acc. Qed.

Section Loop.

Variables (inputDir outputDir : string) (fmt : Format) (q : nat).
Variable lockValues : list string.

Abbreviation body := (process env inputDir outputDir fmt q lockValues).
Abbreviation loop := (process_all env inputDir outputDir fmt q lockValues).

(** Every iteration logs its candidate once and leaves the entries of the
    other keys alone. *)
Lemma process_log (st : RunState) (file : string) :
  exists e, st_log (body st file) = st_log st ++ [(file, e)].
Proof.
  unfold process, process_unlocked.
  destruct (locked_target env st file); [eexists; reflexivity|].
  destruct (Lock.has_value lockValues file); [eexists; reflexivity|].
  destruct (_ && _); [eexists; reflexivity|].
  destruct (convert _ _ _ _ _ _ _) as [fs' [s|]]; eexists; reflexivity.
Qed.

Lemma process_keeps_entry (st : RunState) (file o t : string) :
  o <> file -> In (o, t) (st_lockData st) ->
  In (o, t) (st_lockData (body st file)).
Proof.
  intros Hne Hin. unfold process, process_unlocked.
  destruct (locked_target env st file); [assumption|].
  destruct (Lock.has_value lockValues file); [assumption|].
  destruct (_ && _); [now apply In_set_other|].
  destruct (convert _ _ _ _ _ _ _) as [fs' [s|]]; simpl;
    [assumption | now apply In_set_other].
Qed.

Lemma process_all_log (files : list string) (st : RunState) :
  map fst (st_log (loop st files)) = map fst (st_log st) ++ files.
Proof.
  unfold process_all.
  revert st. induction files as [|f files IH]; intros st; simpl.
  - now rewrite app_nil_r.
  - rewrite IH.
    destruct (process_log st f) as [e ->].
    rewrite map_app. simpl. now rewrite <- app_assoc.
Qed.

Lemma process_all_keeps_entry (files : list string) (st : RunState)
    (o t : string) :
  ~ In o files -> In (o, t) (st_lockData st) ->
  In (o, t) (st_lockData (loop st files)).
Proof.
  unfold process_all.
  revert st. induction files as [|f files IH]; intros st Hn Hin; simpl.
  - assumption.
  - apply IH; [simpl in Hn; tauto|].
    apply process_keeps_entry; [|assumption].
    intros ->. apply Hn. now left.
Qed.

End Loop.

End Runs.

Section Setup.

Variable env : Env.

Lemma parse_format_None (s : string) :
  ~ In s ["png"; "jpeg"; "jpg"; "webp"] -> parse_format s = None.
Proof.
  intros Hn. unfold parse_format.
  repeat match goal with
         | |- context [String.eqb s ?x] =>
             destruct (String.eqb_spec s x) as [->|_];
             [exfalso; apply Hn; simpl; tauto|]
         end.
  reflexivity.
Qed.

Lemma parse_file_size_None (s : string) :
  ~ In s ["small"; "smallest"] -> parse_file_size s = None.
Proof.
  intros Hn. unfold parse_file_size.
  repeat match goal with
         | |- context [String.eqb s ?x] =>
             destruct (String.eqb_spec s x) as [->|_];
             [exfalso; apply Hn; simpl; tauto|]
         end.
  reflexivity.
Qed.

Lemma loadConfig_setup_error (w : World) :
  config_setup_error w -> loadConfig w = None.
Proof.
  unfold config_setup_error, loadConfig.
  destruct (config_file w) as [| |c]; try reflexivity.
  intros [Hi|[Ho|[(s & Hs & Hne & Hbad)|(s & Hs & Hne & Hbad)]]].
  - now rewrite Hi.
  - rewrite Ho. now rewrite orb_true_r.
  - destruct (negb (Str.truthy (input c)) || negb (Str.truthy (output c)));
      [reflexivity|].
    rewrite Hs. apply truthy_nonempty in Hne. rewrite Hne. simpl.
    now rewrite (parse_file_size_None s Hbad).
  - destruct (negb (Str.truthy (input c)) || negb (Str.truthy (output c)));
      [reflexivity|].
    destruct (Str.truthy (file_size c) && _); [reflexivity|].
    rewrite Hs. apply truthy_nonempty in Hne. rewrite Hne. simpl.
    now rewrite (parse_format_None s Hbad).
Qed.

(** C9, as the program has it.  When the configuration file is missing
    or unreadable, or a required field is missing or a field has a value
    that is not accepted, the run exits with status 1 and the world is
    untouched.  When the input directory does not exist, the run exits
    with status 1 after [ensureGitIgnore] has run: paths, configuration,
    lock file and text files are untouched, and [.gitignore] is what
    [ensureGitIgnore] leaves. *)
Theorem C9_setup_errors_exit (w : World) :
  (config_setup_error w -> main env w = (Exit1, w))
  /\ (forall config,
        loadConfig w = Some config ->
        pathExists env (paths w) (default EmptyString (input config))
        = false ->
        main env w
        = (Exit1,
           ensureGitIgnore env (default EmptyString (output config)) w)
        /\ paths (snd (main env w)) = paths w
        /\ config_file (snd (main env w)) = config_file w
        /\ lock_file (snd (main env w)) = lock_file w
        /\ texts (snd (main env w)) = texts w).
Proof.
  split.
  - intros Herr. unfold main. now rewrite (loadConfig_setup_error w Herr).
  - intros config Hcfg Hmissing.
    pose proof (ensureGitIgnore_frame env
                  (default EmptyString (output config)) w)
      as (Hp & Hc & Hl & Ht).
    assert (Hmain : main env w
                    = (Exit1, ensureGitIgnore env
                                (default EmptyString (output config)) w)).
    { unfold main. rewrite Hcfg. cbv zeta. now rewrite Hp, Hmissing. }
    rewrite Hmain. simpl. tauto.
Qed.

(** C10. When the glob finds no image, [main] returns right after it
    with "No images found": no table of replacements is built, and the
    lock file, the text files and the paths on disk are as they were,
    whatever the lock file holds. *)
Theorem C10_no_images_returns_early (w : World) (config : Config) :
  loadConfig w = Some config ->
  pathExists env (paths w) (default EmptyString (input config)) = true ->
  glob env (paths w)
       (path.join [default EmptyString (input config); image_pattern])
       (default [] (blacklists config)) = [] ->
  fst (main env w) = NoImagesFound
  /\ lock_file (snd (main env w)) = lock_file w
  /\ texts (snd (main env w)) = texts w
  /\ paths (snd (main env w)) = paths w
  /\ config_file (snd (main env w)) = config_file w.
Proof.
  intros Hcfg Hdir Hglob.
  pose proof (ensureGitIgnore_frame env
                (default EmptyString (output config)) w)
    as (Hp & Hc & Hl & Ht).
  assert (Hmain : main env w
                  = (NoImagesFound,
                     ensureGitIgnore env
                       (default EmptyString (output config)) w)).
  { unfold main. rewrite Hcfg. cbv zeta. now rewrite Hp, Hdir, Hglob. }
  rewrite Hmain. simpl. tauto.
Qed.

(** What a run that reaches its end has done. *)
Lemma main_Done (w w' : World) (st : RunState) (table : list Replacement)
    (n : option nat) :
  main env w = (Done st table n, w') ->
  exists config settings files,
    loadConfig w = Some config
    /\ determine_settings env config = Some settings
    /\ files = glob env (paths w)
                 (path.join [default EmptyString (input config);
                             image_pattern])
                 (default [] (blacklists config))
    /\ st = process_all env (default EmptyString (input config))
              (default EmptyString (output config))
              (targetFormat settings)
              (qualityValue (qualitySetting settings))
              (Lock.values (loadLockFile w))
              {| st_fs := paths w; st_lockData := loadLockFile w;
                 st_replacements := []; st_successCount := 0;
                 st_failCount := 0; st_log := [] |} files
    /\ table = rebuild_replacements env (default EmptyString (input config))
                 (st_lockData st)
    /\ paths w' = st_fs st
    /\ config_file w'
       = match n with
         | Some _ => config_after env (config_file w) (texts w) (texts w')
         | None => config_file w
         end
    /\ lock_file w'
       = (if lock_write_ok env then LockJson (st_lockData st)
          else lock_file w)
    /\ (forall k, n = Some k ->
          texts w' = fst (Rewriter.updateReferences (text_read_ok env)
                            (text_write_ok env) table (texts w))
          /\ k = snd (Rewriter.updateReferences (text_read_ok env)
                        (text_write_ok env) table (texts w)))
    /\ (n = None -> texts w' = texts w).
Proof.
  unfold main.
  destruct (loadConfig w) as [config|] eqn:Hcfg; [|discriminate].
  cbv zeta.
  pose proof (ensureGitIgnore_frame env
                (default EmptyString (output config)) w)
    as (Hp & Hc & Hl & Ht).
  rewrite Hp.
  destruct (negb (pathExists env (paths w) _)); [discriminate|].
  destruct (glob env (paths w) _ _) as [|f files] eqn:Hglob; [discriminate|].
  destruct (determine_settings env config) as [settings|] eqn:Hset;
    [|discriminate].
  set (st0 := process_all _ _ _ _ _ _ _ _).
  intros Hmain. exists config, settings, (f :: files).
  assert (Hlock : forall w0,
             lock_file (saveLockFile env (st_lockData st0) w0)
             = if lock_write_ok env then LockJson (st_lockData st0)
               else lock_file w0).
  { intros w0. unfold saveLockFile. now destruct (lock_write_ok env). }
  assert (Hsave : forall w0,
             paths (saveLockFile env (st_lockData st0) w0) = paths w0
             /\ texts (saveLockFile env (st_lockData st0) w0) = texts w0).
  { intros w0. unfold saveLockFile. now destruct (lock_write_ok env). }
  assert (Hconf : forall w0,
             config_file (saveLockFile env (st_lockData st0) w0)
             = config_file w0).
  { intros w0. unfold saveLockFile. now destruct (lock_write_ok env). }
  destruct (negb (String.eqb (workingDir settings) EmptyString) && _).
  - destruct (pathExists env _ (workingDir settings)).
    + destruct (Rewriter.updateReferences _ _ _ _) as [texts' k] eqn:Hup.
      inversion Hmain; subst; clear Hmain.
      cbn [paths lock_file config_file texts with_files with_texts fst snd]
        in *.
      rewrite (proj2 (Hsave _)) in Hup.
      cbn [paths lock_file config_file texts with_files with_texts fst snd]
        in *.
      rewrite Ht in Hup. rewrite (proj1 (Hsave _)), Hlock, Hconf.
      cbn [paths lock_file config_file texts with_files with_texts fst snd]
        in *.
      rewrite Hl, Hup, Hc, (proj2 (Hsave _)).
      cbn [paths lock_file config_file texts with_files with_texts fst snd]
        in *.
      rewrite Ht.
      repeat split; intros; try reflexivity; try discriminate; cbn; congruence.
    + inversion Hmain; subst; clear Hmain.
      rewrite (proj1 (Hsave _)), (proj2 (Hsave _)), Hlock, Hconf.
      cbn [paths lock_file config_file texts with_files with_texts fst snd]
        in *.
      rewrite Hl, Ht, Hc.
      repeat split; intros; try reflexivity; try discriminate; congruence.
  - inversion Hmain; subst; clear Hmain.
    rewrite (proj1 (Hsave _)), (proj2 (Hsave _)), Hlock, Hconf.
    cbn [paths lock_file config_file texts with_files with_texts fst snd]
      in *.
    rewrite Hl, Ht, Hc.
    repeat split; intros; try reflexivity; try discriminate; congruence.
Qed.

End Setup.

Section Table.

Variable env : Env.

Lemma rules_of_shape (inputDir o T : string) :
  rules_of env inputDir o T
  = {| oldRel := path.relative (cwd env) inputDir o;
       newRel := path.relative (cwd env)
                   (path.resolve (cwd env) [cwd env; inputDir]) T |}
    :: (if String.eqb o (path.relative (cwd env) inputDir o) then []
        else [ {| oldRel := o;
                  newRel := path.relative (cwd env) (cwd env) T |} ]).
Proof.
  unfold rules_of, addReplacement.
  now destruct (String.eqb o _).
Qed.

End Table.

(* ================================================================== *)
(** * The path matcher *)
(* ================================================================== *)

Section Matcher.

Import Regex.

Lemma parse_literal_cons (c : ascii) (r : string) :
  parse_literal (String c r)
  = if Ascii.eqb c "\"%char then
      match r with
      | EmptyString => None
      | String c' r' =>
          if is_syntax_char c' then option_map (cons c') (parse_literal r')
          else None
      end
    else if is_syntax_char c then None
    else option_map (cons c) (parse_literal r).
Proof.
  destruct c as [[] [] [] [] [] [] [] []]; destruct r; reflexivity.
Qed.

Lemma syntax_char_backslash (c : ascii) :
  is_syntax_char c = false -> Ascii.eqb c "\"%char = false.
Proof.
  intros H. destruct (Ascii.eqb_spec c "\"%char) as [->|]; [|reflexivity].
  discriminate H.
Qed.

(** The escaped text of any string reads back as the string itself: the
    pattern built from it matches the string literally. *)
Lemma parse_literal_escapeRegExp (s : string) :
  parse_literal (escapeRegExp s) = Some (Str.chars s).
Proof.
  induction s as [|c s IH]; [reflexivity|].
  cbn [escapeRegExp Str.chars].
  destruct (is_syntax_char c) eqn:Hc.
  - rewrite parse_literal_cons. cbn [Ascii.eqb Bool.eqb].
    now rewrite Hc, IH.
  - rewrite parse_literal_cons, (syntax_char_backslash c Hc), Hc.
    now rewrite IH.
Qed.

Lemma boundary_regexp_escapeRegExp (old : string) :
  boundary_regexp (escapeRegExp old) = Some (boundary_pattern old).
Proof.
  unfold boundary_regexp. now rewrite parse_literal_escapeRegExp.
Qed.

(** ** Strings *)

Lemma of_chars_chars (s : string) : Str.of_chars (Str.chars s) = s.
Proof. induction s; simpl; congruence. Qed.

Lemma take_drop (n : nat) (s : string) :
  (Str.take n s +:+ Str.drop n s)%string = s.
Proof.
  revert s. induction n as [|n IH]; intros [|c s]; simpl; try reflexivity.
  change (String c (Str.take n s +:+ Str.drop n s)%string = String c s).
  now rewrite IH.
Qed.

Lemma drop_S (n : nat) (s r : string) (c : ascii) :
  Str.drop n s = String c r -> Str.drop (S n) s = r.
Proof.
  revert s. induction n as [|n IH]; intros [|a s]; simpl; try discriminate.
  - congruence.
  - apply IH.
Qed.

Lemma drop_length (n : nat) (s : string) :
  String.length (Str.drop n s) = String.length s - n.
Proof.
  revert s. induction n as [|n IH]; intros [|c s]; simpl; auto.
Qed.

Lemma starts_with_take (p s : string) :
  Str.starts_with p s = true -> Str.take (String.length p) s = p.
Proof.
  revert s. induction p as [|a p IH]; intros [|b s]; simpl;
    try reflexivity; try discriminate.
  intros H. apply andb_true_iff in H as [Hab Hp].
  apply Ascii.eqb_eq in Hab. subst. now rewrite IH.
Qed.

Lemma starts_with_length (p s : string) :
  Str.starts_with p s = true -> String.length p <= String.length s.
Proof.
  revert s. induction p as [|a p IH]; intros [|b s]; simpl;
    try discriminate; try lia.
  intros H. apply andb_true_iff in H as [_ Hp]. apply IH in Hp. lia.
Qed.

Lemma chars_length (s : string) : length (Str.chars s) = String.length s.
Proof. induction s; simpl; congruence. Qed.

Lemma of_chars_length (l : list ascii) :
  String.length (Str.of_chars l) = length l.
Proof. induction l; simpl; congruence. Qed.

Lemma text_before_0 (s : string) : text_before s 0 = [].
Proof. reflexivity. Qed.

Lemma text_before_S (s : string) (j : nat) :
  j < String.length s ->
  exists c, String.get j s = Some c
            /\ text_before s (S j) = c :: text_before s j.
Proof.
  unfold text_before. revert j.
  induction s as [|a s IH]; intros j Hj; simpl in Hj; [lia|].
  destruct j as [|j].
  - exists a. split; reflexivity.
  - destruct (IH j ltac:(lia)) as (c & Hget & Hrev).
    exists c. split; [exact Hget|].
    change (Str.take (S (S j)) (String a s))
      with (String a (Str.take (S j) s)).
    change (Str.take (S j) (String a s)) with (String a (Str.take j s)).
    cbn [Str.chars rev]. now rewrite Hrev.
Qed.

Lemma text_before_cons (s r : string) (c : ascii) (pos : nat) :
  Str.drop pos s = String c r ->
  text_before s (S pos) = c :: text_before s pos.
Proof.
  intros Hdrop.
  assert (Hlt : pos < String.length s).
  { pose proof (drop_length pos s) as Hl. rewrite Hdrop in Hl.
    simpl in Hl. lia. }
  destruct (text_before_S s pos Hlt) as (c' & Hget & Heq).
  rewrite Heq. f_equal.
  clear Heq Hlt. revert s Hdrop Hget.
  induction pos as [|pos IH]; intros [|a s]; simpl; try discriminate.
  - congruence.
  - apply IH.
Qed.

(** ** The scan of a global pattern *)

Section Scan.

Variables (re : pattern) (s : string).

Lemma drop_nonempty_lt (pos : nat) (c : ascii) (r : string) :
  Str.drop pos s = String c r -> pos < String.length s.
Proof.
  intros Hdrop. pose proof (drop_length pos s) as Hl.
  rewrite Hdrop in Hl. simpl in Hl. lia.
Qed.

(** Every match of the scan is a position at which the pattern
    matches. *)
Lemma scan_sound (rest : string) :
  forall pos skip i,
    Str.drop pos s = rest -> pos <= String.length s ->
    In (Replaced i) (scan re (text_before s pos) pos skip rest) ->
    pos + skip <= i <= String.length s
    /\ match_here re (text_before s i) (Str.drop i s) = true.
Proof.
  induction rest as [|c r IH]; intros pos skip i Hdrop Hle Hin.
  - cbn [scan] in Hin.
    destruct (Nat.eqb_spec skip 0) as [->|]; [|destruct Hin].
    cbn [andb] in Hin.
    destruct (match_here re (text_before s pos) EmptyString) eqn:Hm;
      [|destruct Hin].
    destruct Hin as [Heq|[]]. inversion Heq; subst i.
    split; [lia|]. now rewrite Hdrop.
  - pose proof (drop_nonempty_lt pos c r Hdrop) as Hlt.
    pose proof (drop_S pos s r c Hdrop) as HdropS.
    pose proof (text_before_cons s r c pos Hdrop) as Htb.
    cbn [scan] in Hin. rewrite <- Htb in Hin.
    destruct skip as [|k].
    + destruct (match_here re (text_before s pos) (String c r)) eqn:Hm.
      * destruct Hin as [Heq|Hin].
        { inversion Heq; subst i. split; [lia|]. now rewrite Hdrop. }
        destruct (length (literal re)) as [|k].
        { destruct Hin as [Hk|Hin]; [discriminate|].
          destruct (IH (S pos) 0 i HdropS Hlt Hin) as [Hr Hmi].
          split; [lia|assumption]. }
        destruct (IH (S pos) k i HdropS Hlt Hin) as [Hr Hmi].
        split; [lia|assumption].
      * destruct Hin as [Hk|Hin]; [discriminate|].
        destruct (IH (S pos) 0 i HdropS Hlt Hin) as [Hr Hmi].
        split; [lia|assumption].
    + destruct (IH (S pos) k i HdropS Hlt Hin) as [Hr Hmi].
      split; [lia|assumption].
Qed.

(** Every position at which the pattern matches is a match of the scan,
    unless it lies inside an earlier match. *)
Lemma scan_complete (rest : string) :
  forall pos skip i,
    Str.drop pos s = rest ->
    pos + skip <= i <= String.length s ->
    match_here re (text_before s i) (Str.drop i s) = true ->
    In (Replaced i) (scan re (text_before s pos) pos skip rest)
    \/ exists j,
         In (Replaced j) (scan re (text_before s pos) pos skip rest)
         /\ j < i < j + length (literal re).
Proof.
  induction rest as [|c r IH]; intros pos skip i Hdrop Hi Hm.
  - pose proof (drop_length pos s) as Hl. rewrite Hdrop in Hl.
    simpl in Hl. assert (i = pos) by lia. subst i.
    assert (skip = 0) by lia. subst skip.
    left. cbn [scan Nat.eqb andb]. rewrite Hdrop in Hm. rewrite Hm.
    now left.
  - pose proof (drop_nonempty_lt pos c r Hdrop) as Hlt.
    pose proof (drop_S pos s r c Hdrop) as HdropS.
    pose proof (text_before_cons s r c pos Hdrop) as Htb.
    cbn [scan]. rewrite <- Htb.
    destruct skip as [|k].
    + destruct (Nat.eq_dec i pos) as [->|Hne].
      * rewrite Hdrop in Hm. rewrite Hm. left. now left.
      * destruct (match_here re (text_before s pos) (String c r)) eqn:Hp.
        { destruct (length (literal re)) as [|k] eqn:Hn.
          - destruct (IH (S pos) 0 i HdropS ltac:(lia) Hm)
              as [Hin|(j & Hin & Hj)].
            + left. right. now right.
            + right. exists j. split; [right; now right|lia].
          - destruct (le_lt_dec (S pos + k) i) as [Hge|Hlt'].
            + destruct (IH (S pos) k i HdropS ltac:(lia) Hm)
                as [Hin|(j & Hin & Hj)].
              * left. now right.
              * right. exists j. split; [now right|lia].
            + right. exists pos. split; [now left|lia]. }
        destruct (IH (S pos) 0 i HdropS ltac:(lia) Hm)
          as [Hin|(j & Hin & Hj)].
        { left. now right. }
        right. exists j. split; [now right|lia].
    + destruct (IH (S pos) k i HdropS ltac:(lia) Hm)
        as [Hin|(j & Hin & Hj)].
      * now left.
      * right. exists j. split; [assumption|lia].
Qed.

Lemma append_empty (m : string) : (m +:+ EmptyString)%string = m.
Proof.
  induction m as [|c m IH]; [reflexivity|].
  change (String c (m +:+ EmptyString)%string = String c m).
  now rewrite IH.
Qed.

Lemma getSubstitution_whole_match (m b a : string) :
  getSubstitution m b a "$&" = m.
Proof. cbn [getSubstitution]. apply append_empty. Qed.

(** Replacing every match by itself gives the text back: the pieces
    of the scan are the characters outside the matches and the matches
    themselves. *)
Lemma scan_identity (rest : string) :
  forall pos skip,
    Str.drop pos s = rest -> skip <= String.length rest ->
    rendered re s "$&" (scan re (text_before s pos) pos skip rest)
    = Str.drop skip rest.
Proof.
  unfold rendered.
  induction rest as [|c r IH]; intros pos skip Hdrop Hskip.
  - simpl in Hskip. assert (skip = 0) by lia. subst skip.
    cbn [scan Nat.eqb andb Str.drop].
    destruct (match_here re (text_before s pos) EmptyString);
      [|reflexivity].
    cbn [fold_right render]. rewrite getSubstitution_whole_match, Hdrop.
    now destruct (length (literal re)).
  - pose proof (drop_S pos s r c Hdrop) as HdropS.
    pose proof (text_before_cons s r c pos Hdrop) as Htb.
    cbn [scan]. rewrite <- Htb.
    destruct skip as [|k].
    + cbn [Str.drop].
      destruct (match_here re (text_before s pos) (String c r)) eqn:Hm.
      * apply andb_true_iff in Hm as [_ Hlit].
        pose proof (starts_with_length _ _ Hlit) as Hlen.
        cbn [fold_right render].
        rewrite getSubstitution_whole_match, Hdrop.
        destruct (length (literal re)) as [|k] eqn:Hn.
        { cbn [fold_right render Str.take String.append].
          now rewrite (IH (S pos) 0 HdropS ltac:(lia)). }
        assert (Hk : k <= String.length r).
        { rewrite of_chars_length, Hn in Hlen. simpl in Hlen. lia. }
        rewrite (IH (S pos) k HdropS Hk).
        change (String c (Str.take k r +:+ Str.drop k r)%string
                = String c r).
        now rewrite take_drop.
      * cbn [fold_right render String.append].
        now rewrite (IH (S pos) 0 HdropS ltac:(lia)).
    + simpl in Hskip. cbn [Str.drop].
      apply (IH (S pos) k HdropS). lia.
Qed.

(** Where nothing matches, every piece is a copied character. *)
Lemma rendered_without_match (replacement : string) (l : list piece) :
  (forall i, ~ In (Replaced i) l) ->
  rendered re s replacement l = rendered re s "$&" l.
Proof.
  unfold rendered. induction l as [|[c|i] l IH]; intros Hno;
    cbn [fold_right render].
  - reflexivity.
  - rewrite IH; [reflexivity|]. intros i Hi. apply (Hno i). now right.
  - exfalso. apply (Hno i). now left.
Qed.

Lemma match_positions_In (i : nat) :
  In i (match_positions re s) <-> In (Replaced i) (pieces re s).
Proof.
  unfold match_positions. rewrite in_flat_map. split.
  - intros ([c|j] & Hin & Hj); simpl in Hj; [destruct Hj|].
    destruct Hj as [->|[]]. assumption.
  - intros Hin. exists (Replaced i). split; [assumption|now left].
Qed.

Lemma replace_whole_match : replace re s "$&" = s.
Proof.
  exact (scan_identity s 0 0 eq_refl (Nat.le_0_l _)).
Qed.

Lemma replace_without_match (replacement : string) :
  match_positions re s = [] -> replace re s replacement = s.
Proof.
  intros Hnone. rewrite <- replace_whole_match at 2.
  apply (rendered_without_match replacement (pieces re s)). intros i Hi.
  apply match_positions_In in Hi. rewrite Hnone in Hi. destruct Hi.
Qed.

Lemma match_positions_sound (i : nat) :
  In i (match_positions re s) ->
  i <= String.length s
  /\ match_here re (text_before s i) (Str.drop i s) = true.
Proof.
  intros Hin. apply match_positions_In in Hin.
  destruct (scan_sound s 0 0 i eq_refl ltac:(lia) Hin) as [Hr Hm].
  split; [lia|assumption].
Qed.

Lemma match_positions_complete (i : nat) :
  i <= String.length s ->
  match_here re (text_before s i) (Str.drop i s) = true ->
  In i (match_positions re s)
  \/ exists j, In j (match_positions re s)
               /\ j < i < j + length (literal re).
Proof.
  intros Hi Hm.
  destruct (scan_complete s 0 0 i eq_refl ltac:(lia) Hm)
    as [Hin|(j & Hin & Hj)].
  - left. now apply match_positions_In.
  - right. exists j. split; [now apply match_positions_In|assumption].
Qed.

End Scan.

(** ** The boundary rule *)

Lemma lookbehinds_standalone (old s : string) (i : nat) :
  i <= String.length s ->
  forallb (fun cls => negb (behind (rev cls) (text_before s i)))
          (lookbehinds (boundary_pattern old)) = true
  <-> standalone s i.
Proof.
  intros Hi. unfold standalone. destruct i as [|[|j]].
  - cbn. split; [|reflexivity]. intros _. split; intros c H; discriminate H.
  - destruct (text_before_S s 0 ltac:(lia)) as (c & Hget & Htb).
    rewrite Htb. cbn. rewrite Hget.
    rewrite !andb_true_r, andb_false_r, andb_true_r. cbn.
    rewrite negb_true_iff. split.
    + intros Hc. split; [intros c' Hc'; congruence|].
      intros c' _ H. discriminate H.
    + intros [H _]. now apply H.
  - destruct (text_before_S s (S j) ltac:(lia)) as (c & Hget & Htb).
    destruct (text_before_S s j ltac:(lia)) as (c2 & Hget2 & Htb2).
    rewrite Htb, Htb2. cbn [char_before Nat.sub]. rewrite Hget, Hget2.
    cbn. rewrite !andb_true_r. rewrite andb_true_iff, !negb_true_iff.
    split.
    + intros [Hc Hs]. split; [intros c' Hc'; congruence|].
      intros c' Hsl Hc'. inversion Hsl; subst c. inversion Hc'; subst c'.
      cbn in Hs. exact Hs.
    + intros [H1 H2]. split; [now apply H1|].
      unfold is_slash. destruct (Ascii.eqb_spec c "/"%char) as [->|];
        [|reflexivity].
      cbn. now apply H2.
Qed.

Lemma match_here_boundary (old s : string) (i : nat) :
  i <= String.length s ->
  match_here (boundary_pattern old) (text_before s i) (Str.drop i s) = true
  <-> occurs_at old s i /\ standalone s i.
Proof.
  intros Hi. unfold match_here.
  rewrite andb_true_iff, (lookbehinds_standalone old s i Hi).
  cbn [literal boundary_pattern]. rewrite of_chars_chars.
  unfold occurs_at. tauto.
Qed.

Lemma replaced_at_iff (old s : string) (i : nat) :
  replaced_at old s i <-> In i (match_positions (boundary_pattern old) s).
Proof.
  unfold replaced_at. rewrite boundary_regexp_escapeRegExp. split.
  - intros (re & Hre & Hin). now inversion Hre; subst.
  - intros Hin. now exists (boundary_pattern old).
Qed.

Lemma replaced_at_sound (old s : string) (i : nat) :
  replaced_at old s i -> occurs_at old s i /\ standalone s i.
Proof.
  intros H. apply replaced_at_iff in H.
  destruct (match_positions_sound _ s i H) as [Hi Hm].
  now apply match_here_boundary.
Qed.

Lemma replaced_at_complete (old s : string) (i : nat) :
  occurs_at old s i -> standalone s i ->
  replaced_at old s i
  \/ exists j, replaced_at old s j /\ j < i < j + String.length old.
Proof.
  intros Hocc Hst.
  assert (Hi : i <= String.length s) by apply Hocc.
  destruct (match_positions_complete (boundary_pattern old) s i Hi)
    as [Hin|(j & Hin & Hj)].
  - apply match_here_boundary; [assumption|now split].
  - left. now apply replaced_at_iff.
  - right. exists j. split; [now apply replaced_at_iff|].
    cbn [literal boundary_pattern] in Hj. now rewrite chars_length in Hj.
Qed.

Lemma apply_replacement_eq (s : string) (r : Replacement) :
  Rewriter.apply_replacement s r
  = Some (if test (boundary_pattern (oldRel r)) s
          then replace (boundary_pattern (oldRel r)) s (newRel r) else s,
          test (boundary_pattern (oldRel r)) s).
Proof.
  unfold Rewriter.apply_replacement.
  rewrite boundary_regexp_escapeRegExp.
  now destruct (test _ s).
Qed.

Lemma getSubstitution_literal (m b a r : string) :
  no_dollar r -> getSubstitution m b a r = r.
Proof.
  unfold no_dollar. induction r as [|c r IH]; intros Hno; [reflexivity|].
  assert (Hc : c <> "$"%char) by (intros ->; apply Hno; now left).
  assert (Hr : getSubstitution m b a r = r)
    by (apply IH; intros Hin; apply Hno; now right).
  assert (Hstep : getSubstitution m b a (String c r)
                  = String c (getSubstitution m b a r)).
  { destruct c as [[] [] [] [] [] [] [] []]; try reflexivity.
    now contradiction Hc. }
  now rewrite Hstep, Hr.
Qed.

Lemma apply_replacement_unchanged (s : string) (r : Replacement) :
  (forall i, ~ (occurs_at (oldRel r) s i /\ standalone s i)) ->
  Rewriter.apply_replacement s r = Some (s, false).
Proof.
  intros Hno. rewrite apply_replacement_eq. unfold test.
  destruct (match_positions (boundary_pattern (oldRel r)) s) as [|i l] eqn:E;
    [reflexivity|].
  exfalso. apply (Hno i). apply replaced_at_sound, replaced_at_iff.
  rewrite E. now left.
Qed.

(** C7, as the program has it.  For every text and every rule: each
    replaced occurrence of the old path is standalone (not preceded by a
    word character, a hyphen or a period, nor by a slash that follows one
    of these); each standalone occurrence is replaced unless it overlaps
    an occurrence replaced before it, the matches being taken from left
    to right; when no two standalone occurrences overlap, an occurrence is
    replaced if and only if it is standalone; a text without a standalone
    occurrence is left as it is; the characters outside the replaced
    occurrences are copied (replacing each match by itself gives the text
    back); and what a match is replaced by is the new path itself when that
    has no dollar sign. *)
Theorem C7_boundary_safe_rewriting (old new s : string) :
  (forall i, replaced_at old s i -> occurs_at old s i /\ standalone s i)
  /\ (forall i, occurs_at old s i -> standalone s i ->
        replaced_at old s i
        \/ exists j, replaced_at old s j /\ j < i < j + String.length old)
  /\ ((forall i j, occurs_at old s i -> standalone s i ->
                   occurs_at old s j -> standalone s j ->
                   i < j -> i + String.length old <= j) ->
      forall i, occurs_at old s i -> (replaced_at old s i <-> standalone s i))
  /\ ((forall i, ~ (occurs_at old s i /\ standalone s i)) ->
      Rewriter.apply_replacement s {| oldRel := old; newRel := new |}
      = Some (s, false))
  /\ exists re,
       boundary_regexp (escapeRegExp old) = Some re
       /\ literal re = Str.chars old
       /\ replace re s "$&" = s
       /\ (no_dollar new -> forall i, render re s new (Replaced i) = new)
       /\ Rewriter.apply_replacement s {| oldRel := old; newRel := new |}
          = Some (if test re s then replace re s new else s, test re s).
Proof.
  split; [apply replaced_at_sound|].
  split; [apply replaced_at_complete|].
  split; [|split].
  - intros Hapart i Hocc. split; [now intros H; apply replaced_at_sound in H|].
    intros Hst.
    destruct (replaced_at_complete old s i Hocc Hst) as [H|(j & Hj & Hlt)];
      [assumption|].
    apply replaced_at_sound in Hj as [Hoj Hsj].
    pose proof (Hapart j i Hoj Hsj Hocc Hst ltac:(lia)). lia.
  - intros Hno. now apply apply_replacement_unchanged.
  - exists (boundary_pattern old).
    split; [apply boundary_regexp_escapeRegExp|].
    split; [reflexivity|].
    split; [apply replace_whole_match|].
    split; [intros Hnew i; now apply getSubstitution_literal|].
    apply (apply_replacement_eq s {| oldRel := old; newRel := new |}).
Qed.

End Matcher.




(* ================================================================== *)
(** * The reference rewriter *)
(* ================================================================== *)

Section Sorting.

Import Rewriter.

Lemma insert_by_length_perm (r : Replacement) (l : list Replacement) :
  Permutation (r :: l) (insert_by_length r l).
Proof.
  induction l as [|x l IH]; cbn [insert_by_length]; [reflexivity|].
  destruct (_ <? _)%nat; [|reflexivity].
  rewrite perm_swap. now apply perm_skip.
Qed.

Lemma sort_replacements_perm (l : list Replacement) :
  Permutation l (sort_replacements l).
Proof.
  induction l as [|r l IH]; [reflexivity|].
  cbn [sort_replacements fold_right].
  rewrite <- insert_by_length_perm. now apply perm_skip.
Qed.

Lemma insert_by_length_sorted (r : Replacement) (l : list Replacement) :
  StronglySorted longer_first l ->
  StronglySorted longer_first (insert_by_length r l).
Proof.
  induction l as [|x l IH]; intros Hs; cbn [insert_by_length].
  - constructor; constructor.
  - inversion Hs as [|? ? Hl Hx]; subst.
    destruct (Nat.ltb_spec (String.length (oldRel r))
                           (String.length (oldRel x))) as [Hlt|Hge].
    + constructor; [now apply IH|].
      apply (Permutation_Forall (insert_by_length_perm r l)).
      constructor; [unfold longer_first; lia|assumption].
    + constructor; [assumption|].
      constructor; [exact Hge|].
      eapply List.Forall_impl; [|exact Hx].
      unfold longer_first. intros y Hy. lia.
Qed.

Lemma sort_replacements_sorted (l : list Replacement) :
  StronglySorted longer_first (sort_replacements l).
Proof.
  induction l as [|r l IH]; [constructor|].
  cbn [sort_replacements fold_right]. now apply insert_by_length_sorted.
Qed.

Lemma sort_pair (long short : Replacement) :
  String.length (oldRel short) < String.length (oldRel long) ->
  sort_replacements [short; long] = [long; short]
  /\ sort_replacements [long; short] = [long; short].
Proof.
  intros Hlt. unfold sort_replacements.
  cbn [fold_right insert_by_length].
  destruct (Nat.ltb_spec (String.length (oldRel short))
                         (String.length (oldRel long))); [|lia].
  destruct (Nat.ltb_spec (String.length (oldRel long))
                         (String.length (oldRel short))); [lia|].
  split; reflexivity.
Qed.

Lemma rewrite_content_pair (a b : Replacement) (s : string) :
  option_map fst (rewrite_content [a; b] s false)
  = Some (after_rule (after_rule s a) b).
Proof.
  unfold after_rule. cbn [rewrite_content].
  rewrite (apply_replacement_eq s a). cbn [orb].
  rewrite (apply_replacement_eq _ b). reflexivity.
Qed.

End Sorting.

(* ================================================================== *)
(** * Two runs in a row *)
(* ================================================================== *)

Section Steps.

Variable env : Env.
Variables (inputDir outputDir : string) (fmt : Format) (q : nat).
Variable lockValues : list string.

Abbreviation do_step := (process env inputDir outputDir fmt q lockValues).
Abbreviation on_disk := (disk_path env).
Abbreviation temp_of := (temp_path env).
Abbreviation backup_of := (backup_path env inputDir outputDir).
Abbreviation final_of := (final_path env fmt).
Abbreviation value_of := (lock_value env fmt).

Lemma pathExists_iff (fs : gset string) (p : string) :
  pathExists env fs p = true <-> path.resolve (cwd env) [p] ∈ fs.
Proof. unfold pathExists. apply bool_decide_eq_true. Qed.

Lemma valid_lock_entry_iff (st : RunState) (c t : string) :
  valid_lock_entry env st c t
  <-> Lock.get (st_lockData st) c = Some t /\ t <> EmptyString
      /\ on_disk t ∈ st_fs st.
Proof.
  unfold valid_lock_entry, Lock.valid_entry. rewrite pathExists_iff.
  unfold disk_path. tauto.
Qed.

(** The files after a conversion in which no step throws. *)
Lemma convert_done (fs fs' : gset string) (c : string) :
  convert env fs fmt q (absoluteFilePath env c)
          (originalFileDest env inputDir outputDir c) (finalNewPath env fmt c)
  = (fs', None) ->
  fs' = ((fs ∪ {[ temp_of c ]}) ∖ {[ on_disk c ]} ∪ {[ backup_of c ]}
         ∪ list_to_set (path.ancestors (backup_of c)))
        ∖ {[ temp_of c ]} ∪ {[ final_of c ]}
        ∪ list_to_set (path.ancestors (final_of c)).
Proof.
  unfold convert, sharp_toFile, fs_move.
  destruct (bool_decide _ && sharp_ok env _ _ _); [|discriminate].
  destruct (bool_decide _ && negb _ && move_ok env _ _); [|discriminate].
  destruct (bool_decide _ && negb _ && move_ok env _ _); [|discriminate].
  intros H. inversion H. reflexivity.
Qed.

Lemma locked_target_inv (st : RunState) (c abs : string) :
  locked_target env st c = Some abs ->
  exists t, valid_lock_entry env st c t.
Proof.
  unfold locked_target.
  destruct (Lock.get (st_lockData st) c) as [t|] eqn:Hget; [|discriminate].
  destruct (Str.truthy (Some t)) eqn:Ht; [|discriminate].
  destruct (pathExists env (st_fs st) _) eqn:Hex; [|discriminate].
  intros _. exists t. split; [split|]; try assumption.
  now apply truthy_nonempty.
Qed.

Lemma locked_target_None_inv (st : RunState) (c : string) :
  locked_target env st c = None -> forall t, ~ valid_lock_entry env st c t.
Proof.
  intros Hnone t Hv.
  now rewrite (locked_target_valid env st c t Hv) in Hnone.
Qed.

Lemma process_step (st : RunState) (c : string) :
  step_result env inputDir outputDir fmt lockValues st c (do_step st c).
Proof.
  unfold process.
  destruct (locked_target env st c) as [abs|] eqn:Hlt.
  { destruct (locked_target_inv st c abs Hlt) as [t Ht].
    eapply step_already; [exact Ht|reflexivity..]. }
  pose proof (locked_target_None_inv st c Hlt) as Hno.
  unfold process_unlocked.
  destruct (Lock.has_value lockValues c) eqn:Hgen.
  { apply has_value_In in Hgen. now apply step_generated. }
  assert (Hngen : ~ In c lockValues).
  { intros Hin. apply has_value_In in Hin. congruence. }
  destruct (pathExists env (st_fs st) (originalFileDest _ _ _ c)) eqn:Hb;
    [destruct (pathExists env (st_fs st) (finalNewPath _ _ c)) eqn:Hf|];
    cbn [andb].
  { apply pathExists_iff in Hb, Hf. now apply step_backup. }
  all: destruct (convert _ _ _ _ _ _ _) as [fs' [step|]] eqn:Hconv;
    [eapply step_failed; [assumption|assumption|reflexivity..]
    |apply step_processed; try assumption; try reflexivity;
     now apply convert_done].
Qed.

End Steps.

Section FirstRun.

Variable env : Env.
Variables (inputDir outputDir : string) (fmt : Format) (q : nat).
Variables (lock0 : LockData) (fs0 fs1 : gset string) (D1 D2 : list string).

Hypothesis sane : sane_names env fmt lock0 fs0 fs1 D1 D2.

Abbreviation step1 :=
  (process env inputDir outputDir fmt q (Lock.values lock0)).
Abbreviation result1 :=
  (step_result env inputDir outputDir fmt (Lock.values lock0)).
Abbreviation inv1 := (run_inv env inputDir outputDir fmt lock0 fs0 D1).
Abbreviation relied := (relied_on env fmt lock0 D1).

(** A path on which a lock entry relies stays on disk through an iteration
    that does not fail. *)
Lemma relied_stable (st st' : RunState) (c p : string) :
  result1 st c st' -> st_failCount st' = st_failCount st -> In c D1 ->
  relied p -> p ∈ st_fs st -> p ∈ st_fs st'.
Proof.
  intros Hstep Hnf Hc Hrel Hp.
  destruct Hstep as [t Hv Hfs Hlk Hlog Hsc Hfc
                    |Hno Hgen Hfs Hlk Hlog Hsc Hfc
                    |Hno Hngen Hb Hf Hfs Hlk Hlog Hsc Hfc
                    |Hno Hngen Hfs Hlk Hlog Hsc Hfc
                    |step Hno Hngen Hlog Hfc];
    try (rewrite Hfs; assumption); [|lia].
  assert (Htemp : p <> temp_path env c).
  { destruct Hrel as [(t & Ht & ->)|(k & Hk & ->)].
    - now apply (temp_fresh_lock _ _ _ _ _ _ _ sane).
    - now apply (temp_fresh_final _ _ _ _ _ _ _ sane). }
  rewrite Hfs. destruct (decide (p = disk_path env c)) as [Heq|Hne].
  - destruct Hrel as [(t & Ht & Hpt)|(k & Hk & Hpk)].
    + exfalso. apply Hngen.
      rewrite <- (lock_named _ _ _ _ _ _ _ sane t c Ht Hc); [assumption|].
      congruence.
    + assert (Hfix : final_path env fmt c = disk_path env c).
      { apply (final_fixed _ _ _ _ _ _ _ sane c k Hc Hk). congruence. }
      rewrite Heq, <- Hfix. clear. paths_solver.
  - clear - Hp Hne Htemp. paths_solver.
Qed.

(** What an iteration that does not fail leaves behind. *)
Lemma step_summary (st st' : RunState) (c : string) :
  result1 st c st' -> st_failCount st' = st_failCount st -> In c D1 ->
  exists e,
    st_log st' = st_log st ++ [(c, e)]
    /\ (st_lockData st' = st_lockData st
        \/ (st_lockData st' = Lock.set (st_lockData st) c (lock_value env fmt c)
            /\ forall t, ~ valid_lock_entry env st c t))
    /\ entry_ok env fmt lock0 st' c e
    /\ (forall p, p ∈ st_fs st' ->
          p ∈ st_fs st
          \/ (e = Processed /\ p = final_path env fmt c)
          \/ p = backup_path env inputDir outputDir c
          \/ In p (made_dirs env inputDir outputDir fmt c)).
Proof.
  intros Hstep Hnf Hc.
  pose proof (value_nonempty _ _ _ _ _ _ _ sane c Hc) as Hvne.
  pose proof (value_target _ _ _ _ _ _ _ sane c Hc) as Hvt.
  destruct Hstep as [t Hv Hfs Hlk Hlog Hsc Hfc
                    |Hno Hgen Hfs Hlk Hlog Hsc Hfc
                    |Hno Hngen Hb Hf Hfs Hlk Hlog Hsc Hfc
                    |Hno Hngen Hfs Hlk Hlog Hsc Hfc
                    |step Hno Hngen Hlog Hfc]; [| | | |lia].
  - exists AlreadyConverted. split; [assumption|]. split; [now left|].
    split; [|intros p Hp; left; now rewrite <- Hfs].
    exists t. apply valid_lock_entry_iff.
    apply valid_lock_entry_iff in Hv. now rewrite Hlk, Hfs.
  - exists GeneratedFile. split; [assumption|]. split; [now left|].
    split; [exact Hgen|intros p Hp; left; now rewrite <- Hfs].
  - exists BackupExists. split; [assumption|].
    split; [right; now split|].
    split; [|intros p Hp; left; now rewrite <- Hfs].
    exists (lock_value env fmt c). apply valid_lock_entry_iff.
    rewrite Hlk, Hfs, get_set_same, Hvt. auto.
  - exists Processed. split; [assumption|].
    split; [right; now split|]. split.
    + apply valid_lock_entry_iff.
      rewrite Hlk, Hfs, get_set_same, Hvt.
      split; [reflexivity|]. split; [assumption|]. clear. paths_solver.
    + intros p Hp. rewrite Hfs in Hp. unfold made_dirs.
      rewrite in_app_iff. clear - Hp. paths_solver.
Qed.

Lemma entry_ok_stable (st st' : RunState) (c c' : string) (e : Event) :
  inv1 st -> result1 st c st' -> st_failCount st' = st_failCount st ->
  In c D1 -> c' <> c ->
  (st_lockData st' = st_lockData st
   \/ st_lockData st' = Lock.set (st_lockData st) c (lock_value env fmt c)) ->
  entry_ok env fmt lock0 st c' e -> entry_ok env fmt lock0 st' c' e.
Proof.
  intros Hinv Hstep Hnf Hc Hne Hlk Hok.
  assert (Hvalid : forall t, valid_lock_entry env st c' t ->
                             valid_lock_entry env st' c' t).
  { intros t Hv. apply valid_lock_entry_iff in Hv as (Hget & Htne & Hon).
    apply valid_lock_entry_iff. split; [|split; [assumption|]].
    - destruct Hlk as [->| ->]; [assumption|].
      now rewrite get_set_other.
    - apply (relied_stable st st' c _ Hstep Hnf Hc); [|assumption].
      destruct (inv_values _ _ _ _ _ _ _ _ Hinv c' t (get_In _ _ _ Hget))
        as [Ht|(k' & Hk' & ->)].
      + left. now exists t.
      + right. exists k'. split; [assumption|].
        apply (value_target _ _ _ _ _ _ _ sane k' Hk'). }
  destruct e; cbn [entry_ok] in *; try assumption.
  - destruct Hok as [t Ht]. exists t. now apply Hvalid.
  - destruct Hok as [t Ht]. exists t. now apply Hvalid.
  - now apply Hvalid.
Qed.

(** The invariant holds after an iteration that does not fail, for a
    candidate that has not been processed before. *)
Lemma step_keeps_inv (st : RunState) (c : string) :
  inv1 st -> In c D1 -> ~ In c (map fst (st_log st)) ->
  st_failCount (step1 st c) = st_failCount st ->
  inv1 (step1 st c).
Proof.
  intros Hinv Hc Hnew Hnf.
  pose proof (process_step env inputDir outputDir fmt q (Lock.values lock0)
                st c) as Hstep.
  destruct (step_summary st _ c Hstep Hnf Hc)
    as (e & Hlog & Hlk & Hentry & Hfiles).
  assert (Hlk' : st_lockData (step1 st c) = st_lockData st
                 \/ st_lockData (step1 st c)
                    = Lock.set (st_lockData st) c (lock_value env fmt c))
    by (destruct Hlk as [?|[? _]]; auto).
  split.
  - destruct Hlk' as [->| ->]; [apply Hinv|].
    apply NoDup_keys_set, Hinv.
  - intros k t Hin. destruct Hlk' as [Heq|Heq]; rewrite Heq in Hin.
    + now apply (inv_values _ _ _ _ _ _ _ _ Hinv k t).
    + apply In_set_inv in Hin as [[-> ->]|Hin].
      * right. now exists c.
      * now apply (inv_values _ _ _ _ _ _ _ _ Hinv k t).
  - intros k c' Hin Hc'.
    pose proof (inv_kept _ _ _ _ _ _ _ _ Hinv k c' Hin Hc') as Hkept.
    destruct Hlk as [->|[-> Hno]]; [assumption|].
    destruct (String.eqb_spec k c) as [->|Hne]; [|now apply In_set_other].
    exfalso. apply (Hno c'). apply valid_lock_entry_iff.
    split; [apply In_get; [apply Hinv|assumption]|].
    split; [now apply (d1_nonempty _ _ _ _ _ _ _ sane)|].
    apply (inv_generated _ _ _ _ _ _ _ _ Hinv); [|assumption].
    apply (in_map snd) in Hin. exact Hin.
  - intros c' Hval Hc'.
    apply (relied_stable st _ c _ Hstep Hnf Hc).
    + left. now exists c'.
    + now apply (inv_generated _ _ _ _ _ _ _ _ Hinv).
  - intros c' e' Hin. rewrite Hlog in Hin.
    apply in_app_iff in Hin as [Hold|[Heq|[]]].
    + apply (entry_ok_stable st _ c c' e' Hinv Hstep Hnf Hc); try assumption.
      * intros ->. apply Hnew. apply (in_map fst) in Hold. exact Hold.
      * now apply (inv_log _ _ _ _ _ _ _ _ Hinv).
    + inversion Heq; subst. assumption.
  - intros p Hp. rewrite Hlog.
    destruct (Hfiles p Hp) as [Hold|[[-> ->]|[->|Hdir]]].
    + destruct (inv_files _ _ _ _ _ _ _ _ Hinv p Hold)
        as [H0|[(k & Hk & ->)|(k & Hk & Hb)]].
      * now left.
      * right. left. exists k. split; [|reflexivity].
        apply in_app_iff. now left.
      * right. right. now exists k.
    + right. left. exists c. split; [|reflexivity].
      apply in_app_iff. right. now left.
    + right. right. exists c. split; [assumption|now left].
    + right. right. exists c. split; [assumption|now right].
Qed.

Lemma failCount_step (st : RunState) (c : string) :
  st_failCount st <= st_failCount (step1 st c).
Proof.
  destruct (process_step env inputDir outputDir fmt q (Lock.values lock0)
              st c)
    as [t Hv Hfs Hlk Hlog Hsc Hfc
       |Hno Hgen Hfs Hlk Hlog Hsc Hfc
       |Hno Hngen Hb Hf Hfs Hlk Hlog Hsc Hfc
       |Hno Hngen Hfs Hlk Hlog Hsc Hfc
       |step Hno Hngen Hlog Hfc]; lia.
Qed.

Lemma failCount_loop (l : list string) (st : RunState) :
  st_failCount st
  <= st_failCount (process_all env inputDir outputDir fmt q
                     (Lock.values lock0) st l).
Proof.
  unfold process_all. revert st.
  induction l as [|c l IH]; intros st; cbn [fold_left]; [lia|].
  pose proof (failCount_step st c). pose proof (IH (step1 st c)). lia.
Qed.

(** The invariant holds after the loop of a run without failures. *)
Lemma loop_keeps_inv (l : list string) :
  forall st,
    inv1 st -> (forall c, In c l -> In c D1) -> List.NoDup l ->
    (forall c, In c l -> ~ In c (map fst (st_log st))) ->
    st_failCount (process_all env inputDir outputDir fmt q
                    (Lock.values lock0) st l) = st_failCount st ->
    inv1 (process_all env inputDir outputDir fmt q (Lock.values lock0) st l).
Proof.
  induction l as [|c l IH]; intros st Hinv Hsub Hnd Hnew Hnf; [assumption|].
  change (process_all env inputDir outputDir fmt q (Lock.values lock0) st
            (c :: l))
    with (process_all env inputDir outputDir fmt q (Lock.values lock0)
            (step1 st c) l) in *.
  pose proof (failCount_step st c) as H1.
  pose proof (failCount_loop l (step1 st c)) as H2.
  inversion Hnd as [|? ? Hnotin Hnd']; subst.
  apply IH.
  - apply step_keeps_inv; try assumption.
    + apply Hsub. now left.
    + apply Hnew. now left.
    + lia.
  - intros c' Hc'. apply Hsub. now right.
  - assumption.
  - intros c' Hc' Hin.
    destruct (process_log env inputDir outputDir fmt q (Lock.values lock0)
                st c) as [e He].
    rewrite He, map_app, in_app_iff in Hin. destruct Hin as [Hin|[<-|[]]].
    + apply (Hnew c'); [now right|assumption].
    + contradiction.
  - lia.
Qed.

Lemma initial_inv :
  inv1 {| st_fs := fs0; st_lockData := lock0; st_replacements := [];
          st_successCount := 0; st_failCount := 0; st_log := [] |}.
Proof.
  split; cbn [st_fs st_lockData st_log].
  - apply sane.
  - intros k t Hin. left. apply (in_map snd) in Hin. exact Hin.
  - auto.
  - intros c _ Hc. now apply (d1_exist _ _ _ _ _ _ _ sane).
  - intros c e [].
  - intros p Hp. now left.
Qed.

(** After a first run without failures every candidate of the second run
    has a lock entry whose target exists, or is a value of the lock data;
    and a candidate that the first run converted has the entry that the
    first run wrote. *)
Lemma first_run_covers (st1 : RunState) :
  st1 = process_all env inputDir outputDir fmt q (Lock.values lock0)
          {| st_fs := fs0; st_lockData := lock0; st_replacements := [];
             st_successCount := 0; st_failCount := 0; st_log := [] |} D1 ->
  st_failCount st1 = 0 -> st_fs st1 = fs1 ->
  backups_not_rediscovered env inputDir outputDir fmt D1 D2 ->
  (forall c, In c D2 ->
             (exists t, valid_lock_entry env st1 c t)
             \/ In c (Lock.values (st_lockData st1)))
  /\ (forall c, In (c, Processed) (st_log st1) ->
                valid_lock_entry env st1 c (lock_value env fmt c)).
Proof.
  intros Hst Hnf Hfs Hnb.
  assert (Hinv : inv1 st1).
  { rewrite Hst. apply loop_keeps_inv.
    - apply initial_inv.
    - auto.
    - apply sane.
    - intros c _ [].
    - rewrite <- Hst. exact Hnf. }
  assert (Hkeys : map fst (st_log st1) = D1).
  { rewrite Hst, process_all_log. reflexivity. }
  split.
  - intros c Hc.
    pose proof (d2_exist _ _ _ _ _ _ _ sane c Hc) as Hex.
    rewrite <- Hfs in Hex.
    destruct (inv_files _ _ _ _ _ _ _ _ Hinv _ Hex)
      as [H0|[(k & Hk & Hpk)|(k & Hk & Hb)]].
    + pose proof (d2_old _ _ _ _ _ _ _ sane c Hc H0) as Hc1.
      rewrite <- Hkeys in Hc1. apply in_map_iff in Hc1 as ([c' e] & Heq & Hin).
      simpl in Heq. subst c'.
      pose proof (inv_log _ _ _ _ _ _ _ _ Hinv c e Hin) as Hok.
      destruct e; cbn [entry_ok] in Hok.
      * now left.
      * right.
        apply in_map_iff in Hok as ([k0 c'] & Heq & Hin0). simpl in Heq.
        subst c'.
        assert (HcD : In c D1).
        { rewrite <- Hkeys. apply (in_map fst) in Hin. exact Hin. }
        pose proof (inv_kept _ _ _ _ _ _ _ _ Hinv k0 c Hin0 HcD) as Hkept.
        apply (in_map snd) in Hkept. exact Hkept.
      * now left.
      * left. now exists (lock_value env fmt c).
      * destruct Hok.
    + right.
      assert (HkD : In k D1).
      { rewrite <- Hkeys. apply (in_map fst) in Hk. exact Hk. }
      rewrite (d2_named _ _ _ _ _ _ _ sane c k Hc HkD Hpk).
      pose proof (inv_log _ _ _ _ _ _ _ _ Hinv k Processed Hk) as Hok.
      cbn [entry_ok] in Hok. destruct Hok as [[Hget _] _].
      apply get_In in Hget. apply (in_map snd) in Hget. exact Hget.
    + exfalso. destruct (Hnb c k Hc Hk) as [Hnb1 Hnb2]. tauto.
  - intros c Hc. exact (inv_log _ _ _ _ _ _ _ _ Hinv c Processed Hc).
Qed.

End FirstRun.

Section SecondRun.

Variable env : Env.
Variables (inputDir outputDir : string) (fmt : Format) (q : nat).
Variables (lockValues : list string) (fs : gset string) (lock : LockData).

Abbreviation step2 := (process env inputDir outputDir fmt q lockValues).

(** A loop over candidates that all have a lock entry with an existing
    target or are among the lock values leaves files and lock data alone,
    converts nothing and logs only skips. *)
Lemma loop_of_skips (l : list string) :
  forall st,
    st_fs st = fs -> st_lockData st = lock ->
    (forall c, In c l ->
               (exists t, valid_lock_entry env st c t) \/ In c lockValues) ->
    let st' := process_all env inputDir outputDir fmt q lockValues st l in
    st_fs st' = fs /\ st_lockData st' = lock
    /\ st_successCount st' = st_successCount st
    /\ st_failCount st' = st_failCount st
    /\ forall c e,
         In (c, e) (st_log st') ->
         In (c, e) (st_log st)
         \/ e = AlreadyConverted
         \/ (e = GeneratedFile /\ forall t, ~ valid_lock_entry env st c t).
Proof.
  induction l as [|c l IH]; intros st Hfs Hlk Hcov; cbv zeta.
  { repeat split; auto. }
  change (process_all env inputDir outputDir fmt q lockValues st (c :: l))
    with (process_all env inputDir outputDir fmt q lockValues (step2 st c) l).
  assert (Hsame : forall st' c' t,
             st_fs st' = fs -> st_lockData st' = lock ->
             valid_lock_entry env st c' t <-> valid_lock_entry env st' c' t).
  { intros st' c' t Hfs' Hlk'. rewrite !valid_lock_entry_iff.
    now rewrite Hfs, Hlk, Hfs', Hlk'. }
  assert (Hstep : st_fs (step2 st c) = fs /\ st_lockData (step2 st c) = lock
                  /\ st_successCount (step2 st c) = st_successCount st
                  /\ st_failCount (step2 st c) = st_failCount st
                  /\ (st_log (step2 st c) = st_log st ++ [(c, AlreadyConverted)]
                      \/ (st_log (step2 st c)
                          = st_log st ++ [(c, GeneratedFile)]
                          /\ forall t, ~ valid_lock_entry env st c t))).
  { destruct (process_step env inputDir outputDir fmt q lockValues st c)
      as [t Hv Hfs' Hlk' Hlog Hsc Hfc
         |Hno Hgen Hfs' Hlk' Hlog Hsc Hfc
         |Hno Hngen Hb Hf Hfs' Hlk' Hlog Hsc Hfc
         |Hno Hngen Hfs' Hlk' Hlog Hsc Hfc
         |step Hno Hngen Hlog Hfc].
    - repeat split; try congruence. now left.
    - repeat split; try congruence. right. now split.
    - exfalso. destruct (Hcov c ltac:(now left)) as [[t Ht]|Hin];
        [now apply (Hno t)|contradiction].
    - exfalso. destruct (Hcov c ltac:(now left)) as [[t Ht]|Hin];
        [now apply (Hno t)|contradiction].
    - exfalso. destruct (Hcov c ltac:(now left)) as [[t Ht]|Hin];
        [now apply (Hno t)|contradiction]. }
  destruct Hstep as (Hfs' & Hlk' & Hsc & Hfc & Hlog).
  destruct (IH (step2 st c) Hfs' Hlk') as (H1 & H2 & H3 & H4 & H5).
  { intros c' Hc'. destruct (Hcov c' ltac:(now right)) as [[t Ht]|Hin].
    - left. exists t. now apply (Hsame (step2 st c) c' t Hfs' Hlk').
    - now right. }
  repeat split; try congruence.
  intros c' e Hin. destruct (H5 c' e Hin) as [Hold|[->|[-> Hno]]].
  - destruct Hlog as [Hlog|[Hlog Hno]]; rewrite Hlog in Hold;
      apply in_app_iff in Hold as [Hold|[Heq|[]]]; auto;
      inversion Heq; subst; auto.
  - auto.
  - right. right. split; [reflexivity|].
    intros t Ht. apply (Hno t). now apply (Hsame (step2 st c) c' t Hfs' Hlk').
Qed.

(** A run that does not reach its end leaves the paths and the lock file
    alone. *)
Lemma main_early (w w' : World) (o : Outcome) :
  main env w = (o, w') ->
  (forall st table n, o <> Done st table n) ->
  paths w' = paths w /\ lock_file w' = lock_file w.
Proof.
  unfold main.
  destruct (loadConfig w) as [config|].
  2:{ intros H _. inversion H. now subst. }
  cbv zeta.
  pose proof (ensureGitIgnore_frame env
                (default EmptyString (output config)) w)
    as (Hp & Hc & Hl & Ht).
  destruct (negb (pathExists env _ _)).
  { intros H _. inversion H. now subst. }
  destruct (glob env _ _ _) as [|f files].
  { intros H _. inversion H. now subst. }
  destruct (determine_settings env config) as [settings|].
  2:{ intros H _. inversion H. now subst. }
  intros H Hnot. exfalso.
  destruct (negb _ && _); [destruct (pathExists env _ _);
                           [destruct (Rewriter.updateReferences _ _ _ _)|]|];
    inversion H; subst; eapply Hnot; reflexivity.
Qed.

Lemma loadConfig_same (w w' : World) :
  config_file w' = config_file w -> loadConfig w' = loadConfig w.
Proof. unfold loadConfig. now intros ->. Qed.

End SecondRun.

Section Idempotence.

Variable env : Env.

(** C1, as the program has it.  Let a first run reach its end with no
    failed candidate and write the lock file, and let a second run start on
    the world that the first one left.  If the second run discovers no
    backup and no directory made by the first run (the output directory is
    out of reach of the glob), and names are sane (see [sane_names]), then
    the second run converts nothing: every candidate is skipped, as already
    converted or as a generated file; a candidate that the first run
    converted and that is discovered again is skipped as already converted;
    and the paths on disk and the lock file are as the first run left
    them. *)
Theorem C1_second_run_converts_nothing (w0 w1 : World) (st1 : RunState)
    (table1 : list Replacement) (n1 : option nat) (config : Config)
    (settings : Settings) :
  main env w0 = (Done st1 table1 n1, w1) ->
  loadConfig w0 = Some config ->
  determine_settings env config = Some settings ->
  st_failCount st1 = 0 ->
  lock_write_ok env = true ->
  config_file w1 = config_file w0 ->
  let inputDir := default EmptyString (input config) in
  let outputDir := default EmptyString (output config) in
  let fmt := targetFormat settings in
  let candidates w :=
    glob env (paths w) (path.join [inputDir; image_pattern])
         (default [] (blacklists config)) in
  sane_names env fmt (loadLockFile w0) (paths w0) (paths w1)
             (candidates w0) (candidates w1) ->
  backups_not_rediscovered env inputDir outputDir fmt
                           (candidates w0) (candidates w1) ->
  run_conversions (fst (main env w1)) = 0
  /\ (forall c e, In (c, e) (run_log (fst (main env w1))) ->
                  e = AlreadyConverted \/ e = GeneratedFile)
  /\ (forall c e, In (c, Processed) (st_log st1) ->
                  In (c, e) (run_log (fst (main env w1))) ->
                  e = AlreadyConverted)
  /\ paths (snd (main env w1)) = paths w1
  /\ lock_file (snd (main env w1)) = lock_file w1.
Proof.
  intros Hmain Hcfg Hset Hnf Hwrite Hconf inputDir outputDir fmt candidates
         Hsane Hnb.
  destruct (main_Done env w0 w1 st1 table1 n1 Hmain)
    as (config' & settings' & files & Hcfg' & Hset' & Hfiles & Hst & _
        & Hpaths & _ & Hlock & _).
  rewrite Hcfg in Hcfg'. inversion Hcfg'; subst config'. clear Hcfg'.
  rewrite Hset in Hset'. inversion Hset'; subst settings'. clear Hset'.
  rewrite Hwrite in Hlock.
  assert (Hfiles1 : files = candidates w0) by exact Hfiles.
  rewrite Hfiles1 in Hst.
  destruct (first_run_covers env inputDir outputDir fmt
              (qualityValue (qualitySetting settings)) (loadLockFile w0)
              (paths w0) (paths w1) (candidates w0) (candidates w1) Hsane st1
              Hst Hnf (eq_sym Hpaths) Hnb) as [Hcov Hconv].
  assert (Hcfg1 : loadConfig w1 = Some config).
  { now rewrite (loadConfig_same w0 w1 Hconf). }
  assert (Hlock1 : loadLockFile w1 = st_lockData st1).
  { unfold loadLockFile. now rewrite Hlock. }
  destruct (main env w1) as [o w2] eqn:Hmain2. cbn [fst snd].
  destruct o as [| | |st2 table2 n2].
  1-3: destruct (main_early env w1 w2 _ Hmain2) as [Hp2 Hl2];
    [discriminate|]; cbn [run_conversions run_log];
    split; [reflexivity|]; split; [intros c e []|];
    split; [intros c e _ []|]; split; assumption.
  destruct (main_Done env w1 w2 st2 table2 n2 Hmain2)
    as (config' & settings' & files2 & Hcfg' & Hset' & Hfiles2 & Hst2 & _
        & Hpaths2 & _ & Hlock2 & _).
  rewrite Hcfg1 in Hcfg'. inversion Hcfg'; subst config'. clear Hcfg'.
  rewrite Hset in Hset'. inversion Hset'; subst settings'. clear Hset'.
  rewrite Hwrite in Hlock2.
  assert (Hfiles2' : files2 = candidates w1) by exact Hfiles2.
  rewrite Hfiles2', Hlock1, Hpaths in Hst2.
  set (init := {| st_fs := st_fs st1; st_lockData := st_lockData st1;
                  st_replacements := []; st_successCount := 0;
                  st_failCount := 0; st_log := [] |}) in Hst2.
  assert (Hinit : forall c t, valid_lock_entry env st1 c t
                              <-> valid_lock_entry env init c t).
  { intros c t. rewrite !valid_lock_entry_iff. reflexivity. }
  destruct (loop_of_skips env inputDir outputDir fmt
              (qualityValue (qualitySetting settings))
              (Lock.values (st_lockData st1)) (st_fs st1) (st_lockData st1)
              (candidates w1) init eq_refl eq_refl)
    as (Hfs2 & Hlk2 & Hsc2 & Hfc2 & Hlog2).
  { intros c Hc. destruct (Hcov c Hc) as [[t Ht]|Hin].
    - left. exists t. now apply Hinit.
    - now right. }
  subst inputDir outputDir fmt.
  rewrite <- Hst2 in Hfs2, Hlk2, Hsc2, Hfc2, Hlog2.
  cbn [run_conversions run_log].
  split; [exact Hsc2|]. split; [|split; [|split]].
  - intros c e Hin. destruct (Hlog2 c e Hin) as [[]|[->|[-> _]]]; auto.
  - intros c e Hp Hin. destruct (Hlog2 c e Hin) as [[]|[->|[-> Hno]]]; auto.
    exfalso.
    apply (Hno (lock_value env (targetFormat settings) c)).
    apply Hinit. now apply Hconv.
  - now rewrite Hpaths2, Hfs2.
  - now rewrite Hlock2, Hlk2, Hlock.
Qed.

End Idempotence.

(* ================================================================== *)
(** * What a run persists, and what it asks *)
(* ================================================================== *)

Section Persistence.

Variable env : Env.

(** X1. What a run that reaches its end saves is what the next run
    loads: the lock data after the loop when the write succeeds, failed
    candidates or not, and the lock data it loaded itself when the write
    throws. *)
Theorem saved_lock_is_loaded_next (w w' : World) (st : RunState)
    (table : list Replacement) (n : option nat) :
  main env w = (Done st table n, w') ->
  loadLockFile w'
  = (if lock_write_ok env then st_lockData st else loadLockFile w).
Proof.
  intros H.
  destruct (main_Done env _ _ _ _ _ H)
    as (c & s & f & _ & _ & _ & _ & _ & _ & _ & Hl & _).
  unfold loadLockFile. rewrite Hl. now destruct (lock_write_ok env).
Qed.

Lemma parse_file_size_Some (s : string) :
  In s ["small"; "smallest"] -> exists q, parse_file_size s = Some q.
Proof.
  intros [<-|[<-|[]]]; vm_compute; eauto.
Qed.

Lemma parse_format_Some (s : string) :
  In s ["png"; "jpeg"; "jpg"; "webp"] -> exists f, parse_format s = Some f.
Proof.
  intros [<-|[<-|[<-|[<-|[]]]]]; vm_compute; eauto.
Qed.

Lemma parse_format_name (s : string) (f : Format) :
  parse_format s = Some f -> format_name f = s.
Proof.
  unfold parse_format.
  repeat match goal with
         | |- context [String.eqb s ?x] =>
             destruct (String.eqb_spec s x) as [->|_]; [now intros [= <-]|]
         end.
  discriminate.
Qed.

Lemma optional_field_invalid {A} (parse : string -> option A)
    (accepted : list string) (o : option string) :
  (forall s, In s accepted -> exists a, parse s = Some a) ->
  Str.truthy o && negb (is_Some_and_parses parse o) = true ->
  exists s, o = Some s /\ s <> EmptyString /\ ~ In s accepted.
Proof.
  intros Hacc H. destruct o as [s|]; [|discriminate].
  apply andb_true_iff in H as [Ht Hp]. exists s.
  split; [reflexivity|]. split; [now apply truthy_nonempty|].
  intros Hin. destruct (Hacc s Hin) as [a Ha].
  simpl in Hp. now rewrite Ha in Hp.
Qed.

(** X2. [loadConfig] exits exactly on a setup error of the configuration;
    otherwise it returns the configuration as it was read, with a
    non-empty input and output directory and with its optional fields, if
    set, among the accepted values. *)
Theorem loadConfig_rejects_exactly_setup_errors (w : World) :
  (loadConfig w = None <-> config_setup_error w)
  /\ (forall c, loadConfig w = Some c ->
        config_file w = ConfigJson c
        /\ input c <> None /\ input c <> Some EmptyString
        /\ output c <> None /\ output c <> Some EmptyString
        /\ (forall s, file_size c = Some s -> s <> EmptyString ->
                      In s ["small"; "smallest"])
        /\ (forall s, preferred_type c = Some s -> s <> EmptyString ->
                      In s ["png"; "jpeg"; "jpg"; "webp"])).
Proof.
  split.
  - split; [|apply loadConfig_setup_error].
    unfold loadConfig, config_setup_error.
    destruct (config_file w) as [| |c]; trivial.
    destruct (Str.truthy (input c)); [|now left].
    destruct (Str.truthy (output c)); [|now right; left].
    cbn [negb orb].
    destruct (Str.truthy (file_size c)
              && negb (is_Some_and_parses parse_file_size (file_size c)))
      eqn:Hq.
    { intros _. right; right; left.
      apply (optional_field_invalid parse_file_size);
        [apply parse_file_size_Some|exact Hq]. }
    destruct (Str.truthy (preferred_type c)
              && negb (is_Some_and_parses parse_format (preferred_type c)))
      eqn:Hf; [|discriminate].
    intros _. right; right; right.
    apply (optional_field_invalid parse_format);
      [apply parse_format_Some|exact Hf].
  - intros c. unfold loadConfig.
    destruct (config_file w) as [| |c0]; try discriminate.
    destruct (input c0) as [[|a i]|] eqn:Hi; try discriminate.
    destruct (output c0) as [[|b o]|] eqn:Ho; try discriminate.
    cbn [Str.truthy negb orb].
    destruct (Str.truthy (file_size c0)
              && negb (is_Some_and_parses parse_file_size (file_size c0)))
      eqn:Hq; [discriminate|].
    destruct (Str.truthy (preferred_type c0)
              && negb (is_Some_and_parses parse_format (preferred_type c0)))
      eqn:Hf; [discriminate|].
    intros [= <-]. rewrite Hi, Ho.
    split; [reflexivity|]. repeat (split; [discriminate|]).
    split.
    + intros s Hs Hne. rewrite Hs in Hq.
      destruct s as [|x s']; [contradiction|]. cbn [Str.truthy andb] in Hq.
      apply negb_false_iff in Hq. simpl in Hq.
      destruct (parse_file_size (String x s')) eqn:Hp; [|discriminate].
      destruct (in_dec string_dec (String x s') ["small"; "smallest"])
        as [Hin|Hin]; [exact Hin|].
      now rewrite (parse_file_size_None _ Hin) in Hp.
    + intros s Hs Hne. rewrite Hs in Hf.
      destruct s as [|x s']; [contradiction|]. cbn [Str.truthy andb] in Hf.
      apply negb_false_iff in Hf. simpl in Hf.
      destruct (parse_format (String x s')) eqn:Hp; [|discriminate].
      destruct (in_dec string_dec (String x s') ["png"; "jpeg"; "jpg"; "webp"])
        as [Hin|Hin]; [exact Hin|].
      now rewrite (parse_format_None _ Hin) in Hp.
Qed.

Lemma loadConfig_fields (w : World) (c : Config) :
  loadConfig w = Some c ->
  (configured (file_size c) ->
   exists q, file_size c ≫= parse_file_size = Some q)
  /\ (configured (preferred_type c) ->
      exists f, preferred_type c ≫= parse_format = Some f).
Proof.
  unfold loadConfig, configured.
  destruct (config_file w) as [| |c0]; try discriminate.
  destruct (negb (Str.truthy (input c0)) || negb (Str.truthy (output c0)));
    [discriminate|].
  destruct (Str.truthy (file_size c0)
            && negb (is_Some_and_parses parse_file_size (file_size c0)))
    eqn:Hq; [discriminate|].
  destruct (Str.truthy (preferred_type c0)
            && negb (is_Some_and_parses parse_format (preferred_type c0)))
    eqn:Hf; [discriminate|].
  intros [= <-]. split; intros Ht.
  - rewrite Ht in Hq. apply negb_false_iff in Hq.
    destruct (file_size c0) as [s|]; [|discriminate]. simpl in *.
    destruct (parse_file_size s); [eauto|discriminate].
  - rewrite Ht in Hf. apply negb_false_iff in Hf.
    destruct (preferred_type c0) as [s|]; [|discriminate]. simpl in *.
    destruct (parse_format s); [eauto|discriminate].
Qed.

(** X3. The settings of a run: a field set in an accepted configuration
    is used and the answer to its question is not looked at; a field that
    is not set takes the answer; and the run is cancelled exactly when some
    field is neither set nor answered. *)
Theorem settings_from_config_then_answers (w : World) (config : Config) :
  loadConfig w = Some config ->
  (determine_settings env config = None
   <-> (~ configured (preferred_type config)
        /\ format (answers env) = None)
       \/ (~ configured (file_size config)
           /\ quality (answers env) = None)
       \/ (~ configured (working_directory config)
           /\ answer_working_directory (answers env) = None))
  /\ (forall s,
        determine_settings env config = Some s ->
        (if Str.truthy (preferred_type config)
         then preferred_type config = Some (format_name (targetFormat s))
         else format (answers env) = Some (targetFormat s))
        /\ (if Str.truthy (file_size config)
            then file_size config ≫= parse_file_size
                 = Some (qualitySetting s)
            else quality (answers env) = Some (qualitySetting s))
        /\ (if Str.truthy (working_directory config)
            then working_directory config = Some (workingDir s)
            else answer_working_directory (answers env)
                 = Some (workingDir s))).
Proof.
  intros Hc. destruct (loadConfig_fields _ _ Hc) as [Hq Hf].
  unfold configured in *. unfold determine_settings.
  destruct (Str.truthy (preferred_type config)) eqn:Tf;
    destruct (Str.truthy (file_size config)) eqn:Tq;
    destruct (Str.truthy (working_directory config)) eqn:Td;
    try (destruct (Hf eq_refl) as [f Ef]; rewrite Ef);
    try (destruct (Hq eq_refl) as [q Eq]; rewrite Eq);
    try (destruct (working_directory config) as [d|] eqn:Ed;
         [|discriminate Td]);
    cbn [from_option];
    destruct (format (answers env)) as [af|];
    destruct (quality (answers env)) as [aq|];
    destruct (answer_working_directory (answers env)) as [ad|];
    (split;
     [ split; [try discriminate; intros _|]; intuition congruence
     | intros s; try discriminate; intros [= <-]; cbn;
       repeat split; try reflexivity;
       destruct (preferred_type config) as [x|]; try discriminate;
       simpl in Ef; now rewrite (parse_format_name _ _ Ef) ]).
Qed.

End Persistence.

(* ================================================================== *)
(** * What the loop over the candidates does to files, lock and counters *)
(* ================================================================== *)

Section Candidates.

Variable env : Env.
Variables (inputDir outputDir : string) (fmt : Format) (q : nat).
Variable lockValues : list string.

Abbreviation visit := (process env inputDir outputDir fmt q lockValues).
Abbreviation visit_all :=
  (process_all env inputDir outputDir fmt q lockValues).
Abbreviation converted c :=
  (convert env _ fmt q (absoluteFilePath env c)
     (originalFileDest env inputDir outputDir c) (finalNewPath env fmt c)).

Lemma keys_set_mono (l : LockData) (k v k0 : string) :
  In k0 (Lock.keys l) -> In k0 (Lock.keys (Lock.set l k v)).
Proof.
  induction l as [|[k' v'] l IH]; [intros []|].
  cbn [Lock.set]. destruct (String.eqb_spec k' k) as [->|Hne].
  - intros H. exact H.
  - intros [H|H]; [now left|right; now apply IH].
Qed.

(** A conversion removes no other path than the original and the
    temporary file. *)
Lemma convert_keeps_others (fs : gset string) (A B F p : string) :
  p ∈ fs -> p <> path.resolve (cwd env) [A] ->
  p <> path.resolve (cwd env) [(A +:+ ".temp")%string] ->
  p ∈ fst (convert env fs fmt q A B F).
Proof.
  intros Hp HA HT. unfold convert, sharp_toFile, fs_move.
  destruct (bool_decide _ && sharp_ok env _ _ _); [|exact Hp].
  destruct (bool_decide _ && negb _ && move_ok env _ _);
    [|cbn [fst]; paths_solver].
  destruct (bool_decide _ && negb _ && move_ok env _ _);
    cbn [fst]; paths_solver.
Qed.

(** The conversion behind a [Processed] entry of the log. *)
Lemma processed_inv (st : RunState) (c : string) :
  st_log (visit st c) = st_log st ++ [(c, Processed)] ->
  exists fs',
    convert env (st_fs st) fmt q (absoluteFilePath env c)
      (originalFileDest env inputDir outputDir c) (finalNewPath env fmt c)
    = (fs', None)
    /\ st_fs (visit st c) = fs'
    /\ st_lockData (visit st c)
       = Lock.set (st_lockData st) c (lock_value env fmt c)
    /\ st_successCount (visit st c) = S (st_successCount st)
    /\ st_failCount (visit st c) = st_failCount st.
Proof.
  unfold process, process_unlocked, logged.
  destruct (locked_target env st c);
    [cbn [st_log]; intros H; apply app_inv_head in H; discriminate|].
  destruct (Lock.has_value lockValues c);
    [cbn [st_log]; intros H; apply app_inv_head in H; discriminate|].
  destruct (pathExists env (st_fs st) _ && pathExists env (st_fs st) _);
    [cbn [st_log]; intros H; apply app_inv_head in H; discriminate|].
  destruct (convert _ _ _ _ _ _ _) as [fs' [step|]];
    cbn [st_log]; intros H; apply app_inv_head in H; [discriminate|].
  exists fs'. repeat split.
Qed.

(** The conversion behind a [Failed] entry of the log. *)
Lemma failed_inv (st : RunState) (c : string) (step : ExecutorStep) :
  st_log (visit st c) = st_log st ++ [(c, Failed step)] ->
  exists fs',
    convert env (st_fs st) fmt q (absoluteFilePath env c)
      (originalFileDest env inputDir outputDir c) (finalNewPath env fmt c)
    = (fs', Some step)
    /\ st_fs (visit st c) = fs'
    /\ st_lockData (visit st c) = st_lockData st.
Proof.
  unfold process, process_unlocked, logged.
  destruct (locked_target env st c);
    [cbn [st_log]; intros H; apply app_inv_head in H; discriminate|].
  destruct (Lock.has_value lockValues c);
    [cbn [st_log]; intros H; apply app_inv_head in H; discriminate|].
  destruct (pathExists env (st_fs st) _ && pathExists env (st_fs st) _);
    [cbn [st_log]; intros H; apply app_inv_head in H; discriminate|].
  destruct (convert _ _ _ _ _ _ _) as [fs' [step'|]];
    cbn [st_log]; intros H; apply app_inv_head in H; [|discriminate].
  injection H as <-. exists fs'. repeat split.
Qed.

(** The three steps of a conversion that went through. *)
Lemma convert_done_steps (fs fs' : gset string) (c : string) :
  convert env fs fmt q (absoluteFilePath env c)
    (originalFileDest env inputDir outputDir c) (finalNewPath env fmt c)
  = (fs', None) ->
  disk_path env c ∈ fs
  /\ sharp_ok env (absoluteFilePath env c) fmt q = true
  /\ disk_path env c <> backup_path env inputDir outputDir c
  /\ temp_path env c <> final_path env fmt c.
Proof.
  unfold convert, sharp_toFile, fs_move.
  destruct (bool_decide _ && sharp_ok env _ _ _) eqn:H1; [|discriminate].
  apply andb_true_iff in H1 as [H1 H1'].
  destruct (bool_decide _ && negb _ && move_ok env _ _) eqn:H2;
    [|discriminate].
  apply andb_true_iff in H2 as [H2 _]. apply andb_true_iff in H2 as [_ H2].
  destruct (bool_decide _ && negb _ && move_ok env _ _) eqn:H3;
    [|discriminate].
  apply andb_true_iff in H3 as [H3 _]. apply andb_true_iff in H3 as [_ H3].
  intros _.
  apply bool_decide_eq_true in H1.
  apply negb_true_iff in H2, H3.
  apply String.eqb_neq in H2, H3.
  repeat split; assumption.
Qed.

(** X4. After a candidate is logged as processed, the converted image is
    at its final path and the lock maps the candidate to it; the original
    is in the backup (unless the backup is the path of the temporary file)
    and no longer at its own path (unless that is the final path, as for an
    image that already has the target extension, or a directory the moves
    made); and every path that is new is the final path, the backup or a
    directory above them. *)
Theorem processed_candidate_is_converted_and_backed_up (st : RunState)
    (c : string) :
  st_log (visit st c) = st_log st ++ [(c, Processed)] ->
  let fs' := st_fs (visit st c) in
  disk_path env c ∈ st_fs st
  /\ final_path env fmt c ∈ fs'
  /\ Lock.get (st_lockData (visit st c)) c = Some (lock_value env fmt c)
  /\ (backup_path env inputDir outputDir c <> temp_path env c ->
      backup_path env inputDir outputDir c ∈ fs')
  /\ (disk_path env c ∈ fs' ->
      disk_path env c = final_path env fmt c
      \/ In (disk_path env c) (made_dirs env inputDir outputDir fmt c))
  /\ (forall p, p ∈ fs' ->
        p ∈ st_fs st \/ p = final_path env fmt c
        \/ p = backup_path env inputDir outputDir c
        \/ In p (made_dirs env inputDir outputDir fmt c)).
Proof.
  intros H fs'. subst fs'.
  destruct (processed_inv st c H) as (fs' & Hc & -> & -> & _).
  destruct (convert_done_steps _ _ _ Hc) as (Hd & _ & Hdb & Htf).
  apply convert_done in Hc. subst fs'. unfold made_dirs.
  split; [exact Hd|]. split; [paths_solver|].
  split; [apply get_set_same|].
  split; [paths_solver|].
  split.
  - intros Hin. rewrite in_app_iff. paths_solver.
  - intros p Hp. rewrite in_app_iff. paths_solver.
Qed.

(** X5. A candidate whose conversion fails: when the encoding or the move
    of the original throws, every path that existed is still there and
    only the temporary file may have been added; when the last rename
    throws, the original is in the backup and no longer at its own path
    (unless that is a directory above the backup), and the lock has no new
    entry for it. *)
Theorem failed_candidate_leaves (st : RunState) (c : string)
    (step : ExecutorStep) :
  st_log (visit st c) = st_log st ++ [(c, Failed step)] ->
  let fs' := st_fs (visit st c) in
  st_lockData (visit st c) = st_lockData st
  /\ match step with
     | Encode => fs' = st_fs st
     | MoveOriginal => fs' = st_fs st ∪ {[ temp_path env c ]}
     | RenameTemp =>
         backup_path env inputDir outputDir c ∈ fs'
         /\ (disk_path env c ∈ fs' ->
             In (disk_path env c)
                (path.ancestors (backup_path env inputDir outputDir c)))
     end.
Proof.
  intros H fs'. subst fs'.
  destruct (failed_inv st c step H) as (fs' & Hc & -> & ->).
  split; [reflexivity|].
  revert Hc. unfold convert, sharp_toFile, fs_move.
  destruct (bool_decide _ && sharp_ok env _ _ _) eqn:H1;
    [|now intros [= <- <-]].
  destruct (bool_decide _ && negb _ && move_ok env _ _) eqn:H2;
    [|now intros [= <- <-]].
  apply andb_true_iff in H2 as [H2 _]. apply andb_true_iff in H2 as [_ H2].
  apply negb_true_iff, String.eqb_neq in H2.
  destruct (bool_decide _ && negb _ && move_ok env _ _) eqn:H3;
    [discriminate|].
  intros [= <- <-].
  change (path.resolve (cwd env) [absoluteFilePath env c])
    with (disk_path env c) in *.
  change (path.resolve (cwd env) [originalFileDest env inputDir outputDir c])
    with (backup_path env inputDir outputDir c) in *.
  split; [paths_solver|].
  intros Hin. paths_solver.
Qed.

(** One iteration removes no path, except the original and the temporary
    file of a candidate that it tries to convert. *)
Lemma process_keeps_others (st : RunState) (c p : string) :
  p ∈ st_fs st ->
  exists e,
    st_log (visit st c) = st_log st ++ [(c, e)]
    /\ (p ∈ st_fs (visit st c)
        \/ (disposition e = ConvertNow
            /\ (p = disk_path env c \/ p = temp_path env c))).
Proof.
  intros Hp. unfold process, process_unlocked, logged.
  destruct (locked_target env st c); [eexists; split; [reflexivity|now left]|].
  destruct (Lock.has_value lockValues c);
    [eexists; split; [reflexivity|now left]|].
  destruct (pathExists env (st_fs st) _ && pathExists env (st_fs st) _);
    [eexists; split; [reflexivity|now left]|].
  destruct (decide (p = disk_path env c)) as [Hd|Hd].
  { destruct (convert _ _ _ _ _ _ _) as [fs' [step|]];
      eexists; (split; [reflexivity|right; split; [reflexivity|now left]]). }
  destruct (decide (p = temp_path env c)) as [Ht|Ht].
  { destruct (convert _ _ _ _ _ _ _) as [fs' [step|]];
      eexists; (split; [reflexivity|right; split; [reflexivity|now right]]). }
  pose proof (convert_keeps_others (st_fs st) (absoluteFilePath env c)
                (originalFileDest env inputDir outputDir c)
                (finalNewPath env fmt c) p Hp Hd Ht) as Hk.
  destruct (convert _ _ _ _ _ _ _) as [fs' [step|]];
    eexists; (split; [reflexivity|left; exact Hk]).
Qed.

Lemma process_all_log_mono (l : list string) :
  forall st ce, In ce (st_log st) -> In ce (st_log (visit_all st l)).
Proof.
  induction l as [|c l IH]; intros st ce Hin; [exact Hin|].
  cbn [process_all fold_left]. apply IH.
  destruct (process_log env inputDir outputDir fmt q lockValues st c)
    as [e ->].
  apply in_or_app. now left.
Qed.

Lemma process_all_keeps_others (l : list string) :
  forall st p,
    p ∈ st_fs st ->
    p ∈ st_fs (visit_all st l)
    \/ exists c e,
         In (c, e) (st_log (visit_all st l))
         /\ disposition e = ConvertNow
         /\ (p = disk_path env c \/ p = temp_path env c).
Proof.
  induction l as [|c l IH]; intros st p Hp; [now left|].
  cbn [process_all fold_left].
  destruct (process_keeps_others st c p Hp) as (e & Hlog & [Hk|[He Hpc]]).
  - now apply IH.
  - right. exists c, e. split; [|now split].
    apply process_all_log_mono. rewrite Hlog. apply in_or_app.
    right. now left.
Qed.

(** What one iteration does to the lock data. *)
Lemma process_lock (st : RunState) (c : string) :
  st_lockData (visit st c) = st_lockData st
  \/ (st_lockData (visit st c)
      = Lock.set (st_lockData st) c (lock_value env fmt c)
      /\ exists e, (e = Processed \/ e = BackupExists)
                   /\ st_log (visit st c) = st_log st ++ [(c, e)]).
Proof.
  destruct (process_step env inputDir outputDir fmt q lockValues st c)
    as [t _ _ Hl _ _ _|_ _ _ Hl _ _ _|_ _ _ _ _ Hl Hlog _ _
        |_ _ _ Hl Hlog _ _|step _ _ Hlog _].
  - now left.
  - now left.
  - right. split; [exact Hl|]. exists BackupExists. split; [now right|exact Hlog].
  - right. split; [exact Hl|]. exists Processed. split; [now left|exact Hlog].
  - left. destruct (failed_inv st c step Hlog) as (fs' & _ & _ & Hl).
    exact Hl.
Qed.

(** X6. The loop never drops a key of the lock, and an entry of the lock
    after the loop is either an entry from before or maps a candidate that
    was logged as processed or as having a backup to its final path,
    relative to the working directory. *)
Theorem loop_only_adds_final_paths_to_lock (files : list string) :
  forall st,
    (forall k, In k (Lock.keys (st_lockData st)) ->
               In k (Lock.keys (st_lockData (visit_all st files))))
    /\ (forall k v,
          In (k, v) (st_lockData (visit_all st files)) ->
          In (k, v) (st_lockData st)
          \/ (In k files /\ v = lock_value env fmt k
              /\ (In (k, Processed) (st_log (visit_all st files))
                  \/ In (k, BackupExists) (st_log (visit_all st files))))).
Proof.
  induction files as [|c l IH]; intros st.
  { split; [intros k Hk; exact Hk|intros k v Hin; now left]. }
  cbn [process_all fold_left].
  destruct (IH (visit st c)) as [IHk IHv]. split.
  - intros k Hk. apply IHk.
    destruct (process_lock st c) as [->|[-> _]]; [exact Hk|].
    now apply keys_set_mono.
  - intros k v Hin.
    destruct (IHv k v Hin) as [Hold|(Hkl & Hv & Hlog)].
    + destruct (process_lock st c) as [Hl|[Hl (e & He & Hlog)]].
      * left. now rewrite <- Hl.
      * rewrite Hl in Hold.
        destruct (In_set_inv _ _ _ _ _ Hold) as [[-> ->]|Hin0];
          [right|now left].
        split; [now left|]. split; [reflexivity|].
        assert (Hce : In (c, e) (st_log (visit_all (visit st c) l))).
        { apply process_all_log_mono. rewrite Hlog.
          apply in_or_app. right. now left. }
        destruct He as [->| ->]; [now left|now right].
    + right. split; [now right|]. now split.
Qed.

Lemma count_events_app (f : Event -> bool) (a b : list (string * Event)) :
  count_events f (a ++ b) = count_events f a + count_events f b.
Proof.
  unfold count_events. now rewrite List.filter_app, length_app.
Qed.

Lemma count_events_one (f : Event -> bool) (c : string) (e : Event) :
  count_events f [(c, e)] = if f e then 1 else 0.
Proof. unfold count_events. cbn. now destruct (f e). Qed.

(** What one iteration does to the counters. *)
Lemma process_counters (st : RunState) (c : string) :
  exists e,
    st_log (visit st c) = st_log st ++ [(c, e)]
    /\ st_successCount (visit st c)
       = st_successCount st + (if is_Processed e then 1 else 0)
    /\ st_failCount (visit st c)
       = st_failCount st + (if is_Failed e then 1 else 0).
Proof.
  unfold process, process_unlocked, logged.
  destruct (locked_target env st c);
    [eexists; split; [reflexivity|cbn; lia]|].
  destruct (Lock.has_value lockValues c);
    [eexists; split; [reflexivity|cbn; lia]|].
  destruct (pathExists env (st_fs st) _ && pathExists env (st_fs st) _);
    [eexists; split; [reflexivity|cbn; lia]|].
  destruct (convert _ _ _ _ _ _ _) as [fs' [step|]];
    eexists; (split; [reflexivity|cbn; lia]).
Qed.

Lemma process_all_counters (l : list string) :
  forall st,
    exists new,
      st_log (visit_all st l) = st_log st ++ new
      /\ map fst new = l
      /\ st_successCount (visit_all st l)
         = st_successCount st + count_events is_Processed new
      /\ st_failCount (visit_all st l)
         = st_failCount st + count_events is_Failed new.
Proof.
  induction l as [|c l IH]; intros st.
  { exists []. cbn. rewrite app_nil_r. repeat split; lia. }
  change (visit_all st (c :: l)) with (visit_all (visit st c) l).
  destruct (process_counters st c) as (e & Hlog & Hs & Hf).
  destruct (IH (visit st c)) as (new & Hlog' & Hmap & Hs' & Hf').
  exists ((c, e) :: new).
  rewrite Hlog', Hlog, <- app_assoc. split; [reflexivity|].
  split; [cbn; now rewrite Hmap|].
  change ((c, e) :: new) with ([(c, e)] ++ new).
  rewrite !count_events_app, !count_events_one, Hs', Hf', Hs, Hf. lia.
Qed.

End Candidates.

Section WholeRun.

Variable env : Env.

Lemma count_events_le (f : Event -> bool) (log : list (string * Event)) :
  count_events f log <= length log.
Proof. unfold count_events. apply List.filter_length_le. Qed.

Lemma count_events_disjoint (log : list (string * Event)) :
  count_events is_Processed log + count_events is_Failed log <= length log.
Proof.
  unfold count_events. induction log as [|[c e] log IH]; [cbn; lia|].
  cbn [List.filter snd]. destruct e; cbn [is_Processed is_Failed length]; lia.
Qed.

(** X7. In a run that reaches its end, every candidate of the glob is
    logged once, in the order of the glob, and the two counters of the
    summary are the numbers of candidates logged as processed and as
    failed; skipped candidates count in neither. *)
Theorem summary_counts_match_log (w w' : World) (st : RunState)
    (table : list Replacement) (n : option nat) :
  main env w = (Done st table n, w') ->
  (exists config,
     loadConfig w = Some config
     /\ map fst (st_log st)
        = glob env (paths w)
            (path.join [default EmptyString (input config); image_pattern])
            (default [] (blacklists config)))
  /\ st_successCount st = count_events is_Processed (st_log st)
  /\ st_failCount st = count_events is_Failed (st_log st)
  /\ st_successCount st + st_failCount st <= length (st_log st).
Proof.
  intros H.
  destruct (main_Done env _ _ _ _ _ H)
    as (c & s & f & Hc & _ & Hf & Hst & _).
  destruct (process_all_counters env (default EmptyString (input c))
              (default EmptyString (output c)) (targetFormat s)
              (qualityValue (qualitySetting s))
              (Lock.values (loadLockFile w)) f
              {| st_fs := paths w; st_lockData := loadLockFile w;
                 st_replacements := []; st_successCount := 0;
                 st_failCount := 0; st_log := [] |})
    as (new & Hlog & Hmap & Hs & Hfl).
  rewrite <- Hst in Hlog, Hs, Hfl. cbn in Hlog, Hs, Hfl.
  rewrite Hlog, Hs, Hfl. split.
  - exists c. split; [exact Hc|]. now rewrite Hmap.
  - split; [reflexivity|]. split; [reflexivity|].
    apply count_events_disjoint.
Qed.

(** X8. A run removes no path that existed before it, except the original
    and the temporary file of a candidate that it tried to convert (logged
    as processed or as failed); skipped candidates and all other files stay
    where they are. *)
Theorem run_removes_only_converted_candidates (w w' : World) (o : Outcome)
    (p : string) :
  main env w = (o, w') ->
  p ∈ paths w ->
  p ∈ paths w'
  \/ exists c e,
       In (c, e) (run_log o) /\ disposition e = ConvertNow
       /\ (p = disk_path env c \/ p = temp_path env c).
Proof.
  intros H Hp.
  destruct o as [| | |st table n];
    try (left; destruct (main_early env _ _ _ H) as [-> _];
         [intros ? ? ?; discriminate|exact Hp]).
  destruct (main_Done env _ _ _ _ _ H)
    as (c & s & f & _ & _ & _ & Hst & _ & Hfs & _).
  rewrite Hfs. cbn [run_log]. rewrite Hst.
  now apply process_all_keeps_others.
Qed.

(** X9. A run that does not reach its end (a setup error, no image found,
    a cancelled prompt) converts nothing and leaves the files, the lock
    file and the text files as they were; it changes at most
    [.gitignore], and only after the configuration was accepted. *)
Theorem unfinished_run_changes_only_gitignore (w w' : World) (o : Outcome) :
  main env w = (o, w') ->
  (forall st table n, o <> Done st table n) ->
  paths w' = paths w /\ lock_file w' = lock_file w /\ texts w' = texts w
  /\ config_file w' = config_file w
  /\ (w' = w
      \/ exists config,
           loadConfig w = Some config
           /\ w' = ensureGitIgnore env (default EmptyString (output config)) w).
Proof.
  intros H Hno.
  assert (Hw : w' = w
               \/ exists config,
                    loadConfig w = Some config
                    /\ w' = ensureGitIgnore env
                              (default EmptyString (output config)) w).
  { revert H. unfold main.
    destruct (loadConfig w) as [c|]; [|intros [= _ <-]; now left].
    cbv zeta.
    destruct (negb (pathExists env _ _));
      [intros [= _ <-]; right; now exists c|].
    destruct (glob env _ _ _) as [|file files];
      [intros [= _ <-]; right; now exists c|].
    destruct (determine_settings env c) as [settings|];
      [|intros [= _ <-]; right; now exists c].
    intros H. exfalso.
    destruct (_ && _); [destruct (pathExists env _ _);
                        [destruct (Rewriter.updateReferences _ _ _ _)|]|];
      injection H as <- _; eapply Hno; reflexivity. }
  destruct Hw as [->|(c & Hc & ->)]; [repeat split; now left|].
  destruct (ensureGitIgnore_frame env (default EmptyString (output c)) w)
    as (Hp & Hcf & Hl & Ht).
  repeat split; try assumption. right. now exists c.
Qed.

End WholeRun.

(* ================================================================== *)
(** * What the reference rewriter does to the text files *)
(* ================================================================== *)

Section References.

Import Regex Rewriter.

Variables read_ok write_ok : string -> bool.

Lemma rewrite_content_total (rules : list Replacement) :
  forall s b, exists s' b', rewrite_content rules s b = Some (s', b').
Proof.
  induction rules as [|r rules IH]; intros s b; [now exists s, b|].
  cbn [rewrite_content]. rewrite apply_replacement_eq. apply IH.
Qed.

(** X10. The pattern of a rule is always a valid one, whatever characters
    the old path has: the loop over the rules never throws, and a file is
    left as it is exactly when it cannot be read, when no rule matched in
    it, or when it cannot be written. *)
Theorem rewriting_never_throws (rules : list Replacement)
    (f : string * string) :
  exists content hasChanges,
    rewrite_content rules (snd f) false = Some (content, hasChanges)
    /\ update_file read_ok write_ok rules f
       = (if read_ok (fst f) && hasChanges && write_ok (fst f)
          then ((fst f, content), true) else (f, false)).
Proof.
  destruct (rewrite_content_total rules (snd f) false) as (s' & b & H).
  exists s', b. split; [exact H|].
  unfold update_file. rewrite H.
  destruct (read_ok (fst f)), b, (write_ok (fst f)); reflexivity.
Qed.

Lemma rewrite_content_unchanged (rules : list Replacement) (s : string) :
  (forall r, In r rules ->
             forall i, ~ (occurs_at (oldRel r) s i /\ standalone s i)) ->
  forall b, rewrite_content rules s b = Some (s, b).
Proof.
  induction rules as [|r rules IH]; intros Hno b; [reflexivity|].
  cbn [rewrite_content].
  rewrite (apply_replacement_unchanged s r (Hno r (or_introl eq_refl))).
  rewrite orb_false_r. apply IH. intros r' Hr'. apply Hno. now right.
Qed.

Lemma update_files_unchanged (rules : list Replacement)
    (texts : list (string * string)) :
  (forall f r, In f texts -> In r rules ->
               forall i, ~ (occurs_at (oldRel r) (snd f) i
                            /\ standalone (snd f) i)) ->
  map (update_file read_ok write_ok rules) texts
  = map (fun f => (f, false)) texts.
Proof.
  intros Hno. apply map_ext_in. intros f Hf. unfold update_file.
  rewrite (rewrite_content_unchanged rules (snd f));
    [now destruct (read_ok (fst f))|].
  intros r Hr. now apply Hno.
Qed.

(** X11. When no old path of the table has a standalone occurrence in any
    of the text files, [updateReferences] writes no file: the texts are
    what they were and the count of updated files is zero. *)
Theorem unreferenced_texts_are_untouched (rules : list Replacement)
    (texts : list (string * string)) :
  (forall f r, In f texts -> In r rules ->
               forall i, ~ (occurs_at (oldRel r) (snd f) i
                            /\ standalone (snd f) i)) ->
  updateReferences read_ok write_ok rules texts = (texts, 0).
Proof.
  intros Hno. unfold updateReferences. cbv zeta.
  rewrite update_files_unchanged.
  - rewrite map_map. cbn [fst]. rewrite map_id. f_equal.
    induction texts as [|f l IH]; [reflexivity|]. cbn. apply IH.
    intros f' r Hf' Hr. apply Hno; [now right|exact Hr].
  - intros f r Hf Hr. apply Hno; [exact Hf|].
    eapply Permutation_in; [|exact Hr].
    apply Permutation_sym, sort_replacements_perm.
Qed.

Lemma rendered_same_path (re : pattern) (s old : string) (l : list piece) :
  literal re = Str.chars old -> no_dollar old ->
  (forall i, In (Replaced i) l ->
             match_here re (text_before s i) (Str.drop i s) = true) ->
  rendered re s old l = rendered re s "$&" l.
Proof.
  intros Hlit Hnd. induction l as [|p l IH]; intros Hm; [reflexivity|].
  cbn [rendered fold_right]. fold (rendered re s old l).
  fold (rendered re s "$&" l).
  rewrite IH by (intros i Hi; apply Hm; now right). f_equal.
  destruct p as [c|i]; [reflexivity|]. cbn [render].
  rewrite getSubstitution_literal by exact Hnd.
  rewrite getSubstitution_whole_match.
  specialize (Hm i (or_introl eq_refl)). unfold match_here in Hm.
  apply andb_true_iff in Hm as [_ Hm]. rewrite Hlit in *.
  rewrite of_chars_chars in Hm. rewrite chars_length.
  symmetry. now apply starts_with_take.
Qed.

(** X12. A rule whose new path is its old path, as the table has for an
    image that already is in the target format, leaves every text as it
    is; it still reports a change wherever it matches, so that the file is
    written again and counted as updated. *)
Theorem same_path_rule_keeps_text (s old : string) :
  no_dollar old ->
  apply_replacement s {| oldRel := old; newRel := old |}
  = Some (s, test (boundary_pattern old) s).
Proof.
  intros Hnd. rewrite apply_replacement_eq. cbn [oldRel newRel].
  destruct (test (boundary_pattern old) s); [|reflexivity].
  do 2 f_equal. unfold replace.
  rewrite (rendered_same_path (boundary_pattern old) s old);
    [apply replace_whole_match|reflexivity|exact Hnd|].
  intros i Hi. apply match_positions_In in Hi.
  now apply match_positions_sound in Hi.
Qed.

Lemma insert_by_length_filter (k : nat) (r : Replacement)
    (l : list Replacement) :
  List.filter (fun x => String.length (oldRel x) =? k) (insert_by_length r l)
  = List.filter (fun x => String.length (oldRel x) =? k) (r :: l).
Proof.
  induction l as [|x l IH]; [reflexivity|]. cbn [insert_by_length].
  destruct (Nat.ltb_spec (String.length (oldRel r))
                         (String.length (oldRel x))) as [Hlt|Hge];
    [|reflexivity].
  cbn [List.filter] in *. rewrite IH.
  destruct (Nat.eqb_spec (String.length (oldRel r)) k) as [Hr|Hr];
    [|reflexivity].
  destruct (Nat.eqb_spec (String.length (oldRel x)) k) as [Hx|Hx];
    [lia|reflexivity].
Qed.

(** X13. The sort of the table is stable: the rules whose old paths have
    a given length come out in the order in which they went in. *)
Theorem sort_replacements_stable (k : nat) (l : list Replacement) :
  List.filter (fun x => String.length (oldRel x) =? k) (sort_replacements l)
  = List.filter (fun x => String.length (oldRel x) =? k) l.
Proof.
  induction l as [|r l IH]; [reflexivity|].
  unfold sort_replacements in *. cbn [fold_right].
  rewrite insert_by_length_filter. cbn [List.filter]. now rewrite IH.
Qed.

Lemma update_file_frame (rules : list Replacement) (f : string * string) :
  fst (fst (update_file read_ok write_ok rules f)) = fst f
  /\ (snd (fst (update_file read_ok write_ok rules f)) <> snd f ->
      read_ok (fst f) = true /\ write_ok (fst f) = true).
Proof.
  unfold update_file.
  destruct (read_ok (fst f)); cbn [negb]; [|now split].
  destruct (rewrite_content rules (snd f) false) as [[s' []]|];
    try now split.
  destruct (write_ok (fst f)); now split.
Qed.

(** X14. [updateReferences] keeps the list of text files, path by path
    and in order; a file that cannot be read or cannot be written keeps
    its content; and the count of updated files is at most the number of
    files. *)
Theorem updateReferences_keeps_files (rules : list Replacement)
    (texts : list (string * string)) :
  let result := updateReferences read_ok write_ok rules texts in
  map fst (fst result) = map fst texts
  /\ Forall2 (fun old new =>
                fst new = fst old
                /\ (snd new <> snd old ->
                    read_ok (fst old) = true /\ write_ok (fst old) = true))
             texts (fst result)
  /\ snd result <= length texts.
Proof.
  unfold updateReferences. cbv zeta. cbn [fst snd].
  set (rs := sort_replacements rules). split; [|split].
  - rewrite !map_map. apply map_ext. intros f.
    apply (update_file_frame rs f).
  - rewrite map_map. induction texts as [|f l IH]; [constructor|].
    cbn [map]. constructor; [apply (update_file_frame rs f)|exact IH].
  - etransitivity; [apply List.filter_length_le|]. now rewrite length_map.
Qed.

End References.

Section Escaping.

Import Regex.

Lemma escapeRegExp_length (s : string) :
  String.length s <= String.length (escapeRegExp s)
  /\ String.length (escapeRegExp s) <= 2 * String.length s.
Proof.
  induction s as [|c s IH]; [cbn; lia|]. cbn [escapeRegExp].
  destruct (is_syntax_char c); cbn [String.length]; lia.
Qed.

(** X21. [escapeRegExp] can be undone: read as the source of a pattern,
    the escaped text is the sequence of the characters of the original,
    each standing for itself; the text is returned unchanged exactly when
    it has none of the escaped characters, and is at most twice as
    long. *)
Theorem escapeRegExp_round_trip (s : string) :
  parse_literal (escapeRegExp s) = Some (Str.chars s)
  /\ (escapeRegExp s = s
      <-> forall c, In c (Str.chars s) -> is_syntax_char c = false)
  /\ String.length s <= String.length (escapeRegExp s) <= 2 * String.length s.
Proof.
  split; [apply parse_literal_escapeRegExp|].
  split; [|apply escapeRegExp_length].
  induction s as [|c s IH]; [split; [intros _ c []|reflexivity]|].
  cbn [escapeRegExp Str.chars]. split.
  - destruct (is_syntax_char c) eqn:Hc.
    + intros H. injection H as _ H. exfalso.
      apply (f_equal String.length) in H. cbn [String.length] in H.
      pose proof (escapeRegExp_length s). lia.
    + intros H. injection H as H. intros c' [<-|Hin]; [exact Hc|].
      now apply IH.
  - intros H. rewrite (H c (or_introl eq_refl)). f_equal.
    apply IH. intros c' Hin. apply H. now right.
Qed.

End Escaping.

(* ================================================================== *)
(** * What [ensureGitIgnore] does to [.gitignore] *)
(* ================================================================== *)

Section GitIgnore.

Local Open Scope string_scope.

Variable env : Env.

Lemma append_assoc (a b c : string) : (a +:+ b) +:+ c = a +:+ (b +:+ c).
Proof.
  induction a as [|x a IH]; [reflexivity|].
  change (String x ((a +:+ b) +:+ c) = String x (a +:+ (b +:+ c))).
  now rewrite IH.
Qed.

Lemma length_append (a b : string) :
  String.length (a +:+ b) = String.length a + String.length b.
Proof.
  induction a as [|x a IH]; [reflexivity|].
  change (S (String.length (a +:+ b))
          = S (String.length a + String.length b)).
  now rewrite IH.
Qed.

Lemma chars_append (a b : string) :
  Str.chars (a +:+ b) = (Str.chars a ++ Str.chars b)%list.
Proof.
  induction a as [|x a IH]; [reflexivity|].
  change (x :: Str.chars (a +:+ b) = x :: (Str.chars a ++ Str.chars b)%list).
  now rewrite IH.
Qed.

Lemma of_chars_app (a b : list ascii) :
  Str.of_chars (a ++ b) = Str.of_chars a +:+ Str.of_chars b.
Proof. induction a as [|x a IH]; [reflexivity|]. cbn. now rewrite IH. Qed.

Lemma chars_of_chars (l : list ascii) : Str.chars (Str.of_chars l) = l.
Proof. induction l as [|x l IH]; [reflexivity|]. cbn. now rewrite IH. Qed.

Lemma split_nonempty (sep : ascii) (s : string) : Str.split sep s <> [].
Proof.
  destruct s as [|c s]; [discriminate|]. cbn [Str.split].
  destruct (Ascii.eqb c sep); [discriminate|].
  destruct (Str.split sep s); discriminate.
Qed.

(** The pieces of a text with a separator in it: those before the
    separator, then those after it. *)
Lemma split_app_sep (sep : ascii) (a b : string) :
  Str.split sep (a +:+ String sep b)
  = (Str.split sep a ++ Str.split sep b)%list.
Proof.
  induction a as [|c a IH].
  - change (EmptyString +:+ String sep b) with (String sep b).
    cbn [Str.split app]. now rewrite Ascii.eqb_refl.
  - change (String c a +:+ String sep b) with (String c (a +:+ String sep b)).
    cbn [Str.split]. rewrite IH.
    destruct (Ascii.eqb c sep); [reflexivity|].
    pose proof (split_nonempty sep a) as Hne.
    destruct (Str.split sep a) as [|x xs]; [contradiction|reflexivity].
Qed.

(** A text without the separator is one piece. *)
Lemma split_one_piece (sep : ascii) (s : string) :
  ~ In sep (Str.chars s) -> Str.split sep s = [s].
Proof.
  induction s as [|c s IH]; intros Hno; [reflexivity|].
  cbn [Str.split]. destruct (Ascii.eqb_spec c sep) as [->|Hne].
  - exfalso. apply Hno. now left.
  - rewrite IH; [reflexivity|]. intros Hin. apply Hno. now right.
Qed.

Lemma starts_with_inv (p s : string) :
  Str.starts_with p s = true -> exists r, s = p +:+ r.
Proof.
  revert s. induction p as [|a p IH]; intros s H; [now exists s|].
  destruct s as [|b s]; [discriminate|]. cbn in H.
  apply andb_true_iff in H as [Hab H]. apply Ascii.eqb_eq in Hab as ->.
  destruct (IH s H) as [r ->]. now exists r.
Qed.

Lemma starts_with_append (p r : string) : Str.starts_with p (p +:+ r) = true.
Proof.
  induction p as [|a p IH]; [reflexivity|].
  change (Ascii.eqb a a && Str.starts_with p (p +:+ r) = true).
  now rewrite Ascii.eqb_refl, IH.
Qed.

Lemma ends_with_inv (p s : string) :
  Str.ends_with p s = true -> exists r, s = r +:+ p.
Proof.
  unfold Str.ends_with. intros H.
  destruct (starts_with_inv _ _ H) as [r Hr].
  exists (Str.of_chars (rev (Str.chars r))).
  apply (f_equal Str.chars) in Hr.
  rewrite chars_append, !chars_of_chars in Hr.
  apply (f_equal (@rev ascii)) in Hr.
  rewrite rev_app_distr, !rev_involutive in Hr.
  rewrite <- (of_chars_chars s), Hr, of_chars_app, !of_chars_chars.
  reflexivity.
Qed.

(** The test of [ensureGitIgnore] on the lines of the file. *)
Lemma isIgnored_iff (content outputDir : string) :
  existsb (fun line =>
             String.eqb line outputDir
             || String.eqb line ("/" +:+ outputDir)
             || String.eqb line (outputDir +:+ "/")
             || String.eqb line ("/" +:+ outputDir +:+ "/"))
          (map trim (Str.split "010"%char content)) = true
  <-> lists_directory content outputDir.
Proof.
  unfold lists_directory, ignore_spellings.
  rewrite existsb_exists. split.
  - intros (x & Hin & Hx). apply in_map_iff in Hin as (line & <- & Hin).
    exists line. split; [exact Hin|].
    rewrite !orb_true_iff, !String.eqb_eq in Hx. cbn [In].
    intuition congruence.
  - intros (line & Hin & Hx). exists (trim line).
    split; [now apply in_map|].
    rewrite !orb_true_iff, !String.eqb_eq. cbn [In] in Hx.
    intuition congruence.
Qed.

Lemma ensureGitIgnore_cases (outputDir : string) (w : World) :
  ensureGitIgnore env outputDir w = w
  \/ exists content,
       default "" (gitignore w) = content
       /\ (gitignore w = None \/ gitignore_read_ok env = true)
       /\ ~ lists_directory content outputDir
       /\ gitignore_write_ok env = true
       /\ ensureGitIgnore env outputDir w
          = with_gitignore w (content +:+ gitignore_entry content outputDir).
Proof.
  unfold ensureGitIgnore.
  assert (Hread :
    match gitignore w with
    | Some content => if gitignore_read_ok env then Some content else None
    | None => Some ""
    end = None
    \/ exists content,
         match gitignore w with
         | Some content => if gitignore_read_ok env then Some content else None
         | None => Some ""
         end = Some content
         /\ default "" (gitignore w) = content
         /\ (gitignore w = None \/ gitignore_read_ok env = true)).
  { destruct (gitignore w) as [c|]; [|right; exists ""; auto].
    destruct (gitignore_read_ok env); [right; exists c; auto|now left]. }
  destruct Hread as [->|(content & -> & Hc & Hr)]; [now left|].
  cbv zeta.
  destruct (existsb _ _) eqn:Hi; [now left|].
  destruct (gitignore_write_ok env); [|now left].
  right. exists content. repeat split; try assumption.
  - intros Hl. apply isIgnored_iff in Hl. congruence.
  - unfold gitignore_entry.
    now destruct (Str.ends_with newline content || String.eqb content "").
Qed.

Lemma listed_is_kept (outputDir content : string) (w : World) :
  gitignore w = Some content -> lists_directory content outputDir ->
  ensureGitIgnore env outputDir w = w.
Proof.
  intros Hg Hl. apply isIgnored_iff in Hl.
  unfold ensureGitIgnore. rewrite Hg.
  destruct (gitignore_read_ok env); [|reflexivity].
  cbv zeta. now rewrite Hl.
Qed.

(** The line that [ensureGitIgnore] appends is a line of the new
    content. *)
Lemma entry_is_listed (content outputDir : string) :
  plain_name outputDir ->
  lists_directory (content +:+ gitignore_entry content outputDir) outputDir.
Proof.
  intros [Hnl Htrim]. exists outputDir. split.
  2:{ rewrite Htrim. now left. }
  assert (Hlast : forall a,
            In outputDir
               (Str.split "010"%char (a +:+ String "010"%char
                                               (outputDir +:+ newline)))).
  { intros a. rewrite split_app_sep. apply in_or_app. right.
    unfold newline. rewrite split_app_sep, (split_one_piece _ _ Hnl).
    now left. }
  unfold gitignore_entry.
  destruct (Str.ends_with newline content) eqn:He; cbn [orb].
  - destruct (ends_with_inv _ _ He) as [r ->].
    change ("" +:+ outputDir +:+ newline) with (outputDir +:+ newline).
    rewrite append_assoc. apply Hlast.
  - destruct (String.eqb_spec content "") as [->|_].
    + change ("" +:+ "" +:+ outputDir +:+ newline)
        with (outputDir +:+ newline).
      unfold newline. rewrite split_app_sep, (split_one_piece _ _ Hnl).
      now left.
    + apply Hlast.
Qed.

(** X15. [ensureGitIgnore] lists a directory once.  On strings of
    characters below U+0100, where the white space that [trim] strips is
    the characters 9 to 13, the space and the no-break space: for a name
    without line feed and without white space around it, a second call
    changes nothing, whatever the first call did; and when the file can be
    read and written, its content afterwards lists the directory. *)
Theorem ensureGitIgnore_lists_once (outputDir : string) (w : World) :
  plain_name outputDir ->
  ensureGitIgnore env outputDir (ensureGitIgnore env outputDir w)
  = ensureGitIgnore env outputDir w
  /\ (gitignore_read_ok env = true -> gitignore_write_ok env = true ->
      forall content,
        gitignore (ensureGitIgnore env outputDir w) = Some content ->
        lists_directory content outputDir).
Proof.
  intros Hplain. split.
  - destruct (ensureGitIgnore_cases outputDir w)
      as [Hw|(content & _ & _ & _ & _ & Hw)].
    + now rewrite !Hw.
    + rewrite Hw. eapply listed_is_kept; [reflexivity|].
      now apply entry_is_listed.
  - intros Hr Hwr content.
    destruct (ensureGitIgnore_cases outputDir w)
      as [Hw|(c & _ & _ & _ & _ & Hw)].
    + rewrite Hw. intros Hg. revert Hw. unfold ensureGitIgnore.
      rewrite Hg, Hr, Hwr. cbv zeta.
      destruct (existsb _ _) eqn:Hi; [intros _; now apply isIgnored_iff|].
      intros Hw. apply (f_equal gitignore) in Hw.
      cbn [gitignore with_gitignore] in Hw.
      rewrite Hg in Hw. injection Hw as Hw. exfalso.
      apply (f_equal String.length) in Hw. revert Hw.
      destruct (Str.ends_with newline content || String.eqb content "");
        rewrite !length_append; cbn; lia.
    + rewrite Hw. intros [= <-]. now apply entry_is_listed.
Qed.

(** X16. [ensureGitIgnore] never loses what [.gitignore] holds: the
    content afterwards is the content before, followed by nothing or by
    the directory on a line of its own; nothing is added when a line,
    trimmed of its white space (on strings of characters below U+0100: the
    characters 9 to 13, the space and the no-break space), already names
    the directory in one of its four spellings; and nothing else in the
    world changes. *)
Theorem ensureGitIgnore_only_appends (outputDir content : string)
    (w : World) :
  gitignore w = Some content ->
  (exists added,
     gitignore (ensureGitIgnore env outputDir w) = Some (content +:+ added)
     /\ (added = "" \/ added = outputDir +:+ newline
         \/ added = newline +:+ outputDir +:+ newline))
  /\ (lists_directory content outputDir ->
      ensureGitIgnore env outputDir w = w)
  /\ paths (ensureGitIgnore env outputDir w) = paths w
  /\ lock_file (ensureGitIgnore env outputDir w) = lock_file w
  /\ texts (ensureGitIgnore env outputDir w) = texts w.
Proof.
  intros Hg. split; [|split].
  - destruct (ensureGitIgnore_cases outputDir w)
      as [Hw|(c & Hc & _ & _ & _ & Hw)].
    + exists "". rewrite Hw, Hg, append_empty. split; [reflexivity|now left].
    + rewrite Hg in Hc. cbn in Hc. subst c.
      exists (gitignore_entry content outputDir). rewrite Hw.
      split; [reflexivity|]. right. unfold gitignore_entry.
      destruct (Str.ends_with newline content || String.eqb content "");
        [now left|now right].
  - now apply listed_is_kept.
  - destruct (ensureGitIgnore_frame env outputDir w) as (Hp & _ & Hl & Ht).
    now repeat split.
Qed.

End GitIgnore.

(* ================================================================== *)
(** * Paths: lock values and final paths *)
(* ================================================================== *)

Section Paths.

Local Open Scope string_scope.

Lemma split_no_sep (sep : ascii) (s : string) :
  Forall (fun x => ~ In sep (Str.chars x)) (Str.split sep s).
Proof.
  induction s as [|c s IH]; [constructor; [intros []|constructor]|].
  cbn [Str.split]. destruct (Ascii.eqb_spec c sep) as [->|Hne].
  - constructor; [intros []|exact IH].
  - destruct (Str.split sep s) as [|x xs];
      [constructor; [|constructor]; intros [H|[]]; congruence|].
    inversion IH as [|? ? Hx Hxs]; subst. constructor; [|exact Hxs].
    intros [H|H]; [congruence|contradiction].
Qed.

Lemma normalize_segments_normal (segs : list string) :
  forall acc,
    Forall normal_segment acc -> Forall no_slash segs ->
    Forall normal_segment (path.normalize_segments false acc segs).
Proof.
  induction segs as [|seg rest IH]; intros acc Ha Hs;
    cbn [path.normalize_segments]; [now apply Forall_rev|].
  inversion Hs as [|? ? Hseg Hrest]; subst.
  destruct (String.eqb_spec seg "") as [->|H0]; cbn [orb]; [now apply IH|].
  destruct (String.eqb_spec seg ".") as [->|H1]; [now apply IH|].
  destruct (String.eqb_spec seg "..") as [->|H2].
  - destruct acc as [|top acc']; [now apply IH|].
    inversion Ha; subst.
    destruct (String.eqb top ".."); now apply IH.
  - apply IH; [|exact Hrest]. constructor; [|exact Ha]. now repeat split.
Qed.

Lemma normalize_segments_of_normal (l : list string) :
  forall acc,
    Forall normal_segment l ->
    path.normalize_segments false acc l = (rev acc ++ l)%list.
Proof.
  induction l as [|seg l IH]; intros acc Hl; cbn [path.normalize_segments];
    [now rewrite app_nil_r|].
  inversion Hl as [|? ? (H0 & H1 & H2 & _) Hl']; subst.
  destruct (String.eqb_spec seg ""); [contradiction|].
  destruct (String.eqb_spec seg "."); [contradiction|].
  destruct (String.eqb_spec seg ".."); [contradiction|].
  cbn [orb]. rewrite IH by exact Hl'. cbn [rev].
  now rewrite <- app_assoc.
Qed.

Lemma normalize_segments_app (a : bool) (l1 : list string) :
  forall acc l2,
    path.normalize_segments a acc (l1 ++ l2)
    = path.normalize_segments a (rev (path.normalize_segments a acc l1)) l2.
Proof.
  induction l1 as [|seg l1 IH]; intros acc l2.
  - cbn [app path.normalize_segments]. now rewrite rev_involutive.
  - cbn [app path.normalize_segments].
    destruct (String.eqb seg "" || String.eqb seg "."); [apply IH|].
    destruct (String.eqb seg "..");
      [destruct acc as [|top acc']; [|destruct (String.eqb top "..")]|];
      apply IH.
Qed.

(** Going up from the last segments of a normalized path removes them. *)
Lemma normalize_segments_up (u : list string) :
  forall (v : list string) acc rest,
    Forall normal_segment u -> length v = length u ->
    path.normalize_segments false (u ++ acc)
      (map (fun _ => "..") v ++ rest)
    = path.normalize_segments false acc rest.
Proof.
  induction u as [|x u IH]; intros v acc rest Hu Hlen.
  - destruct v; [reflexivity|discriminate].
  - destruct v as [|y v]; [discriminate|].
    inversion Hu as [|? ? (_ & _ & H2 & _) Hu']; subst.
    cbn [map app path.normalize_segments].
    change (String.eqb ".." "" || String.eqb ".." ".") with false.
    change (String.eqb ".." "..") with true. cbv iota.
    destruct (String.eqb_spec x ".."); [contradiction|].
    apply IH; [exact Hu'|]. cbn in Hlen. lia.
Qed.

Lemma split_join (l : list string) :
  l <> [] -> Forall no_slash l -> Str.split "/" (Str.join "/" l) = l.
Proof.
  induction l as [|x l IH]; [contradiction|]. intros _ Hl.
  inversion Hl as [|? ? Hx Hl']; subst.
  destruct l as [|y l]; [now apply split_one_piece|].
  change (Str.join "/" (x :: y :: l))
    with (x +:+ String "/" (Str.join "/" (y :: l))).
  rewrite split_app_sep, (split_one_piece _ _ Hx), IH;
    [reflexivity|discriminate|exact Hl'].
Qed.

Lemma normal_no_slash (l : list string) :
  Forall normal_segment l -> Forall no_slash l.
Proof. apply List.Forall_impl. now intros s (_ & _ & _ & H). Qed.

Lemma segments_normal (p : string) :
  Forall normal_segment (path.segments false p).
Proof.
  unfold path.segments. apply normalize_segments_normal; [constructor|].
  apply split_no_sep.
Qed.

(** The segments of a rooted, normalized path are its own. *)
Lemma segments_rooted (S : list string) :
  Forall normal_segment S ->
  path.segments false ("/" +:+ Str.join "/" S) = S.
Proof.
  intros HS. unfold path.segments.
  change ("/" +:+ Str.join "/" S) with (String "/" (Str.join "/" S)).
  cbn [Str.split]. rewrite Ascii.eqb_refl.
  cbn [path.normalize_segments]. change (String.eqb "" "") with true.
  cbn [orb]. destruct S as [|x S]; [reflexivity|].
  rewrite split_join; [|discriminate|now apply normal_no_slash].
  now rewrite normalize_segments_of_normal.
Qed.

Lemma resolve_rooted (cwd : string) (S : list string) :
  Forall normal_segment S ->
  path.resolve cwd ["/" +:+ Str.join "/" S] = "/" +:+ Str.join "/" S.
Proof.
  intros HS. unfold path.resolve. cbn [fold_left].
  change ("/" +:+ Str.join "/" S) with (String "/" (Str.join "/" S)).
  change (String.eqb (String "/" (Str.join "/" S)) "") with false.
  change (path.isAbsolute (String "/" (Str.join "/" S))) with true.
  cbv iota.
  change (String "/" (Str.join "/" S)) with ("/" +:+ Str.join "/" S).
  now rewrite segments_rooted.
Qed.

(** [path.resolve] gives a rooted, normalized path, which resolves to
    itself. *)
Lemma resolve_shape (cwd : string) (ps : list string) :
  Forall normal_segment (path.segments false (path.resolve cwd ps))
  /\ path.resolve cwd ps
     = "/" +:+ Str.join "/" (path.segments false (path.resolve cwd ps)).
Proof.
  split; [apply segments_normal|].
  unfold path.resolve at 2. rewrite segments_rooted by apply segments_normal.
  reflexivity.
Qed.

Lemma resolve_resolve (cwd : string) (ps : list string) :
  path.resolve cwd [path.resolve cwd ps] = path.resolve cwd ps.
Proof.
  unfold path.resolve at 2 3. apply resolve_rooted, segments_normal.
Qed.

Lemma drop_common_spec (a : list string) :
  forall b,
    exists common,
      a = (common ++ fst (path.drop_common a b))%list
      /\ b = (common ++ snd (path.drop_common a b))%list.
Proof.
  induction a as [|x a IH]; intros b; [now exists []|].
  destruct b as [|y b]; [now exists []|]. cbn [path.drop_common].
  destruct (String.eqb_spec x y) as [->|Hne]; [|now exists []].
  destruct (IH b) as (common & Ha & Hb). exists (y :: common).
  cbn [app]. now rewrite <- Ha, <- Hb.
Qed.

(** A relative path that starts with a segment is not empty and not
    absolute. *)
Lemma join_relative (e : string) (l : list string) :
  e <> "" -> no_slash e ->
  Str.join "/" (e :: l) <> ""
  /\ path.isAbsolute (Str.join "/" (e :: l)) = false.
Proof.
  intros He Hs. destruct e as [|c e]; [contradiction|].
  assert (Hc : Ascii.eqb "/" c = false).
  { apply Ascii.eqb_neq. intros <-. apply Hs. now left. }
  destruct l as [|y l].
  - cbn [Str.join]. split; [discriminate|].
    unfold path.isAbsolute. cbn [Str.starts_with]. now rewrite Hc.
  - change (Str.join "/" (String c e :: y :: l))
      with (String c (e +:+ String "/" (Str.join "/" (y :: l)))).
    split; [discriminate|].
    unfold path.isAbsolute. cbn [Str.starts_with]. now rewrite Hc.
Qed.

Lemma resolve_cwd (cwd : string) :
  path.isAbsolute cwd = true ->
  String.eqb cwd "" = false
  /\ path.resolve cwd [cwd]
     = "/" +:+ Str.join "/" (path.segments false cwd).
Proof.
  intros Habs.
  assert (Hne : String.eqb cwd "" = false).
  { destruct cwd; [discriminate|reflexivity]. }
  split; [exact Hne|].
  unfold path.resolve. cbn [fold_left]. now rewrite Hne, Habs.
Qed.

(** A path relative to the working directory: up from the segments of the
    working directory that the target does not share, then down the
    segments of the target. *)
Lemma relative_from_cwd (cwd t : string) :
  path.isAbsolute cwd = true ->
  exists common up down,
    path.segments false cwd = (common ++ up)%list
    /\ path.segments false (path.resolve cwd [t]) = (common ++ down)%list
    /\ path.relative cwd cwd t
       = Str.join "/" (map (fun _ => "..") up ++ down).
Proof.
  intros Habs. destruct (resolve_cwd cwd Habs) as [_ Hc].
  unfold path.relative. rewrite Hc, segments_rooted by apply segments_normal.
  destruct (drop_common_spec (path.segments false cwd)
              (path.segments false (path.resolve cwd [t])))
    as (common & HC & HT).
  destruct (path.drop_common _ _) as [up down]. cbn [fst snd] in HC, HT.
  now exists common, up, down.
Qed.

Lemma resolve_relative (cwd t : string) :
  path.isAbsolute cwd = true ->
  path.resolve cwd [cwd; path.relative cwd cwd t] = path.resolve cwd [t].
Proof.
  intros Habs. destruct (resolve_cwd cwd Habs) as [Hne _].
  destruct (relative_from_cwd cwd t Habs)
    as (common & up & down & HC & HT & ->).
  destruct (resolve_shape cwd [t]) as [HTn ->].
  pose proof (segments_normal cwd) as HCn.
  rewrite HT in *. clear HT.
  assert (Hup : Forall normal_segment up).
  { rewrite HC in HCn. now apply Forall_app in HCn. }
  assert (Hdown : Forall normal_segment down).
  { now apply Forall_app in HTn. }
  unfold path.resolve. cbn [fold_left]. rewrite Hne, Habs.
  f_equal. f_equal.
  assert (HL : Forall (fun e => e <> "" /\ no_slash e)
                      (map (fun _ => "..") up ++ down)).
  { apply Forall_app. split.
    - apply List.Forall_forall. intros e He.
      apply in_map_iff in He as (? & <- & _).
      split; [discriminate|]. intros [H|[H|[]]]; discriminate.
    - eapply List.Forall_impl; [|exact Hdown]. now intros s (H & _ & _ & Hs). }
  destruct (map (fun _ => "..") up ++ down)%list as [|e L'] eqn:EL.
  - cbn [Str.join]. change (String.eqb "" "") with true. cbv iota.
    apply app_eq_nil in EL as [Hu ->]. apply map_eq_nil in Hu as ->.
    rewrite app_nil_r in HC. now rewrite app_nil_r.
  - inversion HL as [|? ? [He Hs] HL']; subst.
    destruct (join_relative e L' He Hs) as [Hj Ha].
    apply String.eqb_neq in Hj. rewrite Hj, Ha.
    unfold path.segments at 1.
    change (cwd +:+ "/" +:+ Str.join "/" (e :: L'))
      with (cwd +:+ String "/" (Str.join "/" (e :: L'))).
    rewrite split_app_sep, normalize_segments_app.
    fold (path.segments false cwd).
    rewrite split_join;
      [|discriminate
       |eapply List.Forall_impl; [|exact HL]; now intros s [_ H]].
    rewrite <- EL, HC, rev_app_distr.
    rewrite normalize_segments_up;
      [|now apply Forall_rev|now rewrite length_rev].
    rewrite normalize_segments_of_normal by exact Hdown.
    now rewrite rev_involutive.
Qed.

End Paths.

Section LockValues.

Local Open Scope string_scope.

Variable env : Env.
Variable fmt : Format.

(** X17. The value that the lock records for a converted image (line
    409) is read back by the next run (line 354) as the very path of the
    converted image, when the working directory of the process is an
    absolute path; so is every relative path made from an absolute
    path. *)
Theorem lock_value_resolves_to_final_path (file : string) :
  path.isAbsolute (cwd env) = true ->
  path.resolve (cwd env) [cwd env; lock_value env fmt file]
  = finalNewPath env fmt file
  /\ disk_path env (lock_value env fmt file) = final_path env fmt file
  /\ forall t, path.resolve (cwd env)
                 [cwd env; path.relative (cwd env) (cwd env) t]
               = path.resolve (cwd env) [t].
Proof.
  intros Habs. unfold lock_value, disk_path, final_path.
  rewrite resolve_relative by exact Habs.
  split; [unfold finalNewPath; apply resolve_resolve|].
  split; [apply resolve_resolve|].
  intros t. now apply resolve_relative.
Qed.

End LockValues.

Section FinalPaths.

Local Open Scope string_scope.

Variable env : Env.
Variables (inputDir outputDir : string) (fmt : Format) (q : nat).
Variable lockValues : list string.

(** X18. A candidate that was logged as processed is skipped as already
    converted when the loop meets it again, in this run or a later one,
    whatever the settings then are, and nothing is changed for it: the
    recorded lock value is not empty and resolves to the converted image,
    which exists. *)
Theorem processed_candidate_is_skipped_next (st : RunState) (c : string)
    (inputDir' outputDir' : string) (fmt' : Format) (q' : nat)
    (lockValues' : list string) :
  path.isAbsolute (cwd env) = true ->
  lock_value env fmt c <> "" ->
  st_log (process env inputDir outputDir fmt q lockValues st c)
  = (st_log st ++ [(c, Processed)])%list ->
  let st1 := process env inputDir outputDir fmt q lockValues st c in
  let st2 := process env inputDir' outputDir' fmt' q' lockValues' st1 c in
  valid_lock_entry env st1 c (lock_value env fmt c)
  /\ st_log st2 = (st_log st1 ++ [(c, AlreadyConverted)])%list
  /\ st_fs st2 = st_fs st1
  /\ st_lockData st2 = st_lockData st1
  /\ st_successCount st2 = st_successCount st1
  /\ st_failCount st2 = st_failCount st1.
Proof.
  intros Habs Hne Hlog st1 st2.
  destruct (processed_inv env inputDir outputDir fmt q lockValues st c Hlog)
    as (fs' & Hc & Hfs & Hl & _).
  pose proof (convert_done env inputDir outputDir fmt q _ _ _ Hc) as Hfs'.
  assert (Hv : valid_lock_entry env st1 c (lock_value env fmt c)).
  { apply valid_lock_entry_iff. subst st1. rewrite Hl, Hfs.
    split; [apply get_set_same|]. split; [exact Hne|].
    unfold disk_path, lock_value.
    rewrite resolve_relative, resolve_resolve by exact Habs.
    fold (final_path env fmt c). rewrite Hfs'. clear. paths_solver. }
  split; [exact Hv|].
  subst st2. unfold process.
  now rewrite (locked_target_valid env st1 c _ Hv).
Qed.

Lemma take_while_all (f : ascii -> bool) (l : list ascii) :
  Forall (fun c => f c = true) (path.take_while f l).
Proof.
  induction l as [|c l IH]; [constructor|]. cbn [path.take_while].
  destruct (f c) eqn:Hf; now constructor.
Qed.

Lemma chars_take_incl (n : nat) :
  forall s c, In c (Str.chars (Str.take n s)) -> In c (Str.chars s).
Proof.
  induction n as [|n IH]; intros s c; [intros []|].
  destruct s as [|x s]; [intros []|]. cbn [Str.take Str.chars].
  intros [H|H]; [now left|right; now apply IH].
Qed.

Lemma basename_no_slash (p ext : string) : no_slash (path.basename p ext).
Proof.
  assert (Hbase : no_slash (Str.of_chars (rev (path.rev_base p)))).
  { unfold no_slash. rewrite chars_of_chars. intros Hin.
    apply in_rev in Hin. unfold path.rev_base in Hin.
    pose proof (take_while_all (fun c => negb (path.is_sep c))
                  (path.drop_while path.is_sep (rev (Str.chars p)))) as Hall.
    rewrite List.Forall_forall in Hall. specialize (Hall _ Hin).
    discriminate Hall. }
  unfold path.basename.
  destruct (_ && _); [|exact Hbase].
  intros Hin. apply Hbase. now apply chars_take_incl in Hin.
Qed.

Lemma converted_name_normal (file : string) :
  normal_segment (converted_name fmt file).
Proof.
  unfold converted_name.
  assert (Hlen : 4 <= String.length
                        (path.basename file (path.extname file)
                         +:+ "." +:+ format_name fmt)).
  { rewrite !length_append. destruct fmt; cbn; lia. }
  repeat split; try (intros H; rewrite H in Hlen; cbn in Hlen; lia).
  unfold no_slash. rewrite !chars_append, !in_app_iff.
  intros [H|[H|H]].
  - now apply (basename_no_slash file (path.extname file)).
  - destruct H as [H|[]]; discriminate.
  - destruct fmt; cbn in H; intuition discriminate.
Qed.

Lemma join_snoc (l : list string) (x : string) :
  Str.join "/" (l ++ [x])
  = match l with
    | [] => x
    | _ :: _ => Str.join "/" l +:+ "/" +:+ x
    end.
Proof.
  induction l as [|y l IH]; [reflexivity|].
  destruct l as [|z l]; [reflexivity|].
  change (Str.join "/" ((y :: z :: l) ++ [x]))
    with (y +:+ "/" +:+ Str.join "/" ((z :: l) ++ [x])).
  rewrite IH.
  change (Str.join "/" (y :: z :: l))
    with (y +:+ "/" +:+ Str.join "/" (z :: l)).
  now rewrite !append_assoc.
Qed.

(** Resolving one more normal segment appends it. *)
Lemma resolve_snoc (cwd : string) (ps : list string) (x : string) :
  normal_segment x ->
  path.resolve cwd (ps ++ [x])
  = (if String.eqb (path.resolve cwd ps) "/" then ""
     else path.resolve cwd ps) +:+ "/" +:+ x.
Proof.
  intros (H0 & H1 & H2 & Hs).
  destruct (join_relative x [] H0 Hs) as [_ Ha]. cbn [Str.join] in Ha.
  unfold path.resolve. rewrite fold_left_app. cbn [fold_left].
  apply String.eqb_neq in H0. rewrite H0, Ha.
  set (raw := fold_left _ ps cwd).
  unfold path.segments at 1.
  change (raw +:+ "/" +:+ x) with (raw +:+ String "/" x).
  rewrite split_app_sep, normalize_segments_app, (split_one_piece _ _ Hs).
  fold (path.segments false raw).
  rewrite normalize_segments_of_normal, rev_involutive, join_snoc
    by (constructor; [repeat split; try assumption;
                      now apply String.eqb_neq|constructor]).
  pose proof (segments_normal raw) as HN.
  destruct (path.segments false raw) as [|e N]; [reflexivity|].
  inversion HN as [|? ? (He & _ & _ & Hes) _]; subst.
  destruct (join_relative e N He Hes) as [Hj _].
  destruct (Str.join "/" (e :: N)) as [|a j] eqn:Ej; [contradiction|].
  change ("/" +:+ String a j) with (String "/" (String a j)).
  change (String.eqb (String "/" (String a j)) "/") with false.
  cbv iota.
  change (String "/" (String a j)) with ("/" +:+ String a j).
  now rewrite !append_assoc.
Qed.

(** X19. The converted image goes into the directory of the original,
    under the name of the original without its extension followed by a dot
    and the target format; that name is a single path segment, whatever the
    candidate. *)
Theorem finalNewPath_in_directory_of_original (file : string) :
  let dir := path.resolve (cwd env) [cwd env; path.dirname file] in
  finalNewPath env fmt file
  = (if String.eqb dir "/" then "" else dir) +:+ "/"
    +:+ converted_name fmt file
  /\ normal_segment (converted_name fmt file).
Proof.
  cbv zeta. split; [|apply converted_name_normal].
  unfold finalNewPath.
  change [cwd env; path.dirname file;
          path.basename file (path.extname file) +:+ "." +:+ format_name fmt]
    with ([cwd env; path.dirname file] ++ [converted_name fmt file])%list.
  apply resolve_snoc, converted_name_normal.
Qed.

End FinalPaths.

Section ReferenceUpdates.

Local Open Scope string_scope.

Variable env : Env.

Lemma rebuild_replacements_nil (inputDir : string) (l : LockData) :
  rebuild_replacements env inputDir l = [] <-> l = [].
Proof.
  rewrite rebuild_replacements_flat_map. split; [|now intros ->].
  destruct l as [|e l]; [reflexivity|]. cbn [flat_map].
  rewrite rules_of_shape. discriminate.
Qed.

(** X20. A run that reaches its end rewrites references exactly when the
    working directory setting is not empty, the lock has at least one
    entry after the loop, and the working directory exists; whether images
    were converted or failed in this run plays no part. *)
Theorem references_updated_exactly_when (w w' : World) (st : RunState)
    (table : list Replacement) (n : option nat) :
  main env w = (Done st table n, w') ->
  exists config settings,
    loadConfig w = Some config
    /\ determine_settings env config = Some settings
    /\ (n <> None
        <-> workingDir settings <> ""
            /\ st_lockData st <> []
            /\ pathExists env (st_fs st) (workingDir settings) = true).
Proof.
  unfold main.
  destruct (loadConfig w) as [config|] eqn:Hcfg; [|discriminate].
  cbv zeta.
  destruct (negb (pathExists env _ _)); [discriminate|].
  destruct (glob env _ _ _) as [|f files]; [discriminate|].
  destruct (determine_settings env config) as [settings|] eqn:Hset;
    [|discriminate].
  set (st0 := process_all _ _ _ _ _ _ _ _).
  assert (Hp : paths (saveLockFile env (st_lockData st0)
                        (with_files
                           (ensureGitIgnore env
                              (default "" (output config)) w)
                           (st_fs st0)))
               = st_fs st0).
  { unfold saveLockFile. now destruct (lock_write_ok env). }
  rewrite Hp. clear Hp.
  pose proof (rebuild_replacements_nil (default "" (input config))
                (st_lockData st0)) as Hnil.
  set (tb := rebuild_replacements env _ _) in *.
  intros H. exists config, settings.
  split; [reflexivity|]. split; [exact Hset|].
  destruct (String.eqb_spec (workingDir settings) "") as [Hwd|Hwd];
    cbn [negb andb] in H.
  { injection H as <- _ <- _. split; [congruence|]. now intros [? _]. }
  destruct (Nat.eqb_spec (length tb) 0) as [Hlen|Hlen]; cbn [negb] in H.
  { injection H as <- _ <- _. split; [congruence|]. intros (_ & Hl & _) _.
    apply Hl, Hnil. now destruct tb. }
  assert (Hl : st_lockData st0 <> []).
  { intros Hl. apply Hnil in Hl. rewrite Hl in Hlen. now apply Hlen. }
  destruct (pathExists env (st_fs st0) (workingDir settings)) eqn:Hex.
  - destruct (Rewriter.updateReferences _ _ _ _) as [texts' k].
    injection H as <- _ <- _. split; [now intros _|discriminate].
  - injection H as <- _ <- _. split; [congruence|].
    intros (_ & _ & Hx). congruence.
Qed.

End ReferenceUpdates.

Section InsideInputDirectory.

Local Open Scope string_scope.

Variable env : Env.

Lemma normalize_segments_of_normal_any (a : bool) (l : list string) :
  forall acc,
    Forall normal_segment l ->
    path.normalize_segments a acc l = (rev acc ++ l)%list.
Proof.
  induction l as [|seg l IH]; intros acc Hl; cbn [path.normalize_segments];
    [now rewrite app_nil_r|].
  inversion Hl as [|? ? (H0 & H1 & H2 & _) Hl']; subst.
  destruct (String.eqb_spec seg ""); [contradiction|].
  destruct (String.eqb_spec seg "."); [contradiction|].
  destruct (String.eqb_spec seg ".."); [contradiction|].
  cbn [orb]. rewrite IH by exact Hl'. cbn [rev].
  now rewrite <- app_assoc.
Qed.

Lemma drop_common_prefix (l r : list string) :
  path.drop_common l (l ++ r) = ([], r).
Proof.
  induction l as [|x l IH]; [now destruct r|].
  cbn [app path.drop_common]. now rewrite String.eqb_refl.
Qed.

Lemma join_app (a b : list string) :
  a <> [] -> b <> [] ->
  Str.join "/" (a ++ b) = Str.join "/" a +:+ "/" +:+ Str.join "/" b.
Proof.
  intros Ha Hb. induction a as [|x a IH]; [contradiction|].
  destruct a as [|y a].
  - destruct b as [|z b]; [contradiction|reflexivity].
  - change (Str.join "/" ((x :: y :: a) ++ b))
      with (x +:+ "/" +:+ Str.join "/" ((y :: a) ++ b)).
    rewrite IH by discriminate.
    change (Str.join "/" (x :: y :: a))
      with (x +:+ "/" +:+ Str.join "/" (y :: a)).
    now rewrite !append_assoc.
Qed.

Lemma normal_join (l : list string) :
  Forall normal_segment l -> l <> [] ->
  Str.join "/" l <> "" /\ path.isAbsolute (Str.join "/" l) = false
  /\ Str.ends_with "/" (Str.join "/" l) = false.
Proof.
  intros Hl Hne. destruct l as [|e l]; [contradiction|].
  inversion Hl as [|? ? (He & _ & _ & Hs) _]; subst.
  destruct (join_relative e l He Hs) as [Hj Ha].
  split; [exact Hj|]. split; [exact Ha|].
  destruct (Str.ends_with "/" (Str.join "/" (e :: l))) eqn:Hend;
    [exfalso|reflexivity].
  destruct (ends_with_inv _ _ Hend) as [r Hr].
  apply (f_equal (Str.split "/")) in Hr.
  rewrite split_join in Hr by (try discriminate; now apply normal_no_slash).
  rewrite split_app_sep in Hr. cbn [Str.split] in Hr.
  assert (Hlast : In "" (e :: l)).
  { rewrite Hr. apply in_or_app. right. now left. }
  rewrite List.Forall_forall in Hl. now destruct (Hl _ Hlast) as [H _].
Qed.

(** A relative path of normal segments is already normalized. *)
Lemma normalize_normal (l : list string) :
  Forall normal_segment l -> l <> [] ->
  path.normalize (Str.join "/" l) = Str.join "/" l.
Proof.
  intros Hl Hne. destruct (normal_join l Hl Hne) as (Hj & Ha & He).
  unfold path.normalize. apply String.eqb_neq in Hj. rewrite Hj, Ha, He.
  cbn [negb]. unfold path.segments.
  rewrite split_join by (try assumption; now apply normal_no_slash).
  rewrite normalize_segments_of_normal_any by exact Hl. cbn [rev app].
  rewrite Hj.
  change ("" +:+ Str.join "/" l +:+ "") with (Str.join "/" l +:+ "").
  apply append_empty.
Qed.

(** The segments of a relative path, resolved: those of the working
    directory and its own. *)
Lemma segments_resolve_relative (cwd : string) (l : list string) :
  Forall normal_segment l -> l <> [] ->
  path.segments false (path.resolve cwd [Str.join "/" l])
  = (path.segments false cwd ++ l)%list.
Proof.
  intros Hl Hne. destruct (normal_join l Hl Hne) as (Hj & Ha & _).
  unfold path.resolve. rewrite segments_rooted by apply segments_normal.
  cbn [fold_left]. apply String.eqb_neq in Hj. rewrite Hj, Ha.
  unfold path.segments at 1.
  change (cwd +:+ "/" +:+ Str.join "/" l)
    with (cwd +:+ String "/" (Str.join "/" l)).
  rewrite split_app_sep, normalize_segments_app.
  fold (path.segments false cwd).
  rewrite split_join by (try assumption; now apply normal_no_slash).
  rewrite normalize_segments_of_normal by exact Hl.
  now rewrite rev_involutive.
Qed.

(** The path of a file inside a directory, relative to the directory. *)
Lemma relative_inside (cwd : string) (dir rest : list string) :
  Forall normal_segment dir -> Forall normal_segment rest -> dir <> [] ->
  path.relative cwd (Str.join "/" dir) (Str.join "/" (dir ++ rest))
  = Str.join "/" rest.
Proof.
  intros Hd Hr Hne. unfold path.relative.
  rewrite (segments_resolve_relative cwd dir Hd Hne).
  rewrite (segments_resolve_relative cwd (dir ++ rest));
    [|apply Forall_app; now split|now destruct dir].
  now rewrite app_assoc, drop_common_prefix.
Qed.

(** X22. The backup keeps the structure of the input directory: for an
    input directory, an output directory and a candidate inside the input
    directory, all given as relative paths of normal segments, the original
    is moved to the output directory followed by the path of the candidate
    inside the input directory. *)
Theorem backup_keeps_structure (inputDir outputDir rest : list string) :
  Forall normal_segment inputDir -> Forall normal_segment outputDir ->
  Forall normal_segment rest ->
  inputDir <> [] -> outputDir <> [] -> rest <> [] ->
  originalFileDest env (Str.join "/" inputDir) (Str.join "/" outputDir)
    (Str.join "/" (inputDir ++ rest))
  = Str.join "/" (outputDir ++ rest).
Proof.
  intros Hi Ho Hr Hin Hon Hrn. unfold originalFileDest.
  rewrite relative_inside by assumption.
  destruct (normal_join outputDir Ho Hon) as (Hoj & _ & _).
  destruct (normal_join rest Hr Hrn) as (Hrj & _ & _).
  unfold path.join. cbn [List.filter].
  apply String.eqb_neq in Hoj, Hrj. rewrite Hoj, Hrj. cbn [negb].
  change (Str.join "/" [Str.join "/" outputDir; Str.join "/" rest])
    with (Str.join "/" outputDir +:+ "/" +:+ Str.join "/" rest).
  rewrite <- join_app by assumption.
  apply normalize_normal; [apply Forall_app; now split|].
  now destruct outputDir.
Qed.

Lemma join_inj (a b : list string) :
  Forall normal_segment a -> Forall normal_segment b ->
  a <> [] -> b <> [] ->
  Str.join "/" a = Str.join "/" b -> a = b.
Proof.
  intros Ha Hb Hna Hnb H. apply (f_equal (Str.split "/")) in H.
  now rewrite !split_join in H by (try assumption; now apply normal_no_slash).
Qed.

(** X23. The rules of a candidate inside the input directory: the table
    has two rules for it, the first for its path inside the input
    directory and the second for its path from the working directory, in
    this order. *)
Theorem rules_for_both_spellings (inputDir rest : list string)
    (target : string) :
  Forall normal_segment inputDir -> Forall normal_segment rest ->
  inputDir <> [] -> rest <> [] ->
  map oldRel
      (rules_of env (Str.join "/" inputDir)
         (Str.join "/" (inputDir ++ rest)) target)
  = [ Str.join "/" rest; Str.join "/" (inputDir ++ rest) ].
Proof.
  intros Hi Hr Hin Hrn. rewrite rules_of_shape.
  rewrite relative_inside by assumption.
  destruct (String.eqb_spec (Str.join "/" (inputDir ++ rest))
              (Str.join "/" rest)) as [Heq|_]; [exfalso|reflexivity].
  apply join_inj in Heq; try assumption;
    [|apply Forall_app; now split|now destruct inputDir].
  apply (f_equal (@length string)) in Heq. rewrite length_app in Heq.
  destruct inputDir; [contradiction|]. cbn in Heq. lia.
Qed.

End InsideInputDirectory.

Section Snapshot.

Variable env : Env.

Lemma process_snapshot (inputDir outputDir : string) (fmt : Format)
    (q : nat) (lockValues : list string) (st : RunState) (c : string) :
  In c lockValues ->
  exists e,
    st_log (process env inputDir outputDir fmt q lockValues st c)
    = st_log st ++ [(c, e)]
    /\ (e = AlreadyConverted \/ e = GeneratedFile)
    /\ st_fs (process env inputDir outputDir fmt q lockValues st c)
       = st_fs st.
Proof.
  intros Hin.
  destruct (process_step env inputDir outputDir fmt q lockValues st c)
    as [t _ Hfs _ Hlog _ _|_ _ Hfs _ Hlog _ _|_ Hno _ _ _ _ _ _ _
        |_ Hno _ _ _ _ _|step _ Hno _ _]; try contradiction.
  - exists AlreadyConverted. split; [exact Hlog|]. split; [now left|exact Hfs].
  - exists GeneratedFile. split; [exact Hlog|]. split; [now right|exact Hfs].
Qed.

Lemma process_all_snapshot (inputDir outputDir : string) (fmt : Format)
    (q : nat) (lockValues : list string) (l : list string) :
  forall st c e,
    In (c, e)
       (st_log (process_all env inputDir outputDir fmt q lockValues st l)) ->
    In c lockValues ->
    In (c, e) (st_log st) \/ e = AlreadyConverted \/ e = GeneratedFile.
Proof.
  induction l as [|x l IH]; intros st c e Hin Hc; [now left|].
  cbn [process_all fold_left] in Hin.
  destruct (IH _ c e Hin Hc) as [Hlog|He]; [|now right].
  destruct (process_log env inputDir outputDir fmt q lockValues st x)
    as [e' Hlog'].
  rewrite Hlog' in Hlog. apply in_app_or in Hlog as [Hold|[Hnew|[]]];
    [now left|].
  injection Hnew as -> ->. right.
  destruct (process_snapshot inputDir outputDir fmt q lockValues st c Hc)
    as (e0 & Hlog0 & He0 & _).
  rewrite Hlog0 in Hlog'. apply app_inv_head in Hlog'.
  injection Hlog' as <-. exact He0.
Qed.

(** X24. A candidate that is a value of the lock file as loaded at the
    start of the run, that is the converted image of an earlier run, is
    never converted by this run: whatever happens to the other candidates,
    it is logged as already converted or as a generated file. *)
Theorem loaded_lock_values_are_never_converted (w w' : World) (o : Outcome)
    (c : string) (e : Event) :
  main env w = (o, w') ->
  In c (Lock.values (loadLockFile w)) ->
  In (c, e) (run_log o) ->
  e = AlreadyConverted \/ e = GeneratedFile.
Proof.
  intros H Hc Hin. destruct o as [| | |st table n]; try contradiction.
  destruct (main_Done env _ _ _ _ _ H)
    as (cfg & s & f & _ & _ & _ & Hst & _).
  cbn [run_log] in Hin. rewrite Hst in Hin.
  destruct (process_all_snapshot _ _ _ _ _ _ _ _ _ Hin Hc) as [[]|He].
  exact He.
Qed.

End Snapshot.

(* ================================================================== *)
(** * The rules applied to a text *)
(* ================================================================== *)

Section Application.

Import Regex Rewriter.

Lemma test_standalone (old s : string) :
  test (boundary_pattern old) s = true
  <-> exists i, occurs_at old s i /\ standalone s i.
Proof.
  unfold test. split.
  - destruct (match_positions (boundary_pattern old) s) as [|i l] eqn:E;
      [discriminate|]. intros _. exists i.
    apply replaced_at_sound, replaced_at_iff. rewrite E. now left.
  - intros (i & Hocc & Hst).
    destruct (replaced_at_complete old s i Hocc Hst) as [H|(j & H & _)];
      apply replaced_at_iff in H;
      now destruct (match_positions (boundary_pattern old) s).
Qed.

Lemma after_rule_replace (s : string) (r : Replacement) :
  after_rule s r = replace (boundary_pattern (oldRel r)) s (newRel r).
Proof.
  unfold after_rule. rewrite apply_replacement_eq.
  unfold test.
  destruct (match_positions (boundary_pattern (oldRel r)) s) eqn:E;
    [|reflexivity].
  symmetry. now apply replace_without_match.
Qed.

Lemma apply_replacement_after (s : string) (r : Replacement) :
  apply_replacement s r
  = Some (replace (boundary_pattern (oldRel r)) s (newRel r),
          test (boundary_pattern (oldRel r)) s).
Proof.
  rewrite <- after_rule_replace. unfold after_rule.
  rewrite apply_replacement_eq. reflexivity.
Qed.

Lemma rewrite_content_fold (rules : list Replacement) :
  forall s b,
  exists b',
    rewrite_content rules s b
    = Some (fold_left
              (fun s r => replace (boundary_pattern (oldRel r)) s (newRel r))
              rules s, b')
    /\ (b = true -> b' = true).
Proof.
  induction rules as [|r rules IH]; intros s b; [now exists b|].
  cbn [rewrite_content fold_left]. rewrite apply_replacement_after.
  destruct (IH (replace (boundary_pattern (oldRel r)) s (newRel r))
              (b || test (boundary_pattern (oldRel r)) s))
    as (b' & Heq & Hb).
  exists b'. split; [exact Heq|]. intros ->. now apply Hb.
Qed.

Lemma rewrite_content_changes (rules : list Replacement) :
  forall s b,
    (exists r i, In r rules /\ occurs_at (oldRel r) s i /\ standalone s i) ->
    rewrite_content rules s b
    = Some (fold_left
              (fun s r => replace (boundary_pattern (oldRel r)) s (newRel r))
              rules s, true).
Proof.
  induction rules as [|r rules IH]; intros s b (r0 & i & Hin & Hocc & Hst);
    [destruct Hin|].
  destruct (test (boundary_pattern (oldRel r)) s) eqn:Ht.
  - destruct (rewrite_content_fold (r :: rules) s b) as (b' & Heq & _).
    cbn [rewrite_content fold_left] in *.
    rewrite apply_replacement_after, Ht in *. rewrite orb_true_r in *.
    destruct (rewrite_content_fold rules
                (replace (boundary_pattern (oldRel r)) s (newRel r)) true)
      as (b2 & Heq2 & Hb2).
    rewrite Heq2. now rewrite (Hb2 eq_refl).
  - cbn [rewrite_content fold_left]. rewrite apply_replacement_after, Ht.
    assert (Hs : replace (boundary_pattern (oldRel r)) s (newRel r) = s).
    { apply replace_without_match. unfold test in Ht.
      now destruct (match_positions (boundary_pattern (oldRel r)) s). }
    rewrite Hs. apply IH. exists r0, i.
    destruct Hin as [->|Hin]; [|split; [assumption|split; assumption]].
    exfalso. assert (Htrue : test (boundary_pattern (oldRel r0)) s = true)
      by (apply test_standalone; now exists i).
    congruence.
Qed.

Lemma updateReferences_rewrites (read_ok write_ok : string -> bool)
    (rules : list Replacement) (texts : list (string * string))
    (p s : string) :
  In (p, s) texts -> read_ok p = true -> write_ok p = true ->
  (exists r i, In r rules /\ occurs_at (oldRel r) s i /\ standalone s i) ->
  In (p, fold_left
           (fun s r => replace (boundary_pattern (oldRel r)) s (newRel r))
           (sort_replacements rules) s)
     (fst (updateReferences read_ok write_ok rules texts))
  /\ 0 < snd (updateReferences read_ok write_ok rules texts).
Proof.
  intros Hin Hr Hw (r & i & Hrin & Hocc & Hst).
  assert (Hup : update_file read_ok write_ok (sort_replacements rules) (p, s)
                = ((p, fold_left
                         (fun s r => replace (boundary_pattern (oldRel r)) s
                                       (newRel r))
                         (sort_replacements rules) s), true)).
  { unfold update_file. cbn [fst snd]. rewrite Hr, Hw. cbn [negb].
    rewrite (rewrite_content_changes (sort_replacements rules) s false);
      [reflexivity|].
    exists r, i. split; [|split; assumption].
    apply (Permutation_in _ (sort_replacements_perm rules)), Hrin. }
  unfold updateReferences. cbn [fst snd].
  apply (in_map (update_file read_ok write_ok (sort_replacements rules)))
    in Hin.
  rewrite Hup in Hin. split.
  - apply in_map_iff. eexists. split; [|exact Hin]. reflexivity.
  - assert (Hf : In ((p, fold_left
                         (fun s r => replace (boundary_pattern (oldRel r)) s
                                       (newRel r))
                         (sort_replacements rules) s), true)
                    (List.filter (fun r => snd r)
                       (map (update_file read_ok write_ok
                               (sort_replacements rules)) texts))).
    { apply filter_In. now split. }
    destruct (List.filter _ _); [destruct Hf|simpl; lia].
Qed.

End Application.

Section RebuiltTable.

Variable env : Env.

(** C6. In a run that reaches its end the table of replacements is built
    from the final lock data alone, whatever the loop had pushed: for each
    entry (original, target), in order, one rule with both paths relative
    to the input directory, followed by a rule with the original as it is
    and the target relative to the working directory of the process when
    the original differs from its path relative to the input directory.
    An entry of the lock file whose original was not a candidate of this
    run is still in the lock data, which is what the lock file is
    written from, and its rules are in the table.  When the references
    are updated it is this table that is applied: a text file that can be
    read and written and in which the old path of some rule of the table
    has a standalone occurrence is afterwards the text with the rules of
    the sorted table applied one after the other, each as a global
    replace of its pattern, and the count of updated files is positive. *)
Theorem C6_table_rebuilt_from_final_lock (w w' : World) (st : RunState)
    (table : list Replacement) (n : option nat) :
  main env w = (Done st table n, w') ->
  exists config,
    loadConfig w = Some config
    /\ let inputDir := default EmptyString (input config) in
       let target t := path.resolve (cwd env) [cwd env; t] in
       let rules o t :=
         {| oldRel := path.relative (cwd env) inputDir o;
            newRel := path.relative (cwd env)
                        (path.resolve (cwd env) [cwd env; inputDir])
                        (target t) |}
         :: (if String.eqb o (path.relative (cwd env) inputDir o) then []
             else [ {| oldRel := o;
                       newRel := path.relative (cwd env) (cwd env)
                                   (target t) |} ]) in
       table
       = flat_map (fun e => rules_of env inputDir (fst e) (target (snd e)))
                  (st_lockData st)
       /\ (forall o t, rules_of env inputDir o (target t) = rules o t)
       /\ table = flat_map (fun e => rules (fst e) (snd e)) (st_lockData st)
       /\ (lock_write_ok env = true ->
           lock_file w' = LockJson (st_lockData st))
       /\ (forall o t,
             In (o, t) (loadLockFile w) ->
             ~ In o (map fst (st_log st)) ->
             In (o, t) (st_lockData st)
             /\ (forall r, In r (rules_of env inputDir o (target t)) ->
                           In r table)
             /\ (forall r, In r (rules o t) -> In r table))
       /\ (forall k, n = Some k ->
             texts w'
             = fst (Rewriter.updateReferences (text_read_ok env)
                      (text_write_ok env) table (texts w))
             /\ forall p s,
                  In (p, s) (texts w) ->
                  text_read_ok env p = true ->
                  text_write_ok env p = true ->
                  (exists r i, In r table /\ occurs_at (oldRel r) s i
                               /\ standalone s i) ->
                  In (p, fold_left
                           (fun s r =>
                              Regex.replace (boundary_pattern (oldRel r)) s
                                (newRel r))
                           (Rewriter.sort_replacements table) s)
                     (texts w')
                  /\ 0 < k).
Proof.
  intros Hmain.
  destruct (main_Done env w w' st table n Hmain)
    as (config & settings & files & Hcfg & Hset & Hfiles & Hst & Htable
        & Hpaths & Hconf & Hlock & Hsome & Hnone).
  exists config. split; [assumption|]. cbv zeta.
  rewrite rebuild_replacements_flat_map in Htable.
  split; [assumption|]. split; [intros; apply rules_of_shape|].
  split.
  { rewrite Htable. apply flat_map_ext. intros [o t].
    apply rules_of_shape. }
  split; [intros Hw; now rewrite Hw in Hlock|].
  split.
  - intros o t Hin Hnot.
    assert (Hkept : In (o, t) (st_lockData st)).
    { rewrite Hst. apply process_all_keeps_entry; [|assumption].
      intros Ho. apply Hnot. rewrite Hst, process_all_log. simpl.
      assumption. }
    split; [assumption|].
    assert (Hr : forall r,
               In r (rules_of env (default EmptyString (input config)) o
                       (path.resolve (cwd env) [cwd env; t])) ->
               In r table).
    { intros r Hr. rewrite Htable. apply in_flat_map.
      exists (o, t). split; assumption. }
    split; [exact Hr|]. intros r. rewrite <- rules_of_shape. apply Hr.
  - intros k Hk. destruct (Hsome k Hk) as [Ht Hcount].
    split; [exact Ht|]. intros p s Hin Hread Hwrite Hocc.
    rewrite Ht, Hcount.
    now apply updateReferences_rewrites.
Qed.

End RebuiltTable.

(* ================================================================== *)
(** * Longest old path first *)
(* ================================================================== *)

Section Precedence.

Import Regex Rewriter.
Local Open Scope string_scope.

Lemma take_append_drop (k m : nat) (r : string) :
  Str.take k r +:+ Str.take m (Str.drop k r) = Str.take (k + m) r.
Proof.
  revert r. induction k as [|k IH]; intros r; [reflexivity|].
  destruct r as [|c r]; [now destruct m|].
  cbn [Str.take Str.drop Nat.add].
  change (String c (Str.take k r +:+ Str.take m (Str.drop k r))
          = String c (Str.take (k + m) r)).
  now rewrite IH.
Qed.

Lemma drop_append_length (p x : string) :
  Str.drop (String.length p) (p +:+ x) = x.
Proof. induction p as [|c p IH]; [reflexivity|]. exact IH. Qed.

Lemma take_append_length (p x : string) :
  Str.take (String.length p) (p +:+ x) = p.
Proof.
  induction p as [|c p IH]; [reflexivity|].
  change (String c (Str.take (String.length p) (p +:+ x)) = String c p).
  now rewrite IH.
Qed.

Lemma drop_drop (k i : nat) (s : string) :
  Str.drop k (Str.drop i s) = Str.drop (i + k) s.
Proof.
  revert s. induction i as [|i IH]; intros s; [reflexivity|].
  destruct s as [|c s]; [now destruct k|]. exact (IH s).
Qed.

Lemma starts_with_agree (x y t : string) :
  Str.starts_with x t = true -> Str.starts_with y t = true ->
  agree x y = true.
Proof.
  revert y t. induction x as [|a x IH]; intros [|b y] [|c t] Hx Hy;
    try reflexivity; try discriminate.
  cbn in Hx, Hy. apply andb_true_iff in Hx as [Hac Hx].
  apply andb_true_iff in Hy as [Hbc Hy].
  apply Ascii.eqb_eq in Hac as ->. apply Ascii.eqb_eq in Hbc as ->.
  cbn. rewrite Ascii.eqb_refl. exact (IH y t Hx Hy).
Qed.

Lemma occurrences_agree (x y s : string) (i k : nat) :
  occurs_at x s i -> occurs_at y s (i + k) ->
  overlap_at x y k = true.
Proof.
  intros [_ Hx] [_ Hy]. rewrite <- drop_drop in Hy.
  unfold overlap_at. revert Hx Hy. generalize (Str.drop i s) as t.
  revert x. induction k as [|k IH]; intros x t Hx Hy.
  - exact (starts_with_agree x y t Hx Hy).
  - destruct x as [|a x]; [now destruct y|].
    destruct t as [|c t]; [discriminate|].
    cbn in Hx. apply andb_true_iff in Hx as [_ Hx].
    exact (IH x t Hx Hy).
Qed.

Lemma existsb_seq (f : nat -> bool) (a n k : nat) :
  a <= k < a + n -> f k = true -> existsb f (seq a n) = true.
Proof.
  intros Hk Hf. apply existsb_exists. exists k.
  split; [|exact Hf]. apply in_seq. lia.
Qed.

(** Where no occurrence of the old path can share a character with an
    occurrence of the new path, no match of the rule for the old path
    touches an occurrence of the new path. *)
Lemma cannot_overlap_untouched (new old s : string) (start : nat) :
  can_overlap new old = false ->
  occurs_at new s start ->
  untouched old s start (start + String.length new).
Proof.
  intros Hno Hnew j Hj. apply replaced_at_sound in Hj as [Hold _].
  apply orb_false_iff in Hno as [Hin Hout].
  destruct (le_lt_dec (j + String.length old) start) as [|Hend];
    [now left|].
  destruct (le_lt_dec (start + String.length new) j) as [|Hbegin];
    [now right|].
  exfalso. destruct (le_lt_dec start j) as [Hle|Hlt].
  - replace j with (start + (j - start)) in Hold by lia.
    pose proof (occurrences_agree new old s start (j - start) Hnew Hold)
      as Hov.
    rewrite (existsb_seq (overlap_at new old) 0 (String.length new)
               (j - start) ltac:(lia) Hov) in Hin.
    discriminate Hin.
  - replace start with (j + (start - j)) in Hnew by lia.
    pose proof (occurrences_agree old new s j (start - j) Hold Hnew)
      as Hov.
    rewrite (existsb_seq (overlap_at old new) 1 (String.length old - 1)
               (start - j) ltac:(lia) Hov) in Hout.
    discriminate Hout.
Qed.

(** ** The pieces of a scan around a stretch without a match *)

Lemma rendered_app (re : pattern) (s replacement : string)
    (a b : list piece) :
  rendered re s replacement (a ++ b)
  = rendered re s replacement a +:+ rendered re s replacement b.
Proof.
  unfold rendered. induction a as [|p a IH]; [reflexivity|].
  cbn [fold_right app]. now rewrite IH, append_assoc.
Qed.

Lemma rendered_kept (re : pattern) (s replacement x : string) :
  rendered re s replacement (map Kept (Str.chars x)) = x.
Proof.
  unfold rendered. induction x as [|c x IH]; [reflexivity|].
  cbn [Str.chars map fold_right render]. now rewrite IH.
Qed.

Lemma length_take (k : nat) (r : string) :
  String.length (Str.take k r) = Nat.min k (String.length r).
Proof.
  revert r. induction k as [|k IH]; intros [|c r]; try reflexivity.
  cbn [Str.take String.length Nat.min]. now rewrite IH.
Qed.

Section Stretch.

Variables (re : pattern) (s : string).

Lemma render_whole_match (i : nat) :
  render re s "$&" (Replaced i)
  = Str.take (length (literal re)) (Str.drop i s).
Proof. cbn [render]. apply getSubstitution_whole_match. Qed.

Lemma match_here_fits (pos : nat) (rest : string) :
  match_here re (text_before s pos) rest = true ->
  length (literal re) <= String.length rest.
Proof.
  intros Hm. apply andb_true_iff in Hm as [_ Hlit].
  apply starts_with_length in Hlit. now rewrite of_chars_length in Hlit.
Qed.

(** From the start of the stretch on, the characters up to [b] are
    copied, after an empty match at the start if there is one. *)
Lemma scan_copies (rest : string) :
  forall pos b,
    Str.drop pos s = rest -> pos <= b <= String.length s ->
    (forall j, In (Replaced j) (scan re (text_before s pos) pos 0 rest) ->
               j + length (literal re) <= pos \/ b <= j) ->
    exists E B,
      scan re (text_before s pos) pos 0 rest
      = (E ++ map Kept (Str.chars (Str.take (b - pos) rest)) ++ B)%list
      /\ (E = [] \/ E = [Replaced pos])
      /\ rendered re s "$&" E = EmptyString.
Proof.
  induction rest as [|c r IH]; intros pos b Hdrop Hb Hfree.
  - exists [], (scan re (text_before s pos) pos 0 EmptyString).
    split; [now destruct (b - pos)|]. split; [now left|reflexivity].
  - destruct (Nat.eq_dec b pos) as [->|Hne].
    { exists [], (scan re (text_before s pos) pos 0 (String c r)).
      split; [now rewrite Nat.sub_diag|]. split; [now left|reflexivity]. }
    pose proof (drop_S pos s r c Hdrop) as HdropS.
    pose proof (text_before_cons s r c pos Hdrop) as Htb.
    assert (Hstep : exists X,
               scan re (text_before s pos) pos 0 (String c r)
               = (X ++ Kept c :: scan re (text_before s (S pos)) (S pos) 0 r)%list
               /\ (X = [] \/ X = [Replaced pos])
               /\ rendered re s "$&" X = EmptyString).
    { cbn [scan] in Hfree |- *. rewrite <- Htb in Hfree |- *.
      destruct (match_here re (text_before s pos) (String c r)) eqn:Hm.
      - assert (Hn : length (literal re) = 0).
        { destruct (Hfree pos (or_introl eq_refl)); lia. }
        rewrite Hn. exists [Replaced pos]. split; [reflexivity|].
        split; [now right|]. unfold rendered. cbn [fold_right].
        rewrite render_whole_match, Hn. reflexivity.
      - exists []. split; [reflexivity|]. split; [now left|reflexivity]. }
    destruct Hstep as (X & HX & HXs & HXr). rewrite HX in Hfree |- *.
    assert (Hsub : b - pos = S (b - S pos)) by lia.
    rewrite Hsub. cbn [Str.take Str.chars map].
    destruct (Nat.eq_dec b (S pos)) as [->|Hne2].
    + exists X, (scan re (text_before s (S pos)) (S pos) 0 r).
      rewrite Nat.sub_diag. split; [reflexivity|]. split; assumption.
    + destruct (IH (S pos) b HdropS ltac:(lia)) as (E' & B' & Heq & HE' & _).
      { intros j Hj.
        destruct (Hfree j) as [H|H]; [|left; lia|now right].
        apply in_or_app. right. now right. }
      destruct HE' as [-> | ->].
      * exists X, B'. rewrite Heq. split; [reflexivity|]. split; assumption.
      * exfalso. destruct (Hfree (S pos)) as [H|H]; [|lia|lia].
        apply in_or_app. right. right. rewrite Heq. now left.
Qed.

(** A stretch of the text that no match touches is copied character by
    character, and the pieces before it make up the text before it. *)
Lemma scan_stretch (rest : string) :
  forall pos skip a b,
    Str.drop pos s = rest -> pos + skip <= a -> a <= b <= String.length s ->
    (forall j, In (Replaced j) (scan re (text_before s pos) pos skip rest) ->
               j + length (literal re) <= a \/ b <= j) ->
    exists A B,
      scan re (text_before s pos) pos skip rest
      = (A ++ map Kept (Str.chars (Str.take (b - a) (Str.drop a s))) ++ B)%list
      /\ rendered re s "$&" A
         = Str.take (a - pos - skip) (Str.drop skip rest).
Proof.
  induction rest as [|c r IH]; intros pos skip a b Hdrop Ha Hb Hfree.
  - pose proof (drop_length pos s) as Hl. rewrite Hdrop in Hl.
    cbn [String.length] in Hl.
    assert (a = pos) by lia. subst a. assert (skip = 0) by lia. subst skip.
    destruct (scan_copies EmptyString pos b Hdrop ltac:(lia) Hfree)
      as (E & B & Heq & _ & HE).
    exists E, B. rewrite Heq, Hdrop, HE. split; [reflexivity|].
    now rewrite Nat.sub_diag.
  - pose proof (drop_S pos s r c Hdrop) as HdropS.
    pose proof (text_before_cons s r c pos Hdrop) as Htb.
    destruct skip as [|k].
    + destruct (Nat.eq_dec a pos) as [->|Hne].
      { destruct (scan_copies (String c r) pos b Hdrop ltac:(lia) Hfree)
          as (E & B & Heq & _ & HE).
        exists E, B. rewrite Heq, Hdrop, HE. split; [reflexivity|].
        now rewrite Nat.sub_diag. }
      cbn [scan] in Hfree |- *. rewrite <- Htb in Hfree |- *.
      assert (Hsub : a - pos - 0 = S (a - S pos)) by lia.
      rewrite Hsub. cbn [Str.drop Str.take].
      destruct (match_here re (text_before s pos) (String c r)) eqn:Hm.
      * assert (Hfit : pos + length (literal re) <= a).
        { destruct (Hfree pos (or_introl eq_refl)); lia. }
        pose proof (match_here_fits pos _ Hm) as Hlen.
        cbn [String.length] in Hlen.
        destruct (length (literal re)) as [|k] eqn:Hn.
        -- destruct (IH (S pos) 0 a b HdropS ltac:(lia) Hb)
             as (A' & B' & Heq & HA').
           { intros j Hj. apply Hfree. right. now right. }
           exists (Replaced pos :: Kept c :: A'), B'. rewrite Heq.
           split; [reflexivity|]. unfold rendered in *.
           cbn [fold_right]. rewrite render_whole_match, Hn, HA'.
           cbn [render Str.take Str.drop]. rewrite Nat.sub_0_r. reflexivity.
        -- destruct (IH (S pos) k a b HdropS ltac:(lia) Hb)
             as (A' & B' & Heq & HA').
           { intros j Hj. apply Hfree. now right. }
           exists (Replaced pos :: A'), B'. rewrite Heq.
           split; [reflexivity|]. unfold rendered in *.
           cbn [fold_right]. rewrite render_whole_match, Hn, HA', Hdrop.
           cbn [Str.take].
           change (String c (Str.take k r
                             +:+ Str.take (a - S pos - k) (Str.drop k r))
                   = String c (Str.take (a - S pos) r)).
           rewrite take_append_drop. f_equal. f_equal. lia.
      * destruct (IH (S pos) 0 a b HdropS ltac:(lia) Hb)
          as (A' & B' & Heq & HA').
        { intros j Hj. apply Hfree. now right. }
        exists (Kept c :: A'), B'. rewrite Heq.
        split; [reflexivity|]. unfold rendered in *.
        cbn [fold_right render]. rewrite HA'.
        cbn [Str.drop]. change (String c (Str.take (a - S pos - 0) r)
                                = String c (Str.take (a - S pos) r)).
        f_equal. f_equal. lia.
    + cbn [scan] in Hfree |- *. rewrite <- Htb in Hfree |- *.
      destruct (IH (S pos) k a b HdropS ltac:(lia) Hb Hfree)
        as (A' & B' & Heq & HA').
      exists A', B'. split; [exact Heq|]. rewrite HA'. cbn [Str.drop].
      f_equal. lia.
Qed.

(** A match stands where the pieces before it end. *)
Lemma scan_position (rest : string) :
  forall pos skip pre post i,
    Str.drop pos s = rest -> skip <= String.length rest ->
    scan re (text_before s pos) pos skip rest
    = (pre ++ Replaced i :: post)%list ->
    i = pos + skip + String.length (rendered re s "$&" pre).
Proof.
  induction rest as [|c r IH]; intros pos skip pre post i Hdrop Hskip Heq.
  - cbn [String.length] in Hskip. assert (skip = 0) by lia. subst skip.
    cbn [scan Nat.eqb andb] in Heq.
    destruct (match_here re (text_before s pos) EmptyString).
    + destruct pre as [|p pre]; [|destruct pre; discriminate Heq].
      injection Heq as ->. cbn. lia.
    + destruct pre; discriminate Heq.
  - pose proof (drop_S pos s r c Hdrop) as HdropS.
    pose proof (text_before_cons s r c pos Hdrop) as Htb.
    cbn [scan] in Heq. rewrite <- Htb in Heq.
    cbn [String.length] in Hskip.
    destruct skip as [|k].
    + destruct (match_here re (text_before s pos) (String c r)) eqn:Hm.
      * pose proof (match_here_fits pos _ Hm) as Hlen.
        cbn [String.length] in Hlen.
        destruct pre as [|p pre]; cbn [app] in Heq.
        { injection Heq as -> _. cbn. lia. }
        injection Heq as <- Heq.
        unfold rendered. cbn [fold_right]. fold (rendered re s "$&" pre).
        rewrite render_whole_match, length_append, length_take, Hdrop.
        cbn [String.length].
        destruct (length (literal re)) as [|k] eqn:Hn.
        -- destruct pre as [|q pre]; [discriminate Heq|].
           cbn [app] in Heq. injection Heq as <- Heq.
           rewrite (IH (S pos) 0 pre post i HdropS ltac:(lia) Heq).
           unfold rendered. cbn [fold_right render].
           fold (rendered re s "$&" pre).
           change (String.length (String c EmptyString
                                  +:+ rendered re s "$&" pre))
             with (S (String.length (rendered re s "$&" pre))).
           lia.
        -- rewrite (IH (S pos) k pre post i HdropS ltac:(lia) Heq). lia.
      * destruct pre as [|p pre]; [discriminate Heq|].
        cbn [app] in Heq. injection Heq as <- Heq.
        rewrite (IH (S pos) 0 pre post i HdropS ltac:(lia) Heq).
        unfold rendered. cbn [fold_right render].
        fold (rendered re s "$&" pre).
        change (String.length (String c EmptyString
                               +:+ rendered re s "$&" pre))
          with (S (String.length (rendered re s "$&" pre))).
        lia.
    + rewrite (IH (S pos) k pre post i HdropS ltac:(lia) Heq). lia.
Qed.

Lemma pieces_position (pre post : list piece) (i : nat) :
  pieces re s = (pre ++ Replaced i :: post)%list ->
  i = String.length (rendered re s "$&" pre)
  /\ i + length (literal re) <= String.length s
  /\ match_here re (text_before s i) (Str.drop i s) = true.
Proof.
  intros Heq.
  pose proof (scan_position s 0 0 pre post i eq_refl (Nat.le_0_l _) Heq)
    as Hi.
  assert (Hin : In (Replaced i) (pieces re s)).
  { rewrite Heq. apply in_or_app. right. now left. }
  destruct (scan_sound re s s 0 0 i eq_refl (Nat.le_0_l _) Hin) as [Hr Hm].
  split; [exact Hi|]. split; [|exact Hm].
  pose proof (match_here_fits i _ Hm) as Hfit.
  rewrite drop_length in Hfit. lia.
Qed.

Lemma pieces_stretch (a b : nat) :
  a <= b <= String.length s ->
  (forall j, In (Replaced j) (pieces re s) ->
             j + length (literal re) <= a \/ b <= j) ->
  exists A B,
    pieces re s
    = (A ++ map Kept (Str.chars (Str.take (b - a) (Str.drop a s))) ++ B)%list
    /\ rendered re s "$&" A = Str.take a s.
Proof.
  intros Hb Hfree.
  destruct (scan_stretch s 0 0 a b eq_refl (Nat.le_0_l _) Hb Hfree)
    as (A & B & Heq & HA).
  exists A, B. split; [exact Heq|].
  rewrite HA. cbn [Str.drop]. f_equal. lia.
Qed.

End Stretch.

Lemma rendered_around (re : pattern) (s replacement : string)
    (pre post : list piece) (i : nat) :
  rendered re s replacement (pre ++ Replaced i :: post)%list
  = rendered re s replacement pre
    +:+ render re s replacement (Replaced i)
    +:+ rendered re s replacement post.
Proof. now rewrite rendered_app. Qed.

(** Conversely, in a scan that copies a stretch no match touches it. *)
Lemma stretch_untouched (re : pattern) (s x : string) (A B : list piece)
    (j : nat) :
  pieces re s = (A ++ map Kept (Str.chars x) ++ B)%list ->
  In (Replaced j) (pieces re s) ->
  j + length (literal re) <= String.length (rendered re s "$&" A)
  \/ String.length (rendered re s "$&" A) + String.length x <= j.
Proof.
  intros Heq Hin. rewrite Heq in Hin.
  apply in_app_or in Hin as [Hin|Hin]; [|apply in_app_or in Hin as [Hin|Hin]].
  - left. apply in_split in Hin as (A1 & A2 & ->).
    rewrite <- app_assoc in Heq. cbn [app] in Heq.
    destruct (pieces_position re s A1 _ j Heq) as (Hj & Hfit & _).
    rewrite rendered_around, render_whole_match, !length_append,
      length_take, drop_length, <- Hj.
    lia.
  - apply in_map_iff in Hin as (c & Hc & _). discriminate Hc.
  - right. apply in_split in Hin as (B1 & B2 & ->).
    rewrite !app_assoc in Heq.
    destruct (pieces_position re s _ _ j Heq) as (Hj & _).
    rewrite !rendered_app, rendered_kept, !length_append in Hj. lia.
Qed.

(** In a sorted table a rule with a longer old path stands before one
    with a shorter old path. *)
Lemma sorted_longer_before (l : list Replacement) (long short : Replacement) :
  StronglySorted longer_first l ->
  String.length (oldRel short) < String.length (oldRel long) ->
  In long l -> In short l ->
  exists l1 l2 l3, l = (l1 ++ long :: l2 ++ short :: l3)%list.
Proof.
  intros Hs Hlt. induction Hs as [|x l Hs IH Hx]; intros Hl Hsh;
    [destruct Hl|].
  rewrite List.Forall_forall in Hx. unfold longer_first in Hx.
  destruct Hsh as [->|Hsh].
  - exfalso. destruct Hl as [->|Hl]; [lia|].
    specialize (Hx long Hl). lia.
  - destruct Hl as [->|Hl].
    + apply in_split in Hsh as (l2 & l3 & ->). now exists [], l2, l3.
    + destruct (IH Hl Hsh) as (l1 & l2 & l3 & ->).
      now exists (x :: l1), l2, l3.
Qed.

(** C8, as the program has it.  The rules of any table are applied one
    after the other, each as a global replace on the text the rules
    before it leave, in the order of the sorted table: a permutation of the
    table in which no old path is longer than one before it, so that of two
    rules of the table whose old paths differ in length the longer one
    stands before the shorter one.  An occurrence of the old path that the
    longer rule matches, at position [i], is replaced by its new path,
    which stands in the rewritten text where the rewritten text before the
    occurrence ends.  When the shorter rule is applied to that text, the
    inserted path is copied character by character exactly when no match
    of the shorter rule touches it; and no match can touch it when no
    occurrence of the shorter old path can share a character with an
    occurrence of the new path. *)
Theorem C8_longest_rule_first (rules : list Replacement)
    (long short : Replacement) (s : string) :
  let applied s r := replace (boundary_pattern (oldRel r)) s (newRel r) in
  Permutation rules (sort_replacements rules)
  /\ StronglySorted longer_first (sort_replacements rules)
  /\ (exists changed,
        rewrite_content (sort_replacements rules) s false
        = Some (fold_left applied (sort_replacements rules) s, changed))
  /\ (String.length (oldRel short) < String.length (oldRel long) ->
      (In long rules -> In short rules ->
       exists l1 l2 l3,
         sort_replacements rules = (l1 ++ long :: l2 ++ short :: l3)%list)
      /\ sort_replacements [short; long] = [long; short]
      /\ sort_replacements [long; short] = [long; short]
      /\ option_map fst
           (rewrite_content (sort_replacements [short; long]) s false)
         = Some (after_rule (after_rule s long) short)
      /\ after_rule (after_rule s long) short
         = applied (applied s long) short
      /\ ((forall i, ~ (occurs_at (oldRel short) (after_rule s long) i
                        /\ standalone (after_rule s long) i)) ->
          option_map fst
            (rewrite_content (sort_replacements [short; long]) s false)
          = Some (after_rule s long)))
  /\ (forall pre post i,
        no_dollar (newRel long) ->
        pieces (boundary_pattern (oldRel long)) s
        = (pre ++ Replaced i :: post)%list ->
        let re := boundary_pattern (oldRel long) in
        let re' := boundary_pattern (oldRel short) in
        let s1 := applied s long in
        let before := rendered re s (newRel long) pre in
        let start := String.length before in
        occurs_at (oldRel long) s i /\ standalone s i
        /\ i = String.length (rendered re s "$&" pre)
        /\ s = rendered re s "$&" pre +:+ oldRel long
               +:+ rendered re s "$&" post
        /\ s1 = before +:+ newRel long +:+ rendered re s (newRel long) post
        /\ (can_overlap (newRel long) (oldRel short) = false ->
            untouched (oldRel short) s1 start
              (start + String.length (newRel long)))
        /\ (untouched (oldRel short) s1 start
              (start + String.length (newRel long))
            <-> exists A B,
                  pieces re' s1
                  = (A ++ map Kept (Str.chars (newRel long)) ++ B)%list
                  /\ rendered re' s1 "$&" A = before)
        /\ (forall A B,
              pieces re' s1
              = (A ++ map Kept (Str.chars (newRel long)) ++ B)%list ->
              applied s1 short
              = rendered re' s1 (newRel short) A +:+ newRel long
                +:+ rendered re' s1 (newRel short) B)).
Proof.
  cbv zeta.
  split; [apply sort_replacements_perm|].
  split; [apply sort_replacements_sorted|].
  split.
  { destruct (rewrite_content_fold (sort_replacements rules) s false)
      as (b & Hb & _). now exists b. }
  split.
  - intros Hlt. destruct (sort_pair long short Hlt) as [H1 H2].
    split.
    { intros Hl Hsh.
      apply sorted_longer_before;
        [apply sort_replacements_sorted|assumption| |];
        now apply (Permutation_in _ (sort_replacements_perm rules)). }
    repeat split; try assumption.
    + rewrite H1. apply rewrite_content_pair.
    + now rewrite !after_rule_replace.
    + intros Hno. rewrite H1, rewrite_content_pair. f_equal.
      unfold after_rule at 1.
      now rewrite (apply_replacement_unchanged _ short Hno).
  - intros pre post i Hnew Hpieces.
    destruct (pieces_position _ s pre post i Hpieces) as (Hi & Hfit & Hm).
    assert (Hle : i <= String.length s) by lia.
    apply (match_here_boundary (oldRel long) s i Hle) in Hm as [Hocc Hst].
    assert (Hs1 : replace (boundary_pattern (oldRel long)) s (newRel long)
                  = rendered (boundary_pattern (oldRel long)) s (newRel long)
                      pre
                    +:+ newRel long
                    +:+ rendered (boundary_pattern (oldRel long)) s
                          (newRel long) post).
    { unfold replace. rewrite Hpieces, rendered_around.
      cbn [render]. now rewrite (getSubstitution_literal _ _ _ _ Hnew). }
    assert (Hat : occurs_at (newRel long)
                    (replace (boundary_pattern (oldRel long)) s
                       (newRel long))
                    (String.length
                       (rendered (boundary_pattern (oldRel long)) s
                          (newRel long) pre))).
    { rewrite Hs1. split; [rewrite length_append; lia|].
      rewrite drop_append_length. apply starts_with_append. }
    split; [assumption|]. split; [assumption|]. split; [assumption|].
    split.
    { rewrite <- (replace_whole_match (boundary_pattern (oldRel long)) s)
        at 1.
      unfold replace. rewrite Hpieces, rendered_around, render_whole_match.
      cbn [literal boundary_pattern]. rewrite chars_length.
      now rewrite (starts_with_take _ _ (proj2 Hocc)). }
    split; [exact Hs1|].
    split; [intros Hno; now apply cannot_overlap_untouched|].
    split.
    + split.
      * intros Hfree.
        destruct (pieces_stretch (boundary_pattern (oldRel short))
                    (replace (boundary_pattern (oldRel long)) s
                       (newRel long))
                    (String.length
                       (rendered (boundary_pattern (oldRel long)) s
                          (newRel long) pre))
                    (String.length
                       (rendered (boundary_pattern (oldRel long)) s
                          (newRel long) pre)
                     + String.length (newRel long)))
          as (A & B & Heq & HA).
        { rewrite Hs1, !length_append. lia. }
        { intros j Hj. cbn [literal boundary_pattern].
          rewrite chars_length. apply Hfree.
          now apply replaced_at_iff, match_positions_In. }
        exists A, B.
        replace (_ + String.length (newRel long) - _)
          with (String.length (newRel long)) in Heq by lia.
        rewrite Hs1 in Heq at 2. rewrite Hs1 in HA at 2.
        rewrite drop_append_length, take_append_length in Heq.
        rewrite take_append_length in HA. split; assumption.
      * intros (A & B & Heq & HA) j Hj.
        apply replaced_at_iff, match_positions_In in Hj.
        pose proof (stretch_untouched _ _ _ A B j Heq Hj) as H.
        cbn [literal boundary_pattern] in H.
        now rewrite chars_length, HA in H.
    + intros A B Heq. unfold replace at 1.
      now rewrite Heq, !rendered_app, rendered_kept.
Qed.

End Precedence.

(* ================================================================== *)
(** * Concrete runs *)
(* ================================================================== *)

Section Examples.

Import Scenario.
Local Open Scope string_scope.

(** The configurations of the scenarios are read back from their
    texts. *)
Example known_configs_read_back :
  List.Forall (fun c => readJSON_known (json_of_config c) = Some c)
              known_configs.
Proof. repeat (constructor; [vm_compute; reflexivity|]). constructor. Qed.

(** The scenario of the specification, end to end. *)
Example logo_run :
  main logo_env logo_world
  = (Done logo_st logo_table (Some 1), logo_world_done).
Proof. vm_compute. reflexivity. Qed.

Example logo_run_st :
  st_lockData logo_st = logo_lock
  /\ st_log logo_st = [ ("assets/icons/logo.png", Processed) ]
  /\ st_successCount logo_st = 1 /\ st_failCount logo_st = 0
  /\ st_fs logo_st = logo_fs_done ∪ {[ "/" ]}.
Proof. repeat split; vm_compute; reflexivity. Qed.

(** The examples of the specification for the boundary rule. *)
Example boundary_examples :
  Rewriter.rewrite_content [ {| oldRel := "img.png"; newRel := "img.webp" |} ]
    "bigimg.png other-img.png sub/img.png img.png" false
  = Some ("bigimg.png other-img.png sub/img.png img.webp", true).
Proof. vm_compute. reflexivity. Qed.

Example longest_match_example :
  Rewriter.rewrite_content
    (Rewriter.sort_replacements [short_rule; nested_rule])
    "a/b.png" false
  = Some ("a/b.webp", true).
Proof. vm_compute. reflexivity. Qed.

(** ** The decision on one candidate *)

(** The original is back in place, the lock entry and its target are
    there: the candidate is skipped as already converted, and the two
    rules for it are pushed. *)
Lemma C2_witness :
  let st' := process logo_env "assets" "backup" webp 80
               (Lock.values logo_lock) (state logo_fs_both logo_lock)
               "assets/icons/logo.png" in
  st_log st' = [ ("assets/icons/logo.png", AlreadyConverted) ]
  /\ st_replacements st'
     = [ {| oldRel := "icons/logo.png"; newRel := "icons/logo.webp" |};
         {| oldRel := "assets/icons/logo.png";
            newRel := "assets/icons/logo.webp" |} ]
  /\ st_lockData st' = logo_lock.
Proof.
  cbv zeta.
  destruct (proj1 (C2_lock_entry_decides logo_env "assets" "backup" webp 80
                     (Lock.values logo_lock)
                     (state logo_fs_both logo_lock)
                     "assets/icons/logo.png" "assets/icons/logo.webp"
                     eq_refl))
    as (Hlog & Hrules & Hlock & _).
  - discriminate.
  - vm_compute. reflexivity.
  - split; [exact Hlog|]. split; [|exact Hlock].
    rewrite Hrules. vm_compute. reflexivity.
Defined.

(** The lock entry of the image is the empty string and its target, the
    working directory, exists: the image is converted all the same, and
    the entry is overwritten. *)
Lemma C2_counterexample :
  let lock := [ ("assets/icons/logo.png", "") ] in
  let st' := process logo_env "assets" "backup" webp 80 (Lock.values lock)
               (state logo_fs lock) "assets/icons/logo.png" in
  Lock.get lock "assets/icons/logo.png" = Some ""
  /\ pathExists logo_env logo_fs (path.resolve "/w" ["/w"; ""]) = true
  /\ st_log st' = [ ("assets/icons/logo.png", Processed) ]
  /\ st_successCount st' = 1
  /\ st_lockData st'
     = [ ("assets/icons/logo.png", "assets/icons/logo.webp") ].
Proof. cbv zeta. repeat split; vm_compute; reflexivity. Qed.

(** The lock file is lost, the original is back in place, backup and
    converted image are there: the entry is written again, the rules are
    pushed and no file changes. *)
Lemma C3_witness :
  let st' := process logo_env "assets" "backup" webp 80 []
               (state logo_fs_both []) "assets/icons/logo.png" in
  st_log st' = [ ("assets/icons/logo.png", BackupExists) ]
  /\ Lock.get (st_lockData st') "assets/icons/logo.png"
     = Some "assets/icons/logo.webp"
  /\ st_replacements st'
     = [ {| oldRel := "icons/logo.png"; newRel := "icons/logo.webp" |};
         {| oldRel := "assets/icons/logo.png";
            newRel := "assets/icons/logo.webp" |} ]
  /\ st_fs st' = logo_fs_both.
Proof.
  cbv zeta.
  destruct (C3_backup_exists_repairs_lock logo_env "assets" "backup" webp
              80 [] (state logo_fs_both []) "assets/icons/logo.png")
    as (Hlog & Hrules & Hfs & _ & _ & _ & Hget).
  - intros t [[Hget _] _]. discriminate Hget.
  - intros [].
  - vm_compute. reflexivity.
  - vm_compute. reflexivity.
  - split; [exact Hlog|]. split; [|split; [|exact Hfs]].
    + rewrite Hget. vm_compute. reflexivity.
    + rewrite Hrules. vm_compute. reflexivity.
Defined.

(** The converted image of an earlier run is a candidate of this one. *)
Lemma C4_witness :
  st_log (process logo_env "assets" "backup" webp 80
            (Lock.values logo_lock) (state logo_fs_done logo_lock)
            "assets/icons/logo.webp")
  = [ ("assets/icons/logo.webp", GeneratedFile) ].
Proof.
  refine (proj1 (C4_generated_file_skipped logo_env "assets" "backup" webp
                   80 (Lock.values logo_lock) (state logo_fs_done logo_lock)
                   "assets/icons/logo.webp" _ _)).
  - intros t [[Hget _] _]. discriminate Hget.
  - now left.
Defined.

(** [a.png] and [a.webp] side by side and no lock file: the run converts
    [a.png] into [a.webp]; the candidate [a.webp] is then a value of the
    lock data and has no entry of its own, and it is converted, not
    skipped as a generated file. *)
Lemma C4_counterexample :
  let st1 := process twin_env "public" "backup" webp 80 []
               (state twin_fs []) "public/a.png" in
  let st2 := process twin_env "public" "backup" webp 80 [] st1
               "public/a.webp" in
  loadLockFile twin_world = []
  /\ (exists table n w', main twin_env twin_world = (Done st2 table n, w'))
  /\ In "public/a.webp" (Lock.values (st_lockData st1))
  /\ (forall t, ~ valid_lock_entry twin_env st1 "public/a.webp" t)
  /\ st_log st2
     = [ ("public/a.png", Processed); ("public/a.webp", Processed) ]
  /\ st_successCount st2 = 2.
Proof.
  cbv zeta. split; [reflexivity|]. split.
  { eexists _, _, _. vm_compute. reflexivity. }
  split; [vm_compute; tauto|]. split.
  { intros t [[Hget _] _]. vm_compute in Hget. discriminate Hget. }
  split; vm_compute; reflexivity.
Qed.

(** sharp cannot read the image: the candidate fails at the first step. *)
Lemma C5_witness :
  let env := env_bad_image logo_known "/w/assets/icons/logo.png" in
  let st := process env "assets" "backup" webp 80 [] (state logo_fs [])
              "assets/icons/logo.png" in
  st_log st = [ ("assets/icons/logo.png", Failed Encode) ]
  /\ st_failCount st = 1 /\ st_successCount st = 0 /\ st_lockData st = [].
Proof.
  cbv zeta.
  pose proof (C5_failed_step_is_contained
                (env_bad_image logo_known "/w/assets/icons/logo.png")
                "assets" "backup" webp 80 [] (state logo_fs [])
                "assets/icons/logo.png" [] Encode) as H.
  destruct H as (Hlog & Hfail & Hok & Hlock & _).
  - split; [|split].
    + intros t [[Hget _] _]. discriminate Hget.
    + intros [].
    + intros [Hb _]. vm_compute in Hb. discriminate Hb.
  - vm_compute. reflexivity.
  - repeat split; assumption.
Defined.

(** ** Whole runs *)

(** A run with a lock entry of an earlier run whose original is gone:
    the entry is not a candidate, its rules are in the table next to those
    of the image converted now, and the references to both are
    rewritten. *)
Lemma C6_witness :
  loadLockFile stale_world = [ ("assets/old.png", "assets/old.webp") ]
  /\ map fst (st_log stale_st) = [ "assets/icons/logo.png"; "assets/old.webp" ]
  /\ In ("assets/old.png", "assets/old.webp") (st_lockData stale_st)
  /\ In {| oldRel := "old.png"; newRel := "old.webp" |} stale_table
  /\ In {| oldRel := "assets/old.png"; newRel := "assets/old.webp" |}
        stale_table
  /\ stale_table
     = [ {| oldRel := "old.png"; newRel := "old.webp" |};
         {| oldRel := "assets/old.png"; newRel := "assets/old.webp" |};
         {| oldRel := "icons/logo.png"; newRel := "icons/logo.webp" |};
         {| oldRel := "assets/icons/logo.png";
            newRel := "assets/icons/logo.webp" |} ]
  /\ In ("/w/index.html", "<img src='old.png'> <img src='icons/logo.png'>")
        (texts stale_world)
  /\ In ("/w/index.html", "<img src='old.webp'> <img src='icons/logo.webp'>")
        (texts stale_world_done).
Proof.
  destruct (C6_table_rebuilt_from_final_lock stale_env stale_world stale_world_done stale_st
              stale_table (Some 1))
    as (config & Hcfg & H); [vm_compute; reflexivity|].
  cbv zeta in H.
  destruct H as (_ & _ & Htable & _ & Hstale & Hrew).
  vm_compute in Hcfg. injection Hcfg as <-.
  destruct (Hstale "assets/old.png" "assets/old.webp") as (Hkept & _ & Hrules).
  { vm_compute. now left. }
  { vm_compute. intros [H|[H|[]]]; discriminate H. }
  destruct (Hrew 1 eq_refl) as [_ Htext].
  destruct (Htext "/w/index.html"
              "<img src='old.png'> <img src='icons/logo.png'>")
    as [Hnew _].
  { vm_compute. now left. }
  { reflexivity. }
  { reflexivity. }
  { exists {| oldRel := "old.png"; newRel := "old.webp" |}, 10.
    split; [vm_compute; now left|].
    split; [split; [vm_compute; lia|vm_compute; reflexivity]|].
    split; intros c Hc; vm_compute in Hc; inversion Hc; subst; try reflexivity. }
  split; [vm_compute; reflexivity|].
  split; [vm_compute; reflexivity|].
  split; [exact Hkept|].
  split; [apply Hrules; vm_compute; now left|].
  split; [apply Hrules; vm_compute; right; now left|].
  split; [vm_compute in Htable; exact Htable|].
  split; [vm_compute; now left|].
  vm_compute in Hnew. exact Hnew.
Defined.

(** The input directory is missing and there is no [.gitignore]: the run
    exits with status 1, and [.gitignore] has been written. *)
Lemma C9_counterexample :
  loadConfig no_input_world = Some (config "assets" "backup")
  /\ pathExists logo_env (paths no_input_world) "assets" = false
  /\ fst (main logo_env no_input_world) = Exit1
  /\ gitignore no_input_world = None
  /\ gitignore (snd (main logo_env no_input_world))
     = Some ("backup" +:+ newline)
  /\ snd (main logo_env no_input_world) <> no_input_world.
Proof.
  repeat split; try (vm_compute; reflexivity).
  intros H. apply (f_equal gitignore) in H. vm_compute in H. discriminate H.
Qed.

Lemma C9_witness :
  main logo_env no_input_world
  = (Exit1, ensureGitIgnore logo_env "backup" no_input_world)
  /\ paths (snd (main logo_env no_input_world)) = paths no_input_world
  /\ lock_file (snd (main logo_env no_input_world))
     = lock_file no_input_world.
Proof.
  destruct (proj2 (C9_setup_errors_exit logo_env no_input_world)
              (config "assets" "backup"))
    as (Hmain & Hp & _ & Hl & _).
  - vm_compute. reflexivity.
  - vm_compute. reflexivity.
  - repeat split; assumption.
Defined.

Lemma C10_witness :
  fst (main logo_env no_images_world) = NoImagesFound
  /\ lock_file (snd (main logo_env no_images_world)) = LockJson logo_lock
  /\ texts (snd (main logo_env no_images_world)) = texts no_images_world.
Proof.
  destruct (C10_no_images_returns_early logo_env no_images_world
              (config "assets" "backup"))
    as (Hout & Hl & Ht & _).
  - vm_compute. reflexivity.
  - vm_compute. reflexivity.
  - vm_compute. reflexivity.
  - repeat split; assumption.
Defined.

(** ** Rewriting *)

(** In [a.png a.png a.png] the old path [a.png a.png] occurs at 0 and at
    6, standalone both times; the global replace takes the first and
    resumes behind it, so the occurrence at 6 is not replaced. *)
Lemma C7_counterexample :
  occurs_at twice thrice 6 /\ standalone thrice 6
  /\ ~ replaced_at twice thrice 6
  /\ Rewriter.rewrite_content [ {| oldRel := twice; newRel := "n.webp" |} ]
       thrice false
     = Some ("n.webp a.png", true).
Proof.
  split; [split; [vm_compute; lia|reflexivity]|].
  split.
  { split; intros c Hc; vm_compute in Hc; inversion Hc; subst;
      reflexivity. }
  split; [|vm_compute; reflexivity].
  intros H. apply replaced_at_iff in H. vm_compute in H.
  destruct H as [H|[]]. discriminate H.
Qed.

Lemma C7_witness :
  occurs_at "img.png" "bigimg.png img.png" 11
  /\ standalone "bigimg.png img.png" 11
  /\ (replaced_at "img.png" "bigimg.png img.png" 3 -> False).
Proof.
  destruct (C7_boundary_safe_rewriting "img.png" "img.webp"
              "bigimg.png img.png") as (Hsound & _).
  destruct (Hsound 11) as [Hocc Hst].
  { apply replaced_at_iff. vm_compute. tauto. }
  split; [exact Hocc|]. split; [exact Hst|].
  intros H3. destruct (Hsound 3 H3) as [_ [Hb _]].
  specialize (Hb "g"%char eq_refl). discriminate Hb.
Defined.

(** The old path [b.png] of the short rule is a proper prefix of the old
    path [b.png b.jpg] of the long rule.  The long rule is applied first
    and rewrites the text [b.png b.jpg] to [b.png b.webp]; the short rule
    then rewrites it again, to [b.webp b.webp]. *)
Lemma C8_counterexample :
  oldRel long_rule = (oldRel short_rule +:+ " b.jpg")%string
  /\ Rewriter.sort_replacements [short_rule; long_rule]
     = [long_rule; short_rule]
  /\ after_rule (oldRel long_rule) long_rule = newRel long_rule
  /\ Rewriter.rewrite_content
       (Rewriter.sort_replacements [short_rule; long_rule])
       (oldRel long_rule) false
     = Some ("b.webp b.webp", true)
  /\ "b.webp b.webp" <> newRel long_rule.
Proof.
  repeat split; try (vm_compute; reflexivity). discriminate.
Qed.

(** ** Two runs in a row *)

Example nested_run :
  exists table,
    main nested_env nested_world
    = (Done nested_st table (Some 0), nested_world_done)
    /\ st_log nested_st = [ ("public/a.png", Processed) ]
    /\ st_failCount nested_st = 0.
Proof. eexists. repeat split; vm_compute; reflexivity. Qed.

Example absolute_run :
  exists table,
    main absolute_env absolute_world
    = (Done absolute_st table (Some 0), absolute_world_done).
Proof. eexists. vm_compute. reflexivity. Qed.

Example listed_run :
  exists table,
    main listed_env listed_world
    = (Done listed_st table (Some 1), listed_world_done).
Proof. eexists. vm_compute. reflexivity. Qed.

Example stale_run :
  main stale_env stale_world
  = (Done stale_st stale_table (Some 1), stale_world_done).
Proof. vm_compute. reflexivity. Qed.

(** Three pairs of runs in which the first run converts its image
    without a failure and writes the lock file, nothing is changed between
    the runs, and the second run converts an image all the same.

    The backup directory lies inside the input directory: the second run
    finds the backup [public/backup/a.png] and converts it.

    The input directory is an absolute path: the glob lists the converted
    image as [/w/public/a.webp], the lock value for it is [public/a.webp],
    so that it is not recognized as a generated file and is converted
    again.

    The configuration file is one of the text files of the working
    directory and blacklists [public/old.png], for which the lock file has
    an entry whose target is gone: the first run rewrites the blacklist
    with the rule of that entry, and the second run, which reads the
    rewritten configuration, finds [public/old.png] and converts it. *)
Lemma C1_counterexample :
  ((exists table,
      main nested_env nested_world
      = (Done nested_st table (Some 0), nested_world_done))
   /\ st_failCount nested_st = 0
   /\ st_log nested_st = [ ("public/a.png", Processed) ]
   /\ run_conversions (fst (main nested_env nested_world_done)) = 1
   /\ run_log (fst (main nested_env nested_world_done))
      = [ ("public/a.webp", GeneratedFile);
          ("public/backup/a.png", Processed) ])
  /\ ((exists table,
         main absolute_env absolute_world
         = (Done absolute_st table (Some 0), absolute_world_done))
      /\ st_failCount absolute_st = 0
      /\ st_log absolute_st = [ ("/w/public/a.png", Processed) ]
      /\ st_lockData absolute_st = [ ("/w/public/a.png", "public/a.webp") ]
      /\ run_conversions (fst (main absolute_env absolute_world_done)) = 1
      /\ run_log (fst (main absolute_env absolute_world_done))
         = [ ("/w/public/a.webp", Processed) ])
  /\ ((exists table,
         main listed_env listed_world
         = (Done listed_st table (Some 1), listed_world_done))
      /\ st_failCount listed_st = 0
      /\ st_log listed_st = [ ("public/new.png", Processed) ]
      /\ config_file listed_world
         = ConfigJson (config_blacklisting ["public/old.png"])
      /\ config_file listed_world_done
         = ConfigJson (config_blacklisting ["public/old.webp"])
      /\ run_conversions (fst (main listed_env listed_world_done)) = 1
      /\ run_log (fst (main listed_env listed_world_done))
         = [ ("public/new.webp", GeneratedFile);
             ("public/old.png", Processed) ]).
Proof.
  split; [|split].
  - split; [eexists; vm_compute; reflexivity|].
    repeat split; vm_compute; reflexivity.
  - split; [eexists; vm_compute; reflexivity|].
    repeat split; vm_compute; reflexivity.
  - split; [eexists; vm_compute; reflexivity|].
    repeat split; vm_compute; reflexivity.
Qed.

Example twin_run :
  exists table,
    main twin_env twin_world = (Done twin_st table (Some 0), twin_world_done)
    /\ st_log twin_st
       = [ ("public/a.png", Processed); ("public/a.webp", Processed) ].
Proof. eexists. split; vm_compute; reflexivity. Qed.

Lemma twin_sane :
  sane_names twin_env webp (loadLockFile twin_world) (paths twin_world)
    (paths twin_world_done)
    (glob twin_env (paths twin_world)
       (path.join ["public"; image_pattern]) [])
    (glob twin_env (paths twin_world_done)
       (path.join ["public"; image_pattern]) []).
Proof.
  split.
  - vm_compute. repeat constructor; simpl; intuition discriminate.
  - intros k Hk. known_candidate Hk; by vm_compute.
  - intros k Hk. known_candidate Hk; discriminate.
  - constructor.
  - intros t k [].
  - intros k Hk. known_candidate Hk; by vm_compute.
  - intros k Hk. known_candidate Hk; by vm_compute.
  - intros k k' Hk Hk' Heq. known_candidate Hk; known_candidate Hk';
      vm_compute in Heq |- *; congruence.
  - intros k t _ [].
  - intros k k' Hk Hk'. known_candidate Hk; known_candidate Hk';
      by vm_compute.
  - intros c Hc. known_candidate Hc; by vm_compute.
  - intros c Hc Hold. known_candidate Hc. vm_compute. tauto.
  - intros c k Hc Hk _. known_candidate Hc; known_candidate Hk;
      by vm_compute.
Qed.

Lemma twin_backups :
  backups_not_rediscovered twin_env "public" "backup" webp
    (glob twin_env (paths twin_world)
       (path.join ["public"; image_pattern]) [])
    (glob twin_env (paths twin_world_done)
       (path.join ["public"; image_pattern]) []).
Proof.
  intros c k Hc Hk. known_candidate Hc; known_candidate Hk;
    (split; [by vm_compute|]); vm_compute; intuition discriminate.
Qed.

(** [a.png] and [a.webp] side by side: the first run converts both, the
    second finds [a.webp] again and skips it as already converted. *)
Lemma C1_witness :
  run_conversions (fst (main twin_env twin_world_done)) = 0
  /\ (forall e,
        In ("public/a.webp", e)
           (run_log (fst (main twin_env twin_world_done))) ->
        e = AlreadyConverted)
  /\ paths (snd (main twin_env twin_world_done)) = paths twin_world_done.
Proof.
  destruct (C1_second_run_converts_nothing twin_env twin_world
              twin_world_done twin_st
              (rebuild_replacements twin_env "public" (st_lockData twin_st))
              (Some 0) (config "public" "backup") settings_webp)
    as (Hconv & _ & Hagain & Hpaths & _).
  - vm_compute. reflexivity.
  - vm_compute. reflexivity.
  - vm_compute. reflexivity.
  - vm_compute. reflexivity.
  - reflexivity.
  - reflexivity.
  - exact twin_sane.
  - exact twin_backups.
  - split; [exact Hconv|]. split; [|exact Hpaths].
    intros e. apply Hagain. vm_compute. tauto.
Defined.

End Examples.

Section PrecedenceInstance.

Import Regex Rewriter Scenario.

(** The rules of the specification's example on a text with both old
    paths: the longer rule rewrites the first, the shorter rule copies
    the inserted path and rewrites the second. *)
Lemma C8_witness :
  sort_replacements [short_rule; nested_rule] = [nested_rule; short_rule]
  /\ pieces (boundary_pattern "a/b.png") "a/b.png b.png"
     = ([] ++ Replaced 0 :: map Kept (Str.chars " b.png"))%list
  /\ replace (boundary_pattern "a/b.png") "a/b.png b.png" "a/b.webp"
     = "a/b.webp b.png"
  /\ can_overlap "a/b.webp" "b.png" = false
  /\ pieces (boundary_pattern "b.png") "a/b.webp b.png"
     = ([] ++ map Kept (Str.chars "a/b.webp") ++ [Kept " "%char; Replaced 9])%list
  /\ replace (boundary_pattern "b.png") "a/b.webp b.png" "b.webp"
     = "a/b.webp b.webp"
  /\ option_map fst
       (rewrite_content (sort_replacements [short_rule; nested_rule])
          "a/b.png b.png" false)
     = Some "a/b.webp b.webp".
Proof.
  destruct (C8_longest_rule_first [short_rule; nested_rule] nested_rule short_rule
              "a/b.png b.png")
    as (_ & _ & (changed & Hall) & Hpair & Honce).
  destruct Hpair as (_ & Hsort & _); [vm_compute; lia|].
  destruct (Honce [] (map Kept (Str.chars " b.png")) 0)
    as (_ & _ & _ & _ & Hs1 & Hfree & Hcopy & Hfinal).
  { intros Hd. vm_compute in Hd. intuition discriminate. }
  { vm_compute. reflexivity. }
  cbv zeta in *.
  assert (Hno : can_overlap "a/b.webp" "b.png" = false)
    by (vm_compute; reflexivity).
  destruct (proj1 Hcopy (Hfree Hno)) as (A & B & Heq & HA).
  split; [exact Hsort|].
  split; [vm_compute; reflexivity|].
  split; [vm_compute in Hs1 |- *; reflexivity|].
  split; [exact Hno|].
  split; [vm_compute; reflexivity|].
  split.
  - pose proof (Hfinal [] [Kept " "%char; Replaced 9]) as Hlast.
    vm_compute in Hlast |- *. exact (Hlast eq_refl).
  - rewrite Hall. vm_compute. reflexivity.
Defined.

End PrecedenceInstance.

(* ================================================================== *)
(** * The properties above on concrete runs *)
(* ================================================================== *)

Section Instances.

Import Scenario.
Local Open Scope string_scope.

(** The run on the project of the specification saves the lock data that
    the next run loads. *)
Lemma X1_witness :
  loadLockFile logo_world_done
  = (if lock_write_ok logo_env then st_lockData logo_st
     else loadLockFile logo_world).
Proof.
  apply (saved_lock_is_loaded_next logo_env logo_world logo_world_done
           logo_st logo_table (Some 1)).
  vm_compute. reflexivity.
Defined.

(** The configuration of the scenario sets the format: it is the format
    of the run. *)
Lemma X3_witness :
  preferred_type (config "assets" "backup")
  = Some (format_name (targetFormat settings_webp)).
Proof.
  exact (proj1 (proj2 (settings_from_config_then_answers logo_env logo_world
                         (config "assets" "backup") eq_refl)
                      settings_webp eq_refl)).
Defined.

(** The image of the scenario after its conversion. *)
Lemma X4_witness :
  let st' := process logo_env "assets" "backup" webp 80 []
               (state logo_fs []) "assets/icons/logo.png" in
  final_path logo_env webp "assets/icons/logo.png" ∈ st_fs st'
  /\ Lock.get (st_lockData st') "assets/icons/logo.png"
     = Some (lock_value logo_env webp "assets/icons/logo.png").
Proof.
  cbv zeta.
  destruct (processed_candidate_is_converted_and_backed_up logo_env
              "assets" "backup" webp 80 [] (state logo_fs [])
              "assets/icons/logo.png")
    as (_ & Hf & Hl & _).
  - vm_compute. reflexivity.
  - split; [exact Hf|exact Hl].
Defined.

(** The converted image cannot be put in place: the original is in the
    backup and the lock has no entry. *)
Lemma X5_witness :
  let env := env_bad_move logo_known "/w/assets/icons/logo.webp" in
  let st' := process env "assets" "backup" webp 80 [] (state logo_fs [])
               "assets/icons/logo.png" in
  st_lockData st' = []
  /\ backup_path env "assets" "backup" "assets/icons/logo.png" ∈ st_fs st'.
Proof.
  cbv zeta.
  destruct (failed_candidate_leaves
              (env_bad_move logo_known "/w/assets/icons/logo.webp")
              "assets" "backup" webp 80 [] (state logo_fs [])
              "assets/icons/logo.png" RenameTemp)
    as (Hl & Hb & _).
  - vm_compute. reflexivity.
  - split; [exact Hl|exact Hb].
Defined.

(** The counters of the run of the scenario. *)
Lemma X7_witness :
  st_successCount logo_st = count_events is_Processed (st_log logo_st)
  /\ st_failCount logo_st = count_events is_Failed (st_log logo_st).
Proof.
  destruct (summary_counts_match_log logo_env logo_world logo_world_done
              logo_st logo_table (Some 1))
    as (_ & Hs & Hf & _).
  - vm_compute. reflexivity.
  - split; [exact Hs|exact Hf].
Defined.

(** The directory of the image is still there after the run. *)
Lemma X8_witness :
  "/w/assets/icons" ∈ paths logo_world_done
  \/ exists c e,
       In (c, e) (st_log logo_st) /\ disposition e = ConvertNow
       /\ ("/w/assets/icons" = disk_path logo_env c
           \/ "/w/assets/icons" = temp_path logo_env c).
Proof.
  apply (run_removes_only_converted_candidates logo_env logo_world
           logo_world_done (Done logo_st logo_table (Some 1))
           "/w/assets/icons").
  - vm_compute. reflexivity.
  - by vm_compute.
Defined.

(** No format is set and none is given: the run is cancelled and only
    [.gitignore] is written. *)
Lemma X9_witness :
  fst (main logo_env asking_world) = Cancelled
  /\ paths (snd (main logo_env asking_world)) = paths asking_world
  /\ lock_file (snd (main logo_env asking_world)) = lock_file asking_world.
Proof.
  split; [vm_compute; reflexivity|].
  destruct (unfinished_run_changes_only_gitignore logo_env asking_world
              (snd (main logo_env asking_world)) Cancelled)
    as (Hp & Hl & _).
  - vm_compute. reflexivity.
  - intros st table n. discriminate.
  - split; [exact Hp|exact Hl].
Defined.

(** A text that has the old path only behind a hyphen is not written. *)
Lemma X11_witness :
  Rewriter.updateReferences (fun _ => true) (fun _ => true) logo_table
    [ ("/w/notes.md", other_text) ]
  = ([ ("/w/notes.md", other_text) ], 0).
Proof.
  apply unreferenced_texts_are_untouched.
  intros f r [<-|[]] Hr i [[Hi Ho] Hs]. cbn [snd] in *.
  destruct Hr as [<-|[<-|[]]]; cbn [oldRel] in Ho;
    repeat match goal with
           | Hi : _ <= String.length _ |- _ => solve [vm_compute in Hi; lia]
           | i : nat, Ho : Str.starts_with _ _ = true |- _ =>
               destruct i as [|i];
               [try (vm_compute in Ho; discriminate Ho)|]
           end.
  destruct Hs as [Hs _]. specialize (Hs "-"%char eq_refl).
  vm_compute in Hs. discriminate Hs.
Defined.

(** A rule from [a.webp] to [a.webp]. *)
Lemma X12_witness :
  Rewriter.apply_replacement "see a.webp"
    {| oldRel := "a.webp"; newRel := "a.webp" |}
  = Some ("see a.webp", Regex.test (boundary_pattern "a.webp") "see a.webp").
Proof.
  apply same_path_rule_keeps_text.
  intros H. cbn in H. intuition discriminate.
Defined.

(** [trim] strips the no-break space: a line of [.gitignore] that has one
    before the name of the backup directory lists the directory, and
    nothing is written. *)
Example line_with_no_break_space :
  trim (String "160"%char "backup") = "backup"
  /\ gitignore
       (ensureGitIgnore logo_env "backup"
          (with_gitignore logo_world
             (String "160"%char "backup" +:+ newline)))
     = Some (String "160"%char "backup" +:+ newline).
Proof. split; vm_compute; reflexivity. Qed.

(** A directory name that begins with a no-break space is not a plain
    name: no trimmed line is equal to it, and every call adds it again. *)
Example name_with_no_break_space :
  trim (String "160"%char "backup") <> String "160"%char "backup"
  /\ gitignore
       (ensureGitIgnore logo_env (String "160"%char "backup")
          (ensureGitIgnore logo_env (String "160"%char "backup") logo_world))
     = Some (String "160"%char "backup" +:+ newline
             +:+ String "160"%char "backup" +:+ newline).
Proof. split; [discriminate|vm_compute; reflexivity]. Qed.

(** The backup directory of the scenario is listed once. *)
Lemma X15_witness :
  ensureGitIgnore logo_env "backup" (ensureGitIgnore logo_env "backup"
                                       logo_world)
  = ensureGitIgnore logo_env "backup" logo_world.
Proof.
  apply (ensureGitIgnore_lists_once logo_env "backup" logo_world).
  split; [|vm_compute; reflexivity].
  intros H. cbn in H. intuition discriminate.
Defined.

(** [.gitignore] already lists the backup directory: nothing is
    written. *)
Lemma X16_witness :
  ensureGitIgnore logo_env "backup" logo_world_done = logo_world_done.
Proof.
  apply (proj1 (proj2 (ensureGitIgnore_only_appends logo_env "backup"
                         ("backup" +:+ newline) logo_world_done eq_refl))).
  exists "backup". split; vm_compute; now left.
Defined.

(** The lock value of the scenario. *)
Lemma X17_witness :
  path.resolve "/w"
    ["/w"; lock_value logo_env webp "assets/icons/logo.png"]
  = finalNewPath logo_env webp "assets/icons/logo.png".
Proof.
  apply (lock_value_resolves_to_final_path logo_env webp
           "assets/icons/logo.png").
  reflexivity.
Defined.

(** The image of the scenario, met again after its conversion. *)
Lemma X18_witness :
  st_log (process logo_env "assets" "backup" webp 80 [] logo_st
            "assets/icons/logo.png")
  = [ ("assets/icons/logo.png", Processed);
      ("assets/icons/logo.png", AlreadyConverted) ].
Proof.
  destruct (processed_candidate_is_skipped_next logo_env "assets" "backup"
              webp 80 [] (state logo_fs []) "assets/icons/logo.png"
              "assets" "backup" webp 80 [])
    as (_ & Hlog & _).
  - reflexivity.
  - vm_compute. discriminate.
  - vm_compute. reflexivity.
  - refine (eq_trans Hlog _). vm_compute. reflexivity.
Defined.

(** The run of the scenario rewrites references. *)
Lemma X20_witness :
  exists config settings,
    loadConfig logo_world = Some config
    /\ determine_settings logo_env config = Some settings
    /\ workingDir settings <> ""
    /\ st_lockData logo_st <> [].
Proof.
  destruct (references_updated_exactly_when logo_env logo_world
              logo_world_done logo_st logo_table (Some 1))
    as (config & settings & Hc & Hs & Hiff).
  - vm_compute. reflexivity.
  - exists config, settings. split; [exact Hc|]. split; [exact Hs|].
    destruct (proj1 Hiff) as (Hw & Hl & _); [discriminate|].
    split; [exact Hw|exact Hl].
Defined.

End Instances.

Section MoreInstances.

Import Scenario.
Local Open Scope string_scope.

Lemma scenario_segments :
  Forall normal_segment ["assets"] /\ Forall normal_segment ["backup"]
  /\ Forall normal_segment ["icons"; "logo.png"].
Proof.
  repeat split; repeat constructor; try discriminate;
    intros H; cbn in H; intuition discriminate.
Qed.

(** The backup of the image of the scenario. *)
Lemma X22_witness :
  originalFileDest logo_env "assets" "backup" "assets/icons/logo.png"
  = "backup/icons/logo.png".
Proof.
  destruct scenario_segments as (Hi & Ho & Hr).
  apply (backup_keeps_structure logo_env ["assets"] ["backup"]
           ["icons"; "logo.png"] Hi Ho Hr); discriminate.
Defined.

(** The two rules for the image of the scenario. *)
Lemma X23_witness :
  map oldRel
      (rules_of logo_env "assets" "assets/icons/logo.png"
         "/w/assets/icons/logo.webp")
  = [ "icons/logo.png"; "assets/icons/logo.png" ].
Proof.
  destruct scenario_segments as (Hi & _ & Hr).
  apply (rules_for_both_spellings logo_env ["assets"]
           ["icons"; "logo.png"] "/w/assets/icons/logo.webp" Hi Hr);
    discriminate.
Defined.

End MoreInstances.

Section SnapshotInstance.

Import Scenario.
Local Open Scope string_scope.

(** The converted image of the scenario, found by the glob of the second
    run. *)
Lemma X24_witness :
  run_log (fst (main logo_env logo_world_done))
  = [ ("assets/icons/logo.webp", GeneratedFile) ]
  /\ (GeneratedFile = AlreadyConverted \/ GeneratedFile = GeneratedFile).
Proof.
  assert (Hlog : run_log (fst (main logo_env logo_world_done))
                 = [ ("assets/icons/logo.webp", GeneratedFile) ])
    by (vm_compute; reflexivity).
  split; [exact Hlog|].
  apply (loaded_lock_values_are_never_converted logo_env logo_world_done
           (snd (main logo_env logo_world_done))
           (fst (main logo_env logo_world_done))
           "assets/icons/logo.webp" GeneratedFile).
  - now destruct (main logo_env logo_world_done).
  - vm_compute. now left.
  - rewrite Hlog. now left.
Defined.

End SnapshotInstance.
